(** * The Markov chain engine of the Discord bot

    A shallow embedding of the chain store (the [markov_chain] table), of
    the ingestion transaction of [handleCrawlingCommand], of the two
    generators [generateMarkovSentence] and [generateResponseFromMessage],
    and of the statistics queries of [handleStatsCommand], followed by the
    properties of the engine.  The listeners around the engine are
    embedded as well: the tracking of muted members ([voiceStateUpdate] and
    the periodic check), the automatic responses of [messageCreate], and
    the commands [/generate] and [/crawling].

    Conventions of the embedding.
    - A JavaScript string is the list of its UTF-16 code units, so that
      [length] is JavaScript's [.length] and [++] is concatenation.
    - The table is the list of its rows in storage order.  Every query of
      the source is a function of that list.
    - [Math.random] and SQLite's [RANDOM()] draw from one stream of natural
      numbers carried by the [world]; [Math.floor(Math.random() * n)] is the
      next draw reduced modulo [n], which ranges over every index below [n].
    - A JavaScript computation either completes normally or throws;
      [try]/[catch] is [try_catch].
    - A call of the Discord API that the source awaits is fulfilled or
      rejected: the callback of the automatic responses and the handlers
      of [/generate] and [/crawling] take the outcome of each of their
      calls as an input. *)

From Stdlib Require Import String Ascii.
From Stdlib Require Import List ZArith NArith Lia Bool Permutation.
Import ListNotations.

Set Implicit Arguments.

(** ** JavaScript values *)

Module Js.

(** A UTF-16 code unit. *)
Definition code_unit := N.

Definition jsstring := list code_unit.

(** The JavaScript string of an ASCII literal. *)
Definition lit (s : string) : jsstring :=
  map N_of_ascii (list_ascii_of_string s).

Fixpoint eqb (a b : jsstring) : bool :=
  match a, b with
  | [], [] => true
  | x :: a', y :: b' => N.eqb x y && eqb a' b'
  | _, _ => false
  end.

Definition eq_dec : forall a b : jsstring, {a = b} + {a <> b} :=
  list_eq_dec N.eq_dec.

(** [arr[i]]: [None] is [undefined]. *)
Definition index {A} (arr : list A) (i : nat) : option A := nth_error arr i.

(** Truthiness of a string-or-undefined value: only the empty string and
    [undefined] are falsy. *)
Definition truthy (v : option jsstring) : bool :=
  match v with
  | Some (_ :: _) => true
  | _ => false
  end.

(** [v || d] on a string-or-undefined value. *)
Definition or_else (v : option jsstring) (d : jsstring) : jsstring :=
  match v with
  | Some (c :: s) => c :: s
  | _ => d
  end.

(** [arr.join('')]. *)
Definition join (arr : list jsstring) : jsstring := List.concat arr.

(** [arr.slice(-k)]: the last [k] elements (all of them when there are
    fewer). *)
Definition slice_last {A} (k : nat) (arr : list A) : list A :=
  skipn (length arr - k) arr.

(** What a thrown value is does not matter to the engine: every handler
    of the source ignores it but for logging.  [DiscordAPIError] is what
    a rejected call of the Discord API rejects with. *)
Inductive error := TypeError | StorageError | TokenizerError | DiscordAPIError.

Inductive completion (A : Type) :=
| Normal (a : A)
| Throw (e : error).

Arguments Throw {A} e.

End Js.

Import Js.

(** ** The chain store *)

(** A row of [markov_chain (prefix1 TEXT, prefix2 TEXT, suffix TEXT)]. *)
Definition triple := (jsstring * jsstring * jsstring)%type.

(** A node of the chain: the columns [prefix1, prefix2]. *)
Definition node := (jsstring * jsstring)%type.

Definition node_of (t : triple) : node := let '(p1, p2, _) := t in (p1, p2).

Definition suffix_of (t : triple) : jsstring := let '(_, _, s) := t in s.

Definition triple_eqb (t u : triple) : bool :=
  let '(a, b, c) := t in
  let '(a', b', c') := u in
  Js.eqb a a' && Js.eqb b b' && Js.eqb c c'.

(** The database handle [db].  [available = false] is a storage fault
    (closed connection, unreadable file): then every [prepare]/[get]/[all]
    of the driver throws.  A fault lasts for the whole call that meets it. *)
Record database := {
  rows : list triple;
  available : bool
}.

(** [INSERT OR IGNORE INTO markov_chain (prefix1, prefix2, suffix)
    VALUES (?, ?, ?)] under [UNIQUE(prefix1, prefix2, suffix)]: the new
    table and [result.changes]. *)
Definition insert_or_ignore (p1 p2 s : jsstring) (table : list triple)
  : list triple * nat :=
  if existsb (triple_eqb (p1, p2, s)) table
  then (table, 0)
  else (table ++ [(p1, p2, s)], 1).

(** [SELECT suffix FROM markov_chain WHERE prefix1 = ? AND prefix2 = ?]. *)
Definition select_suffixes (p1 p2 : jsstring) (table : list triple)
  : list jsstring :=
  map suffix_of
      (filter (fun t => Js.eqb (fst (node_of t)) p1 && Js.eqb (snd (node_of t)) p2)
              table).

(** [SELECT prefix1, prefix2 FROM markov_chain WHERE prefix1 = ? OR
    prefix2 = ?]. *)
Definition select_nodes (a b : jsstring) (table : list triple) : list node :=
  map node_of
      (filter (fun t => Js.eqb (fst (node_of t)) a || Js.eqb (snd (node_of t)) b)
              table).

(** [SELECT COUNT( * ) as count FROM markov_chain]. *)
Definition count_rows (table : list triple) : nat := length table.

(** [SELECT COUNT(DISTINCT prefix1 || prefix2) as count FROM markov_chain]:
    [||] is SQL's string concatenation. *)
Definition count_distinct_concat (table : list triple) : nat :=
  length (nodup Js.eq_dec (map (fun t => fst (node_of t) ++ snd (node_of t)) table)).

(** ** The tokenizer *)

(** A Kuromoji token; the engine reads [surface_form] only. *)
Record token := { surface_form : jsstring }.

(** The global [tokenizer]: [None] until the dictionary is built, then an
    object whose [tokenize] returns the tokens of a text or throws. *)
Definition tokenizer_t := option (jsstring -> completion (list token)).

(** [tokenizer.tokenize(text)]; calling a method of [undefined] throws. *)
Definition tokenizer_tokenize (tokenizer : tokenizer_t) (text : jsstring)
  : completion (list token) :=
  match tokenizer with
  | None => Throw TypeError
  | Some tk => tk text
  end.

(** ** Ingestion: the transaction of [handleCrawlingCommand] *)

(** A Discord message; [content = None] is an undefined content. *)
Record message := { content : option jsstring }.

(** The value returned by the transaction. *)
Record report := {
  processedMessages : nat;
  insertedChains : nat
}.

Section Transaction.

Variable tokenizer : tokenizer_t.

(** The prepared statement: [insertStmt.run(p1, p2, s)] acts on a store
    [DB] and reports [result.changes]. *)
Variable DB : Type.
Variable insertStmt_run : jsstring -> jsstring -> jsstring -> DB -> DB * nat.

(** One iteration of the inner loop, at index [i]. *)
Definition window_step (words : list jsstring) (i : nat) (st : DB * nat)
  : DB * nat :=
  let '(store, inserted) := st in
  if truthy (index words i) && truthy (index words (i + 1))
     && truthy (index words (i + 2))
  then
    match index words i, index words (i + 1), index words (i + 2) with
    | Some w0, Some w1, Some w2 =>
        let '(store', changes) := insertStmt_run w0 w1 w2 store in
        (store', if 0 <? changes then S inserted else inserted)
    | _, _, _ => st
    end
  else st.

(** [for (let i = 0; i < words.length - 2; i++)]: [todo] iterations are
    left, the next one at index [i]; the loop starts with
    [todo = words.length - 2] and [i = 0]. *)
Fixpoint window_loop (words : list jsstring) (todo i : nat) (st : DB * nat)
  : DB * nat :=
  match todo with
  | 0 => st
  | S todo' => window_loop words todo' (S i) (window_step words i st)
  end.

(** The body of [for (const msg of messages)]. *)
Definition process_message (msg : message) (st : DB * report) : DB * report :=
  let '(store, r) := st in
  match content msg with
  | None | Some [] => st
  | Some text =>
      match tokenizer_tokenize tokenizer text with
      | Throw _ => st
      | Normal tokens =>
          let words := map surface_form tokens in
          if length words <? 3 then st
          else
            let '(store', inserted) :=
              window_loop words (length words - 2) 0 (store, insertedChains r) in
            (store', {| processedMessages := S (processedMessages r);
                        insertedChains := inserted |})
      end
  end.

(** [db.transaction((messages) => { ... })] applied to a batch. *)
Definition transaction (messages : list message) (store : DB) : DB * report :=
  fold_left (fun st msg => process_message msg st) messages
            (store, {| processedMessages := 0; insertedChains := 0 |}).

End Transaction.

(** The transaction against the table. *)
Definition ingest (tokenizer : tokenizer_t) (messages : list message)
  (table : list triple) : list triple * report :=
  transaction tokenizer insert_or_ignore messages table.

(** The statement that only records its calls: the store is the list of the
    triples [run] was called with, in call order. *)
Definition recording_run (p1 p2 s : jsstring) (calls : list triple)
  : list triple * nat :=
  (calls ++ [(p1, p2, s)], 1).

(** The upserts one record makes. *)
Definition upserts_of (tokenizer : tokenizer_t) (msg : message) : list triple :=
  fst (process_message tokenizer recording_run msg
         ([], {| processedMessages := 0; insertedChains := 0 |})).

(** Whether one record counts as processed: [1] or [0]. *)
Definition processed_of (tokenizer : tokenizer_t) (msg : message) : nat :=
  processedMessages
    (snd (process_message tokenizer recording_run msg
            ([], {| processedMessages := 0; insertedChains := 0 |}))).

(** Replaying a list of upserts against a statement. *)
Definition replay (DB : Type)
  (run : jsstring -> jsstring -> jsstring -> DB -> DB * nat)
  (calls : list triple) (st : DB * nat) : DB * nat :=
  fold_left
    (fun st t =>
       let '(p1, p2, s) := t in
       let '(store', changes) := run p1 p2 s (fst st) in
       (store', if 0 <? changes then S (snd st) else snd st))
    calls st.

(** The specification's windows: for each index [i] from [0] to
    [len(words) - 3], the triple [(words[i], words[i+1], words[i+2])]. *)
Definition window (words : list jsstring) (i : nat) : triple :=
  (nth i words [], nth (i + 1) words [], nth (i + 2) words []).

Definition windows (words : list jsstring) : list triple :=
  map (window words) (seq 0 (length words - 2)).

Definition nonempty (s : jsstring) : bool :=
  match s with [] => false | _ => true end.

(** A window is kept when its three words are non-empty strings. *)
Definition kept (t : triple) : bool :=
  let '(a, b, c) := t in nonempty a && nonempty b && nonempty c.

(** The windows the specification upserts. *)
Definition spec_upserts (words : list jsstring) : list triple :=
  filter kept (windows words).

(** ** Generation: the world and its monad *)

(** What a generation call can observe: the database handle and the
    stream of random draws. *)
Record world := {
  db : database;
  entropy : nat -> nat
}.

(** A computation: run in a world, it completes or throws and leaves a
    world behind. *)
Definition M (A : Type) : Type := world -> completion A * world.

Definition ret {A} (a : A) : M A := fun w => (Normal a, w).

Definition bind {A B} (m : M A) (k : A -> M B) : M B :=
  fun w =>
    match m w with
    | (Normal a, w') => k a w'
    | (Throw e, w') => (Throw e, w')
    end.

Definition throw {A} (e : error) : M A := fun w => (Throw e, w).

(** [try { body } catch (error) { handler }]. *)
Definition try_catch {A} (body : M A) (handler : error -> M A) : M A :=
  fun w =>
    match body w with
    | (Normal a, w') => (Normal a, w')
    | (Throw e, w') => handler e w'
    end.

(** A completion computed outside the world. *)
Definition lift {A} (c : completion A) : M A := fun w => (c, w).

Declare Scope js_scope.
Delimit Scope js_scope with js.
Notation "x <- m ;; k" := (bind m (fun x => k))
  (at level 100, m at next level, right associativity) : js_scope.
Open Scope js_scope.

(** Taking the next draw of the stream. *)
Definition next_draw (w : world) : nat * world :=
  (entropy w 0, {| db := db w; entropy := fun n => entropy w (S n) |}).

(** [Math.floor(Math.random() * n)]. *)
Definition random_index (n : nat) : M nat :=
  fun w =>
    let '(r, w') := next_draw w in
    (Normal (if n =? 0 then 0 else r mod n), w').

(** [db.prepare(query).all(...params)] for a query that reads the table:
    throws when the storage is at fault. *)
Definition prepare_all {A} (query : list triple -> list A) : M (list A) :=
  fun w =>
    if available (db w) then (Normal (query (rows (db w))), w)
    else (Throw StorageError, w).

(** [db.prepare('SELECT prefix1, prefix2 FROM markov_chain ORDER BY RANDOM()
    LIMIT 1').get()]: a row drawn at random, [None] ([undefined]) on an
    empty table. *)
Definition prepare_get_random_start : M (option node) :=
  fun w =>
    if available (db w) then
      match rows (db w) with
      | [] => (Normal None, w)
      | _ :: _ =>
          let '(r, w') := next_draw w in
          (Normal (index (map node_of (rows (db w))) (r mod length (rows (db w)))), w')
      end
    else (Throw StorageError, w).

(** [db.prepare(query).get()] for a query that yields one count. *)
Definition prepare_get_count (query : list triple -> nat) : M (option nat) :=
  fun w =>
    if available (db w) then (Normal (Some (query (rows (db w)))), w)
    else (Throw StorageError, w).

(** [dbGet]: [null] on any driver error. *)
Definition dbGet {A} (prepared : M (option A)) : M (option A) :=
  try_catch prepared (fun _ => ret None).

(** [dbAll]: [[]] on any driver error. *)
Definition dbAll {A} (prepared : M (list A)) : M (list A) :=
  try_catch prepared (fun _ => ret []).

(** ** The sentinels *)

(** "データベースに十分なデータがありません。" *)
Definition insufficient_data : jsstring :=
  [12487; 12540; 12479; 12505; 12540; 12473; 12395; 21313; 20998; 12394;
   12487; 12540; 12479; 12364; 12354; 12426; 12414; 12379; 12435; 12290]%N.

(** "文章の生成中にエラーが発生しました。" *)
Definition error_generating_sentence : jsstring :=
  [25991; 31456; 12398; 29983; 25104; 20013; 12395; 12456; 12521; 12540;
   12364; 30330; 29983; 12375; 12414; 12375; 12383; 12290]%N.

(** "トークナイザーが準備できていません。" *)
Definition tokenizer_not_ready : jsstring :=
  [12488; 12540; 12463; 12490; 12452; 12470; 12540; 12364; 28310; 20633;
   12391; 12365; 12390; 12356; 12414; 12379; 12435; 12290]%N.

(** "応答の生成中にエラーが発生しました。" *)
Definition error_generating_response : jsstring :=
  [24540; 31572; 12398; 29983; 25104; 20013; 12395; 12456; 12521; 12540;
   12364; 30330; 29983; 12375; 12414; 12375; 12383; 12290]%N.

(** ** The generators *)

(** What a generator hands back before the final [join]: the array
    [sentence] of a walk, or one of the fixed messages. *)
Inductive generated :=
| Words (sentence : list jsstring)
| Message (text : jsstring).

(** The string the caller receives. *)
Definition render (g : generated) : jsstring :=
  match g with
  | Words sentence => join sentence
  | Message text => text
  end.

(** The loop [for (let i = 0; i < maxWords; i++) { ... }], the same text in
    both generators.  Its body does not read [i]: [todo] iterations are
    left.  [suffixes[k].suffix] of an undefined element would throw. *)
Fixpoint walk (todo : nat) (prefix1 prefix2 : jsstring)
  (sentence : list jsstring) : M (list jsstring) :=
  match todo with
  | 0 => ret sentence
  | S todo' =>
      suffixes <- dbAll (prepare_all (select_suffixes prefix1 prefix2)) ;;
      if length suffixes =? 0 then ret sentence
      else
        i <- random_index (length suffixes) ;;
        match index suffixes i with
        | None => throw TypeError
        | Some nextSuffix =>
            walk todo' prefix2 nextSuffix (sentence ++ [nextSuffix])
        end
  end.

(** The number of iterations [for (let i = 0; i < maxWords; i++)] allows
    for an integer [maxWords]: none when [maxWords <= 0]. *)
Definition iterations (maxWords : Z) : nat := Z.to_nat maxWords.

(** [generateMarkovSentence], before the [join]. *)
Definition generateMarkovSentence_generated (maxWords : Z) : M generated :=
  try_catch
    (startRow <- dbGet prepare_get_random_start ;;
     match startRow with
     | None => ret (Message insufficient_data)
     | Some (prefix1, prefix2) =>
         sentence <- walk (iterations maxWords) prefix1 prefix2 [prefix1; prefix2] ;;
         ret (Words sentence)
     end)
    (fun _ => ret (Message error_generating_sentence)).

Definition generateMarkovSentence (maxWords : Z) : M jsstring :=
  g <- generateMarkovSentence_generated maxWords ;; ret (render g).

(** [for (const word of words) { startCandidates = dbAll(..., [word, word]);
    if (startCandidates.length > 0) break; }]. *)
Fixpoint search_any_word (words : list jsstring) (startCandidates : list node)
  : M (list node) :=
  match words with
  | [] => ret startCandidates
  | word :: rest =>
      found <- dbAll (prepare_all (select_nodes word word)) ;;
      if 0 <? length found then ret found else search_any_word rest found
  end.

(** The search for the entry nodes of a seeded walk: the query on the last
    two words, then, when it finds nothing, the query on each word.  The
    caller has checked [words.length >= 2], so [lastTwoWords[0]] is
    defined and the [throw] below is never reached. *)
Definition find_startCandidates (words : list jsstring) : M (list node) :=
  let lastTwoWords := slice_last 2 words in
  match index lastTwoWords 0 with
  | None => throw TypeError
  | Some prefix1 =>
      let prefix2 := or_else (index lastTwoWords 1) [] in
      startCandidates <- dbAll (prepare_all (select_nodes prefix1 prefix2)) ;;
      if length startCandidates =? 0
      then search_any_word words startCandidates
      else ret startCandidates
  end.

Section Seeded.

Variable tokenizer : tokenizer_t.

(** [generateResponseFromMessage], before the [join]. *)
Definition generateResponseFromMessage_generated
  (inputMessage : jsstring) (maxWords : Z) : M generated :=
  try_catch
    (match tokenizer with
     | None => ret (Message tokenizer_not_ready)
     | Some tk =>
         tokens <- lift (tk inputMessage) ;;
         let words := map surface_form tokens in
         if length words <? 2 then generateMarkovSentence_generated maxWords
         else
           startCandidates <- find_startCandidates words ;;
           if length startCandidates =? 0
           then generateMarkovSentence_generated maxWords
           else
             i <- random_index (length startCandidates) ;;
             match index startCandidates i with
             | None => throw TypeError
             | Some (prefix1, prefix2) =>
                 sentence <- walk (iterations maxWords) prefix1 prefix2
                                  [prefix1; prefix2] ;;
                 let result := join sentence in
                 if length result <? 10
                 then generateMarkovSentence_generated maxWords
                 else ret (Words sentence)
             end
     end)
    (fun _ => ret (Message error_generating_response)).

Definition generateResponseFromMessage (inputMessage : jsstring) (maxWords : Z)
  : M jsstring :=
  g <- generateResponseFromMessage_generated inputMessage maxWords ;;
  ret (render g).

End Seeded.

(** ** Statistics: the two counts of [handleStatsCommand] *)

Record stats := {
  totalChains : nat;
  uniquePrefixes : nat
}.

(** [v?.count || 0] on the row of a count query. *)
Definition count_or_zero (v : option nat) : nat :=
  match v with
  | Some n => n
  | None => 0
  end.

(** The numbers [handleStatsCommand] interpolates into its reply. *)
Definition handleStatsCommand : M stats :=
  totalChains <- dbGet (prepare_get_count count_rows) ;;
  uniquePrefixes <- dbGet (prepare_get_count count_distinct_concat) ;;
  ret {| totalChains := count_or_zero totalChains;
         uniquePrefixes := count_or_zero uniquePrefixes |}.

(** The nodes of the store: its distinct [(prefix1, prefix2)] pairs. *)
Definition node_eq_dec : forall a b : node, {a = b} + {a <> b}.
Proof. decide equality; apply Js.eq_dec. Defined.

Definition distinct_nodes (table : list triple) : list node :=
  nodup node_eq_dec (map node_of table).

(** ** The vocabulary of the properties *)

(** [chain table p1 p2 tail]: starting from the pair [(p1, p2)], each word
    of [tail] is a stored suffix of the current pair, and the pair then
    advances to its second word and that suffix. *)
Inductive chain (table : list triple)
  : jsstring -> jsstring -> list jsstring -> Prop :=
| chain_stop (p1 p2 : jsstring) : chain table p1 p2 []
| chain_step (p1 p2 w : jsstring) (rest : list jsstring) :
    In (p1, p2, w) table ->
    chain table p2 w rest ->
    chain table p1 p2 (w :: rest).

(** A sentence is a valid walk when it is a start pair followed by a
    chain from that pair. *)
Definition valid_walk (table : list triple) (sentence : list jsstring) : Prop :=
  match sentence with
  | p1 :: p2 :: tail => chain table p1 p2 tail
  | _ => False
  end.

(** The pair a walk is at after appending [tail] from [(p1, p2)]. *)
Fixpoint final_pair (p1 p2 : jsstring) (tail : list jsstring) : node :=
  match tail with
  | [] => (p1, p2)
  | w :: rest => final_pair p2 w rest
  end.

(** A sentence stops at a dead end when its last two words have no stored
    continuation. *)
Definition dead_end (table : list triple) (sentence : list jsstring) : Prop :=
  exists (front : list jsstring) (p1 p2 : jsstring),
    sentence = front ++ [p1; p2] /\ select_suffixes p1 p2 table = [].

(** What a completed walk of at most [todo] steps looks like: a start
    pair, a chain from it of at most [todo] words, stopped by the step
    count or at a pair without stored continuation. *)
Definition walked (table : list triple) (todo : nat) (sentence : list jsstring)
  : Prop :=
  exists (p1 p2 : jsstring) (tail : list jsstring),
    sentence = p1 :: p2 :: tail
    /\ chain table p1 p2 tail
    /\ length tail <= todo
    /\ (length tail = todo
        \/ select_suffixes (fst (final_pair p1 p2 tail))
                           (snd (final_pair p1 p2 tail)) table = []).

(** The specification's [findNodesContaining(word)]: the stored pairs of
    which either component equals [word].  It is the source's query
    [WHERE prefix1 = ? OR prefix2 = ?] with both parameters bound to
    [word]. *)
Definition findNodesContaining (word : jsstring) (table : list triple)
  : list node :=
  select_nodes word word table.

(** ** A tokenizer for examples: splitting at spaces *)

Fixpoint split_spaces (text current : jsstring) : list jsstring :=
  match text with
  | [] => match current with [] => [] | _ => [current] end
  | c :: rest =>
      if N.eqb c 32
      then match current with
           | [] => split_spaces rest []
           | _ => current :: split_spaces rest []
           end
      else split_spaces rest (current ++ [c])
  end.

Definition whitespace_tokenizer : tokenizer_t :=
  Some (fun text =>
          Normal (map (fun s => {| surface_form := s |}) (split_spaces text []))).

(** ** Example stores and worlds *)

(** The store after ingesting "I like birds very much". *)
Definition birds_table : list triple :=
  [(lit "I", lit "like", lit "birds");
   (lit "like", lit "birds", lit "very");
   (lit "birds", lit "very", lit "much")].

(** Two rows that differ as pairs and agree once concatenated. *)
Definition abc_table : list triple :=
  [(lit "ab", lit "c", lit "x"); (lit "a", lit "bc", lit "y")].

(** A row that starts with "a" and a row whose second word is "a". *)
Definition entry_table : list triple :=
  [(lit "a", lit "q", lit "r"); (lit "x", lit "a", lit "y")].

(** A healthy store holding [table], with the draws [0, 1, 2, ...]. *)
Definition world_of (table : list triple) : world :=
  {| db := {| rows := table; available := true |}; entropy := fun n => n |}.


(** ** The vocabulary of the further properties *)

(** A word is in the vocabulary of a table when it is one of the three
    words of a stored row. *)
Definition in_vocabulary (table : list triple) (word : jsstring) : Prop :=
  exists p1 p2 s : jsstring,
    In (p1, p2, s) table /\ (word = p1 \/ word = p2 \/ word = s).

(** A table has no dead end when the pair a stored row leads to has a
    stored continuation itself. *)
Definition no_dead_end (table : list triple) : Prop :=
  forall p1 p2 s : jsstring,
    In (p1, p2, s) table -> exists s' : jsstring, In (p2, s, s') table.

(** The three rows of the cycle a b c a b c ... *)
Definition cycle_table : list triple :=
  [(lit "a", lit "b", lit "c");
   (lit "b", lit "c", lit "a");
   (lit "c", lit "a", lit "b")].

(** A store at fault holding [table]. *)
Definition faulted_world_of (table : list triple) : world :=
  {| db := {| rows := table; available := false |}; entropy := fun n => n |}.

(** ** Muted members: [userMuteStartTime] and its two handlers *)

(** A JavaScript [Map] from strings to numbers: its entries in insertion
    order.  A [Map] holds a key once. *)
Definition mute_map := list (jsstring * Z).

(** [map.get(key)]. *)
Fixpoint Map_get (key : jsstring) (m : mute_map) : option Z :=
  match m with
  | [] => None
  | (k, v) :: rest => if Js.eqb k key then Some v else Map_get key rest
  end.

(** [map.set(key, value)]: an existing key keeps its place. *)
Fixpoint Map_set (key : jsstring) (value : Z) (m : mute_map) : mute_map :=
  match m with
  | [] => [(key, value)]
  | (k, v) :: rest =>
      if Js.eqb k key then (k, value) :: rest
      else (k, v) :: Map_set key value rest
  end.

(** [map.delete(key)]. *)
Definition Map_delete (key : jsstring) (m : mute_map) : mute_map :=
  filter (fun entry => negb (Js.eqb (fst entry) key)) m.

(** What the handlers read of a [VoiceState]: the id of its member
    ([None] when there is no member), its channel ([None] is [null]) and
    the two mute flags. *)
Record VoiceState := {
  member : option jsstring;
  channelId : option jsstring;
  selfMute : bool;
  serverMute : bool
}.

(** [a === b] for a string-or-null [a] and a string [b]. *)
Definition is_channel (a : option jsstring) (b : jsstring) : bool :=
  match a with
  | Some c => Js.eqb c b
  | None => false
  end.

(** The listener of ['voiceStateUpdate'].  [now] is what [Date.now()]
    returns during the call. *)
Definition voiceStateUpdate (INACTIVE_CHANNEL_ID : jsstring) (now : Z)
  (oldState newState : VoiceState) (userMuteStartTime : mute_map) : mute_map :=
  if truthy (member newState) then
    let userId := or_else (member newState) [] in
    let wasMuted := selfMute oldState || serverMute oldState in
    let isMuted := selfMute newState || serverMute newState in
    if truthy (channelId newState) then
      let tracked :=
        if negb wasMuted && isMuted then Map_set userId now userMuteStartTime
        else if wasMuted && negb isMuted then Map_delete userId userMuteStartTime
        else userMuteStartTime in
      if is_channel (channelId newState) INACTIVE_CHANNEL_ID
      then Map_delete userId tracked
      else tracked
    else if truthy (channelId oldState) && negb (truthy (channelId newState))
    then Map_delete userId userMuteStartTime
    else userMuteStartTime
  else userMuteStartTime.

(** The listener run on a sequence of events, each with its clock reading,
    its old state and its new state. *)
Definition voiceStateUpdates (INACTIVE_CHANNEL_ID : jsstring)
  (events : list (Z * VoiceState * VoiceState)) (userMuteStartTime : mute_map)
  : mute_map :=
  fold_left
    (fun m ev => voiceStateUpdate INACTIVE_CHANNEL_ID (fst (fst ev))
                                  (snd (fst ev)) (snd ev) m)
    events userMuteStartTime.

(** What the periodic check reads of a guild: its id, its cache of voice
    states by user id, and whether its channel cache holds a channel. *)
Record Guild := {
  guild_id : jsstring;
  voiceStates_get : jsstring -> option VoiceState;
  channels_has : jsstring -> bool
}.

(** The state of one periodic check: the map, the calls of
    [voiceState.setChannel(inactiveChannel)] made so far, as guild and
    user, and the readings [Date.now()] is still to return. *)
Record sweep_state := {
  tracked : mute_map;
  moved : list (jsstring * jsstring);
  clock : nat -> Z
}.

(** [30 * 60 * 1000]. *)
Definition mute_limit : Z := 30 * 60 * 1000.

(** The body of [client.guilds.cache.forEach(guild => ...)] for one entry
    [[userId, muteStartTime]] of the map. *)
Definition sweep_guild (INACTIVE_CHANNEL_ID userId : jsstring)
  (muteStartTime : Z) (st : sweep_state) (guild : Guild) : sweep_state :=
  let forget :=
    {| tracked := Map_delete userId (tracked st);
       moved := moved st; clock := clock st |} in
  match voiceStates_get guild userId with
  | None => forget
  | Some voiceState =>
      if truthy (channelId voiceState)
         && negb (is_channel (channelId voiceState) INACTIVE_CHANNEL_ID)
      then
        if selfMute voiceState || serverMute voiceState then
          let currentTime := clock st 0 in
          let later := fun n => clock st (S n) in
          let timeElapsed := (currentTime - muteStartTime)%Z in
          if (mute_limit <=? timeElapsed)%Z then
            if channels_has guild INACTIVE_CHANNEL_ID
               && (match member voiceState with Some _ => true | None => false end)
            then {| tracked := Map_delete userId (tracked st);
                    moved := moved st ++ [(guild_id guild, userId)];
                    clock := later |}
            else {| tracked := tracked st; moved := moved st; clock := later |}
          else {| tracked := tracked st; moved := moved st; clock := later |}
        else forget
      else forget
  end.

(** [for (const [userId, muteStartTime] of userMuteStartTime.entries())]
    over the entries [entries] still to visit.  Only the entry being
    visited is ever deleted, so the entries visited are those the map held
    when the check began. *)
Fixpoint sweep_entries (INACTIVE_CHANNEL_ID : jsstring) (guilds : list Guild)
  (entries : mute_map) (st : sweep_state) : sweep_state :=
  match entries with
  | [] => st
  | (userId, muteStartTime) :: rest =>
      sweep_entries INACTIVE_CHANNEL_ID guilds rest
        (fold_left (sweep_guild INACTIVE_CHANNEL_ID userId muteStartTime)
                   guilds st)
  end.

(** The callback of [setInterval]. *)
Definition sweep (INACTIVE_CHANNEL_ID : jsstring) (guilds : list Guild)
  (userMuteStartTime : mute_map) (readings : nat -> Z) : sweep_state :=
  sweep_entries INACTIVE_CHANNEL_ID guilds userMuteStartTime
    {| tracked := userMuteStartTime; moved := []; clock := readings |}.

(** A member sits muted in a guild: the guild's cache has a voice state
    for the member, in a channel that is not the inactive one, with one of
    the mute flags set. *)
Definition sits_muted (INACTIVE_CHANNEL_ID : jsstring) (guild : Guild)
  (userId : jsstring) (voiceState : VoiceState) : Prop :=
  voiceStates_get guild userId = Some voiceState
  /\ truthy (channelId voiceState) = true
  /\ is_channel (channelId voiceState) INACTIVE_CHANNEL_ID = false
  /\ selfMute voiceState || serverMute voiceState = true.

(** The same of a voice state alone. *)
Definition muted_in_channel (INACTIVE_CHANNEL_ID : jsstring)
  (voiceState : VoiceState) : Prop :=
  truthy (channelId voiceState) = true
  /\ is_channel (channelId voiceState) INACTIVE_CHANNEL_ID = false
  /\ selfMute voiceState || serverMute voiceState = true.

(** The events of one member, each starting from the state the previous
    one ended in; [state] is the state before the first. *)
Fixpoint chained (userId : jsstring) (state : VoiceState)
  (events : list (Z * VoiceState * VoiceState)) : Prop :=
  match events with
  | [] => True
  | (_, oldState, newState) :: rest =>
      oldState = state
      /\ member newState = Some userId
      /\ chained userId newState rest
  end.

(** The state after the last event. *)
Fixpoint last_state (state : VoiceState)
  (events : list (Z * VoiceState * VoiceState)) : VoiceState :=
  match events with
  | [] => state
  | (_, _, newState) :: rest => last_state newState rest
  end.

(** Example voice states of the member "u": muted or not, in the channel
    "lobby". *)
Definition in_lobby (muted : bool) : VoiceState :=
  {| member := Some (lit "u"); channelId := Some (lit "lobby");
     selfMute := muted; serverMute := false |}.

(** An example guild "g" in which "u" sits muted in "lobby" and which has
    the channel "afk". *)
Definition guild_g : Guild :=
  {| guild_id := lit "g";
     voiceStates_get := fun userId =>
       if Js.eqb userId (lit "u") then Some (in_lobby true) else None;
     channels_has := fun channel => Js.eqb channel (lit "afk") |}.

(** A call of [setChannel] is justified when it moves a tracked member who
    sits muted in that guild, whose voice state has a member, in a guild
    that has the inactive channel, at a clock reading at least
    [mute_limit] after the member's entry. *)
Definition move_justified (INACTIVE_CHANNEL_ID : jsstring) (guilds : list Guild)
  (m : mute_map) (readings : nat -> Z) (move : jsstring * jsstring) : Prop :=
  exists (guild : Guild) (voiceState : VoiceState) (t : Z) (k : nat),
    In guild guilds
    /\ guild_id guild = fst move
    /\ In (snd move, t) m
    /\ sits_muted INACTIVE_CHANNEL_ID guild (snd move) voiceState
    /\ member voiceState <> None
    /\ channels_has guild INACTIVE_CHANNEL_ID = true
    /\ (mute_limit <= readings k - t)%Z.

(** What every step of the periodic check keeps: the clock is the given
    readings from some point on, every entry still tracked is an entry of
    the map the check began with, and every move made is justified. *)
Definition sweep_invariant (INACTIVE_CHANNEL_ID : jsstring) (guilds : list Guild)
  (m : mute_map) (readings : nat -> Z) (st : sweep_state) : Prop :=
  (exists k, forall n, clock st n = readings (k + n))
  /\ (forall u t, Map_get u (tracked st) = Some t -> Map_get u m = Some t)
  /\ (forall move, In move (moved st) ->
                   move_justified INACTIVE_CHANNEL_ID guilds m readings move).

(** ** Automatic responses: the listener of ['messageCreate'] *)

(** [autoResponseMode]. *)
Inductive AutoResponseMode := mention_only | random | disabled.

(** What the listener reads of a message: whether its author is a bot,
    whether its channel is text based, its content, whether it mentions
    the client, what awaiting [channel.sendTyping()] gives ([None] when
    the channel has no [sendTyping]), and whether the channel has
    [send]. *)
Record incoming := {
  author_bot : bool;
  channel_isTextBased : bool;
  message_content : jsstring;
  mentions_client : bool;
  channel_sendTyping : option (completion unit);
  channel_has_send : bool
}.

(** "このコマンドはスラッシュコマンドに移行しました。`/" and
    "` を使用してください。", around the name of the command. *)
Definition migration_notice (command : jsstring) : jsstring :=
  [12371; 12398; 12467; 12510; 12531; 12489; 12399; 12473; 12521; 12483;
   12471; 12517; 12467; 12510; 12531; 12489; 12395; 31227; 34892; 12375;
   12414; 12375; 12383; 12290; 96; 47]%N
  ++ command
  ++ [96; 32; 12434; 20351; 29992; 12375; 12390; 12367; 12384; 12373;
      12356; 12290]%N.

(** What the listener does before it returns: nothing, a reply with a
    migration notice, or a [setTimeout] of the response callback. *)
Inductive reaction :=
| NoReaction
| Notice (text : jsstring)
| Scheduled (isMentioned : bool).

(** [Math.random()], of which the model keeps the draw. *)
Definition Math_random : M nat :=
  fun w => let '(r, w') := next_draw w in (Normal r, w').

(** [Math.random() < 0.5], that is [Math.floor(Math.random() * 2) === 0]. *)
Definition coin : M bool :=
  i <- random_index 2 ;; ret (i =? 0).

(** The listener of ['messageCreate'] (the version with automatic
    responses), up to the call of [setTimeout].  The delay
    [Math.random() * 2000 + 1000] is drawn and, being a matter of real
    time, otherwise left out. *)
Definition messageCreate (autoResponseMode : AutoResponseMode) (message : incoming)
  : M reaction :=
  if author_bot message || negb (channel_isTextBased message)
  then ret NoReaction
  else if Js.eqb (message_content message) (lit "!crawling")
  then ret (Notice (migration_notice (lit "crawling")))
  else if Js.eqb (message_content message) (lit "!generate")
  then ret (Notice (migration_notice (lit "generate")))
  else if Js.eqb (message_content message) (lit "!stats")
  then ret (Notice (migration_notice (lit "stats")))
  else if negb (match autoResponseMode with disabled => true | _ => false end)
          && (5 <? length (message_content message))
  then
    let isMentioned := mentions_client message in
    shouldRespond <-
      (if isMentioned then ret true
       else match autoResponseMode with
            | random => coin
            | _ => ret false
            end) ;;
    if shouldRespond then
      try_catch
        (_ <- match channel_sendTyping message with
              | Some typing => lift typing
              | None => ret tt
              end ;;
         _ <- Math_random ;;
         ret (Scheduled isMentioned))
        (fun _ => ret NoReaction)
    else ret NoReaction
  else ret NoReaction.

(** How a response leaves: [message.reply] or [message.channel.send]. *)
Inductive delivery :=
| Reply (response : jsstring)
| Send (response : jsstring).

(** What the callback reads of the message besides: what awaiting
    [message.reply(text)] and [message.channel.send(text)] gives, the
    promise fulfilled or rejected with an error. *)
Record outgoing := {
  message_reply : jsstring -> completion unit;
  channel_send : jsstring -> completion unit
}.

(** The callback given to [setTimeout]; [generateResponseFromMessage] is
    called with its default [maxWords = 50].  No handler catches what the
    two calls of the Discord API reject with: the callback then rejects.
    When it completes, the result is the response delivered, [None] when
    the channel has no [send]. *)
Definition response_callback (tokenizer : tokenizer_t) (message : incoming)
  (out : outgoing) (isMentioned : bool) : M (option delivery) :=
  response <- generateResponseFromMessage tokenizer (message_content message) 50 ;;
  if isMentioned then
    _ <- lift (message_reply out response) ;;
    ret (Some (Reply response))
  else if channel_has_send message then
    _ <- lift (channel_send out response) ;;
    ret (Some (Send response))
  else ret None.

(** An example message in a text channel that can type and send. *)
Definition chat (text : jsstring) (mentioned : bool) : incoming :=
  {| author_bot := false; channel_isTextBased := true;
     message_content := text; mentions_client := mentioned;
     channel_sendTyping := Some (Normal tt); channel_has_send := true |}.

(** Discord rejects every reply. *)
Definition rejecting_replies : outgoing :=
  {| message_reply := fun _ => Throw DiscordAPIError;
     channel_send := fun _ => Normal tt |}.

(** ** Interactions *)

(** What a handler reads of its [ChatInputCommandInteraction]: what
    awaiting [deferReply()], [reply(text)] and [editReply(text)] gives, the
    promise fulfilled or rejected with an error.  [T] is the type of the
    texts of the handler.  Within one run a handler passes no text twice,
    so that a function of the text lets the outcome differ from call to
    call. *)
Record Interaction (T : Type) := {
  interaction_deferReply : completion unit;
  interaction_reply : T -> completion unit;
  interaction_editReply : T -> completion unit
}.

(** Discord accepts every call. *)
Definition obliging (T : Type) : Interaction T :=
  {| interaction_deferReply := Normal tt;
     interaction_reply := fun _ => Normal tt;
     interaction_editReply := fun _ => Normal tt |}.

(** ** The command [/generate] *)

(** "🤖 生成された文章:\n\n" *)
Definition generated_prefix : jsstring :=
  [55358; 56598; 32; 29983; 25104; 12373; 12428; 12383; 25991; 31456; 58;
   10; 10]%N.

(** "❌ 文章生成中にエラーが発生しました。" *)
Definition generate_failed : jsstring :=
  [10060; 32; 25991; 31456; 29983; 25104; 20013; 12395; 12456; 12521;
   12540; 12364; 30330; 29983; 12375; 12414; 12375; 12383; 12290]%N.

(** [handleGenerateCommand], from the options [length] and [input] ([None]
    when an option is absent).  [deferReply] is awaited outside the [try]:
    its rejection leaves the handler.  The [editReply] of the sentence is
    inside: its rejection is caught, and the handler passes the failure
    text to a second [editReply], whose rejection leaves the handler.
    When the handler completes, the result is the text of the [editReply]
    that succeeded. *)
Definition handleGenerateCommand (tokenizer : tokenizer_t)
  (interaction : Interaction jsstring)
  (length_option : option Z) (input_option : option jsstring) : M jsstring :=
  let maxWords := match length_option with Some n => n | None => 50%Z end in
  _ <- lift (interaction_deferReply interaction) ;;
  try_catch
    (sentence <-
       (if truthy input_option
        then generateResponseFromMessage tokenizer (or_else input_option []) maxWords
        else generateMarkovSentence maxWords) ;;
     _ <- lift (interaction_editReply interaction (generated_prefix ++ sentence)) ;;
     ret (generated_prefix ++ sentence))
    (fun _ =>
       _ <- lift (interaction_editReply interaction generate_failed) ;;
       ret generate_failed).

(** Discord accepts every call but an [editReply] of anything other than
    the failure text. *)
Definition rejecting_sentences : Interaction jsstring :=
  {| interaction_deferReply := Normal tt;
     interaction_reply := fun _ => Normal tt;
     interaction_editReply :=
       fun text => if Js.eqb text generate_failed then Normal tt
                   else Throw DiscordAPIError |}.

(** ** The command [/crawling]: fetching the messages *)

(** A fetched message of discord.js: its id, and what ingestion reads of it. *)
Record DiscordMessage := {
  message_id : jsstring;
  message_of : message
}.

(** [const fetchLimit = 100]. *)
Definition fetchLimit : nat := 100.

(** [for (const msg of messageArray) { if (allMessages.length <
    messageCount) allMessages.push(msg); else break; }]. *)
Fixpoint push_while_room (messageCount : Z) (messageArray allMessages : list DiscordMessage)
  : list DiscordMessage :=
  match messageArray with
  | [] => allMessages
  | msg :: rest =>
      if (Z.of_nat (length allMessages) <? messageCount)%Z
      then push_while_room messageCount rest (allMessages ++ [msg])
      else allMessages
  end.

Section Crawl.

(** [channelToCrawl.messages.fetch({ limit, before })]: [before] is [None]
    when the option is not set.  The call returns a page or throws. *)
Variable fetch : nat -> option jsstring -> completion (list DiscordMessage).

(** The loop [while (allMessages.length < messageCount) { ... }], with
    [fuel] bounding the number of its iterations.  The progress shown
    through [editReply] is left out here: [crawl_loop] has it. *)
Fixpoint fetch_loop (fuel : nat) (messageCount : Z) (lastId : option jsstring)
  (allMessages : list DiscordMessage) : completion (list DiscordMessage) :=
  match fuel with
  | 0 => Normal allMessages
  | S fuel' =>
      if (Z.of_nat (length allMessages) <? messageCount)%Z then
        let before := if truthy lastId then lastId else None in
        match fetch fetchLimit before with
        | Throw e => Throw e
        | Normal messages =>
            if length messages =? 0 then Normal allMessages
            else
              let allMessages' := push_while_room messageCount messages allMessages in
              match index messages (length messages - 1) with
              | None => Throw TypeError
              | Some lastMessage =>
                  if length messages <? fetchLimit then Normal allMessages'
                  else fetch_loop fuel' messageCount
                                  (Some (message_id lastMessage)) allMessages'
              end
        end
      else Normal allMessages
  end.

(** The fetching phase of [handleCrawlingCommand].  Every iteration that
    does not leave the loop adds a message, so [messageCount] iterations
    are enough. *)
Definition fetch_messages (messageCount : Z) : completion (list DiscordMessage) :=
  fetch_loop (Z.to_nat messageCount) messageCount None [].

End Crawl.

(** The messages a channel holds after the one with id [before], newest
    first; all of them without [before]. *)
Fixpoint older_than (before : jsstring) (history : list DiscordMessage) : list DiscordMessage :=
  match history with
  | [] => []
  | msg :: rest =>
      if Js.eqb (message_id msg) before then rest else older_than before rest
  end.

(** A channel that pages through [history], newest first, as Discord
    does: at most [limit] messages, those older than [before]. *)
Definition paging (history : list DiscordMessage) (limit : nat)
  (before : option jsstring) : completion (list DiscordMessage) :=
  Normal (firstn limit (match before with
                        | Some b => older_than b history
                        | None => history
                        end)).

(** ** The command [/crawling]: the handler *)

(** The texts [handleCrawlingCommand] passes to [interaction.reply] and
    [interaction.editReply]: the refusal for users other than the
    administrator, the tokenizer that is not ready, the channel that is no
    text channel, the start with the number of messages asked for, the
    progress with the number of messages fetched so far, the end of the
    fetching with the number of messages fetched, the completion with the
    report of the transaction, and the failure. *)
Inductive crawl_text :=
| text_admin_only
| text_tokenizer_not_ready
| text_invalid_channel
| text_started (messageCount : Z)
| text_progress (fetched : nat) (messageCount : Z)
| text_fetched (fetched : nat)
| text_done (r : report)
| text_failed.

(** What the handler acts on: the database, and the texts it has passed to
    the interaction, oldest first, whether or not Discord accepted them. *)
Record crawl_state := {
  crawl_db : database;
  replies : list crawl_text
}.

(** A step of the handler: it completes or throws, and leaves a state. *)
Definition Crawling (A : Type) : Type := crawl_state -> completion A * crawl_state.

Definition crawl_ret {A} (a : A) : Crawling A := fun s => (Normal a, s).

Definition crawl_bind {A B} (m : Crawling A) (k : A -> Crawling B) : Crawling B :=
  fun s =>
    match m s with
    | (Normal a, s') => k a s'
    | (Throw e, s') => (Throw e, s')
    end.

Definition crawl_throw {A} (e : error) : Crawling A := fun s => (Throw e, s).

(** [try { body } catch (error) { handler }]. *)
Definition crawl_try {A} (body : Crawling A) (handler : error -> Crawling A)
  : Crawling A :=
  fun s =>
    match body s with
    | (Normal a, s') => (Normal a, s')
    | (Throw e, s') => handler e s'
    end.

Notation "x <~ m ;; k" := (crawl_bind m (fun x => k))
  (at level 100, m at next level, right associativity) : js_scope.

(** [await interaction.reply(text)]. *)
Definition reply (interaction : Interaction crawl_text) (text : crawl_text)
  : Crawling unit :=
  fun s => (interaction_reply interaction text,
            {| crawl_db := crawl_db s; replies := replies s ++ [text] |}).

(** [await interaction.editReply(text)]. *)
Definition editReply (interaction : Interaction crawl_text) (text : crawl_text)
  : Crawling unit :=
  fun s => (interaction_editReply interaction text,
            {| crawl_db := crawl_db s; replies := replies s ++ [text] |}).

(** [db.prepare("INSERT OR IGNORE ...")], which throws when the storage is
    at fault, and [transaction(allMessages)], which commits. *)
Definition run_transaction (tokenizer : tokenizer_t)
  (allMessages : list DiscordMessage) : Crawling report :=
  fun s =>
    if available (crawl_db s) then
      let '(table, result) :=
        ingest tokenizer (map message_of allMessages) (rows (crawl_db s)) in
      (Normal result,
       {| crawl_db := {| rows := table; available := available (crawl_db s) |};
          replies := replies s |})
    else (Throw StorageError, s).

Section CrawlHandler.

Variable fetch : nat -> option jsstring -> completion (list DiscordMessage).
Variable interaction : Interaction crawl_text.

(** The loop [while (allMessages.length < messageCount) { ... }] as the
    handler runs it: [fetch_loop] together with the progress that is
    shown whenever the number of messages fetched so far is a multiple of
    1000, the rejection of which leaves the loop. *)
Fixpoint crawl_loop (fuel : nat) (messageCount : Z) (lastId : option jsstring)
  (allMessages : list DiscordMessage) : Crawling (list DiscordMessage) :=
  match fuel with
  | 0 => crawl_ret allMessages
  | S fuel' =>
      if (Z.of_nat (length allMessages) <? messageCount)%Z then
        let before := if truthy lastId then lastId else None in
        match fetch fetchLimit before with
        | Throw e => crawl_throw e
        | Normal messages =>
            if length messages =? 0 then crawl_ret allMessages
            else
              let allMessages' := push_while_room messageCount messages allMessages in
              match index messages (length messages - 1) with
              | None => crawl_throw TypeError
              | Some lastMessage =>
                  _ <~ (if length allMessages' mod 1000 =? 0
                        then editReply interaction
                               (text_progress (length allMessages') messageCount)
                        else crawl_ret tt) ;;
                  if length messages <? fetchLimit then crawl_ret allMessages'
                  else crawl_loop fuel' messageCount
                                  (Some (message_id lastMessage)) allMessages'
              end
        end
      else crawl_ret allMessages
  end.

(** What follows [await interaction.reply] of the start: the [try] block
    with the fetching, the transaction and the completion, and its
    [catch] with the failure.  As for [fetch_loop], [messageCount]
    iterations are enough. *)
Definition crawl_and_store (tokenizer : tokenizer_t) (messageCount : Z)
  : Crawling unit :=
  crawl_try
    (allMessages <~ crawl_loop (Z.to_nat messageCount) messageCount None [] ;;
     _ <~ editReply interaction (text_fetched (length allMessages)) ;;
     result <~ run_transaction tokenizer allMessages ;;
     editReply interaction (text_done result))
    (fun _ => editReply interaction text_failed).

End CrawlHandler.

(** [handleCrawlingCommand].  [ADMIN_USER_ID] is the environment variable
    ([None] when it is not set), [userId] is [interaction.user.id],
    [count_option] the option [count], and [channel] what
    [client.channels.fetch(MESSAGE_CRAWLING_ID)] gives: it throws, or
    yields [None] for no channel or a channel that is not text based, or
    the [messages.fetch] of the channel.  The guards, the fetch of the
    channel and the reply of the start are outside the [try]: what they
    throw leaves the handler. *)
Definition handleCrawlingCommand (ADMIN_USER_ID : option jsstring)
  (userId : jsstring) (tokenizer : tokenizer_t) (count_option : option Z)
  (channel : completion (option (nat -> option jsstring -> completion (list DiscordMessage))))
  (interaction : Interaction crawl_text) : Crawling unit :=
  if truthy ADMIN_USER_ID && negb (Js.eqb userId (or_else ADMIN_USER_ID []))
  then reply interaction text_admin_only
  else
    match tokenizer with
    | None => reply interaction text_tokenizer_not_ready
    | Some _ =>
        let messageCount := match count_option with Some n => n | None => 2000%Z end in
        match channel with
        | Throw e => crawl_throw e
        | Normal None => reply interaction text_invalid_channel
        | Normal (Some fetch) =>
            _ <~ reply interaction (text_started messageCount) ;;
            crawl_and_store fetch interaction tokenizer messageCount
        end
    end.

(** The state a handler starts in. *)
Definition fresh (d : database) : crawl_state :=
  {| crawl_db := d; replies := [] |}.


(** Example messages "m1", "m2", "m3", newest first. *)
Definition example_history : list DiscordMessage :=
  [{| message_id := lit "m1"; message_of := {| content := Some (lit "I like cats") |} |};
   {| message_id := lit "m2"; message_of := {| content := Some (lit "you like dogs") |} |};
   {| message_id := lit "m3"; message_of := {| content := Some (lit "we like birds") |} |}].

(** * Properties *)

(** ** Strings and rows *)

Lemma jsstring_eqb_eq (a b : jsstring) : Js.eqb a b = true <-> a = b.
Proof.
  revert b; induction a as [|x a IH]; intros [|y b]; simpl; split;
    try congruence; try reflexivity.
  - rewrite andb_true_iff, N.eqb_eq, IH. intros [-> ->]; reflexivity.
  - intros E; injection E as -> ->.
    rewrite andb_true_iff, N.eqb_eq, IH; split; reflexivity.
Qed.

Lemma jsstring_eqb_refl (a : jsstring) : Js.eqb a a = true.
Proof. apply jsstring_eqb_eq; reflexivity. Qed.

Lemma triple_eqb_eq (t u : triple) : triple_eqb t u = true <-> t = u.
Proof.
  destruct t as [[a b] c], u as [[a' b'] c']; simpl.
  rewrite !andb_true_iff, !jsstring_eqb_eq; split.
  - intros [[-> ->] ->]; reflexivity.
  - intros E; injection E as -> -> ->; repeat split.
Qed.

Lemma stored_iff (t : triple) (table : list triple) :
  existsb (triple_eqb t) table = true <-> In t table.
Proof.
  rewrite existsb_exists; split.
  - intros [u [Hu E]]. apply triple_eqb_eq in E; subst; assumption.
  - intros H; exists t; split; [assumption | apply triple_eqb_eq; reflexivity].
Qed.

Lemma truthy_nonempty (s : jsstring) : truthy (Some s) = nonempty s.
Proof. destruct s; reflexivity. Qed.

Lemma index_nth {A} (arr : list A) (i : nat) (d : A) :
  i < length arr -> index arr i = Some (nth i arr d).
Proof. intros H; unfold index; apply nth_error_nth'; assumption. Qed.

(** ** The insert statement *)

Lemma insert_present (p1 p2 s : jsstring) (table : list triple) :
  In (p1, p2, s) table -> insert_or_ignore p1 p2 s table = (table, 0).
Proof.
  intros H; unfold insert_or_ignore.
  rewrite (proj2 (stored_iff _ _) H); reflexivity.
Qed.

Lemma insert_keeps (p1 p2 s : jsstring) (table : list triple) (u : triple) :
  In u table -> In u (fst (insert_or_ignore p1 p2 s table)).
Proof.
  intros H; unfold insert_or_ignore.
  destruct (existsb _ table); simpl; [assumption | apply in_or_app; left; assumption].
Qed.

Lemma insert_stores (p1 p2 s : jsstring) (table : list triple) :
  In (p1, p2, s) (fst (insert_or_ignore p1 p2 s table)).
Proof.
  unfold insert_or_ignore.
  destruct (existsb _ table) eqn:E; simpl.
  - apply stored_iff; assumption.
  - apply in_or_app; right; left; reflexivity.
Qed.

(** ** Replaying upserts *)

Section Replay.

Variable DB : Type.
Variable run : jsstring -> jsstring -> jsstring -> DB -> DB * nat.

Lemma replay_app (l1 l2 : list triple) (st : DB * nat) :
  replay run (l1 ++ l2) st = replay run l2 (replay run l1 st).
Proof. unfold replay; apply fold_left_app. Qed.

Lemma replay_cons (t : triple) (l : list triple) (st : DB * nat) :
  replay run (t :: l) st = replay run l (replay run [t] st).
Proof. reflexivity. Qed.

Lemma window_step_replay (words : list jsstring) (i : nat) (st : DB * nat) :
  i + 2 < length words ->
  window_step run words i st = replay run (filter kept [window words i]) st.
Proof.
  intros H. destruct st as [store inserted]. unfold window_step.
  rewrite (@index_nth _ words (i) [] ltac:(lia)).
  rewrite (@index_nth _ words (i + 1) [] ltac:(lia)).
  rewrite (@index_nth _ words (i + 2) [] ltac:(lia)).
  rewrite !truthy_nonempty. simpl filter. unfold window, kept.
  destruct (nonempty (nth i words []) && nonempty (nth (i + 1) words [])
            && nonempty (nth (i + 2) words [])); reflexivity.
Qed.

Lemma window_loop_replay (words : list jsstring) (todo : nat) :
  forall (i : nat) (st : DB * nat),
    i + todo + 2 <= length words ->
    window_loop run words todo i st
    = replay run (filter kept (map (window words) (seq i todo))) st.
Proof.
  induction todo as [|todo IH]; intros i st H; cbn [window_loop seq map].
  - reflexivity.
  - rewrite IH by lia. rewrite window_step_replay by lia.
    change (window words i :: map (window words) (seq (S i) todo))
      with ([window words i] ++ map (window words) (seq (S i) todo)).
    rewrite filter_app, replay_app. reflexivity.
Qed.

End Replay.

Section ReplayFacts.

Variable DB : Type.
Variable run : jsstring -> jsstring -> jsstring -> DB -> DB * nat.

Lemma replay_step (p1 p2 s : jsstring) (l : list triple) (store : DB) (n : nat) :
  replay run ((p1, p2, s) :: l) (store, n)
  = replay run l (fst (run p1 p2 s store),
                  if 0 <? snd (run p1 p2 s store) then S n else n).
Proof.
  unfold replay; simpl. destruct (run p1 p2 s store); reflexivity.
Qed.

End ReplayFacts.

Lemma replay_recording (l calls : list triple) (n : nat) :
  replay recording_run l (calls, n) = (calls ++ l, n + length l).
Proof.
  revert calls n; induction l as [|[[p1 p2] s] l IH]; intros calls n.
  - simpl. rewrite app_nil_r, Nat.add_0_r. reflexivity.
  - rewrite replay_step. unfold recording_run at 1 2. simpl fst; simpl snd.
    rewrite IH. rewrite <- app_assoc. simpl. f_equal. lia.
Qed.

(** ** One record is the replay of its upserts *)

Section Records.

Variable tokenizer : tokenizer_t.

Lemma upserts_of_words (msg : message) (text : jsstring) (tokens : list token) :
  content msg = Some text -> text <> [] ->
  tokenizer_tokenize tokenizer text = Normal tokens ->
  3 <= length tokens ->
  upserts_of tokenizer msg = spec_upserts (map surface_form tokens)
  /\ processed_of tokenizer msg = 1.
Proof.
  intros Hc Ht Htok Hlen. unfold upserts_of, processed_of, process_message.
  rewrite Hc. destruct text as [|c text]; [congruence|].
  rewrite Htok.
  assert (L : length (map surface_form tokens) = length tokens) by apply length_map.
  destruct (Nat.ltb_spec (length (map surface_form tokens)) 3) as [H|H]; [lia|].
  rewrite window_loop_replay by lia.
  fold (windows (map surface_form tokens)).
  fold (spec_upserts (map surface_form tokens)).
  cbn [insertedChains processedMessages].
  rewrite replay_recording. simpl. split; reflexivity.
Qed.

Lemma upserts_of_short (msg : message) (text : jsstring) (tokens : list token) :
  content msg = Some text ->
  tokenizer_tokenize tokenizer text = Normal tokens ->
  length tokens < 3 ->
  upserts_of tokenizer msg = [] /\ processed_of tokenizer msg = 0.
Proof.
  intros Hc Htok Hlen. unfold upserts_of, processed_of, process_message.
  rewrite Hc. destruct text as [|c text]; [split; reflexivity|].
  rewrite Htok.
  assert (L : length (map surface_form tokens) = length tokens) by apply length_map.
  destruct (Nat.ltb_spec (length (map surface_form tokens)) 3) as [H|H]; [|lia].
  split; reflexivity.
Qed.

Lemma upserts_of_empty (msg : message) :
  content msg = None \/ content msg = Some [] ->
  upserts_of tokenizer msg = [] /\ processed_of tokenizer msg = 0.
Proof.
  intros [Hc|Hc]; unfold upserts_of, processed_of, process_message;
    rewrite Hc; split; reflexivity.
Qed.

Lemma upserts_of_throw (msg : message) (text : jsstring) (e : error) :
  content msg = Some text ->
  tokenizer_tokenize tokenizer text = Throw e ->
  upserts_of tokenizer msg = [] /\ processed_of tokenizer msg = 0.
Proof.
  intros Hc Htok. unfold upserts_of, processed_of, process_message.
  rewrite Hc. destruct text as [|c text]; [split; reflexivity|].
  rewrite Htok. split; reflexivity.
Qed.

Variable DB : Type.
Variable run : jsstring -> jsstring -> jsstring -> DB -> DB * nat.

(** Whatever the statement does, a record is the replay of its upserts. *)
Lemma process_message_replay (msg : message) (store : DB) (r : report) :
  process_message tokenizer run msg (store, r)
  = (fst (replay run (upserts_of tokenizer msg) (store, insertedChains r)),
     {| processedMessages := processedMessages r + processed_of tokenizer msg;
        insertedChains :=
          snd (replay run (upserts_of tokenizer msg) (store, insertedChains r)) |}).
Proof.
  assert (Same : forall r0 : report,
             (store, r0)
             = (store, {| processedMessages := processedMessages r0 + 0;
                          insertedChains := insertedChains r0 |})).
  { intros [p i]; simpl; rewrite Nat.add_0_r; reflexivity. }
  destruct (content msg) as [text|] eqn:Hc.
  - destruct text as [|c text].
    + destruct (upserts_of_empty msg (or_intror Hc)) as [-> ->].
      unfold process_message; rewrite Hc. apply Same.
    + destruct (tokenizer_tokenize tokenizer (c :: text)) as [tokens|e] eqn:Htok.
      * destruct (Nat.ltb_spec (length tokens) 3) as [H|H].
        -- destruct (upserts_of_short msg Hc Htok H) as [-> ->].
           unfold process_message; rewrite Hc, Htok, length_map.
           destruct (Nat.ltb_spec (length tokens) 3); [apply Same | lia].
        -- destruct (upserts_of_words msg Hc ltac:(discriminate) Htok H) as [-> ->].
           unfold process_message; rewrite Hc, Htok, length_map.
           destruct (Nat.ltb_spec (length tokens) 3); [lia|].
           rewrite window_loop_replay by (rewrite length_map; lia).
           rewrite <- (length_map surface_form tokens).
           fold (windows (map surface_form tokens)).
           fold (spec_upserts (map surface_form tokens)).
           destruct (replay run _ _) as [s' i']; simpl.
           rewrite Nat.add_1_r; reflexivity.
      * destruct (upserts_of_throw msg Hc Htok) as [-> ->].
        unfold process_message; rewrite Hc, Htok. apply Same.
  - destruct (upserts_of_empty msg (or_introl Hc)) as [-> ->].
    unfold process_message; rewrite Hc. apply Same.
Qed.

(** The upserts of a batch, in call order. *)
Lemma transaction_fold (messages : list message) :
  forall (store : DB) (r : report),
    fold_left (fun st msg => process_message tokenizer run msg st) messages (store, r)
    = (fst (replay run (flat_map (upserts_of tokenizer) messages)
                   (store, insertedChains r)),
       {| processedMessages :=
            processedMessages r + list_sum (map (processed_of tokenizer) messages);
          insertedChains :=
            snd (replay run (flat_map (upserts_of tokenizer) messages)
                        (store, insertedChains r)) |}).
Proof.
  induction messages as [|msg messages IH]; intros store r.
  - simpl. destruct r as [p i]; simpl. rewrite Nat.add_0_r. reflexivity.
  - cbn [fold_left flat_map map list_sum].
    rewrite process_message_replay, IH, replay_app.
    cbn [processedMessages insertedChains].
    destruct (replay run (upserts_of tokenizer msg) (store, insertedChains r))
      as [s1 i1]; simpl.
    rewrite Nat.add_assoc. reflexivity.
Qed.

End Records.

(** ** Replaying against the table *)

Lemma replay_keeps (l : list triple) :
  forall (table : list triple) (n : nat) (u : triple),
    In u table -> In u (fst (replay insert_or_ignore l (table, n))).
Proof.
  induction l as [|[[p1 p2] s] l IH]; intros table n u H.
  - assumption.
  - rewrite replay_step. apply IH. apply insert_keeps; assumption.
Qed.

Lemma replay_stores (l : list triple) :
  forall (table : list triple) (n : nat) (t : triple),
    In t l -> In t (fst (replay insert_or_ignore l (table, n))).
Proof.
  induction l as [|[[p1 p2] s] l IH]; intros table n t H.
  - contradiction.
  - rewrite replay_step. destruct H as [<-|H].
    + apply replay_keeps. apply insert_stores.
    + apply IH; assumption.
Qed.

Lemma replay_absorbed (l : list triple) :
  forall (table : list triple) (n : nat),
    (forall t, In t l -> In t table) ->
    replay insert_or_ignore l (table, n) = (table, n).
Proof.
  induction l as [|[[p1 p2] s] l IH]; intros table n H.
  - reflexivity.
  - rewrite replay_step.
    rewrite insert_present by (apply H; left; reflexivity).
    simpl. apply IH. intros t Ht; apply H; right; assumption.
Qed.

Lemma spec_upserts_all (words : list jsstring) :
  forallb nonempty words = true ->
  spec_upserts words = windows words.
Proof.
  intros H. unfold spec_upserts.
  apply forallb_filter_id. apply forallb_forall. intros t Ht.
  unfold windows in Ht. apply in_map_iff in Ht. destruct Ht as [i [<- Hi]].
  apply in_seq in Hi. rewrite forallb_forall in H.
  unfold window, kept.
  rewrite !H; [reflexivity | | |]; apply nth_In; lia.
Qed.

Lemma windows_length (words : list jsstring) :
  length (windows words) = length words - 2.
Proof. unfold windows. rewrite length_map, length_seq. reflexivity. Qed.

Lemma insert_or_ignore_cases (p1 p2 s : jsstring) (table : list triple) :
  (In (p1, p2, s) table /\ insert_or_ignore p1 p2 s table = (table, 0))
  \/ (~ In (p1, p2, s) table
      /\ insert_or_ignore p1 p2 s table = (table ++ [(p1, p2, s)], 1)).
Proof.
  unfold insert_or_ignore.
  destruct (existsb (triple_eqb (p1, p2, s)) table) eqn:E.
  - left. split; [apply stored_iff; exact E | reflexivity].
  - right. split; [|reflexivity].
    intros H. apply stored_iff in H. congruence.
Qed.

(** Replaying upserts against the table appends the new triples, once
    each, and counts them. *)
Lemma replay_grows (l : list triple) :
  forall (table : list triple) (n : nat),
    exists added : list triple,
      replay insert_or_ignore l (table, n) = (table ++ added, n + length added)
      /\ (forall t, In t added -> In t l /\ ~ In t table)
      /\ NoDup added.
Proof.
  induction l as [|[[p1 p2] s] l IH]; intros table n.
  - exists []. rewrite app_nil_r, Nat.add_0_r. simpl.
    split; [reflexivity | split; [intros t [] | constructor]].
  - rewrite replay_step.
    destruct (insert_or_ignore_cases p1 p2 s table) as [[Hin ->]|[Hn ->]];
      cbn [fst snd Nat.ltb Nat.leb].
    + destruct (IH table n) as [added [R [A N]]].
      exists added. split; [exact R | split; [|exact N]].
      intros t Ht. destruct (A t Ht). split; [right|]; assumption.
    + destruct (IH (table ++ [(p1, p2, s)]) (S n)) as [added [R [A N]]].
      exists ((p1, p2, s) :: added). rewrite R, <- app_assoc. simpl.
      split; [f_equal; lia | split].
      * intros t [<-|Ht]; [split; [left; reflexivity | exact Hn]|].
        destruct (A t Ht) as [A1 A2]. split; [right; exact A1|].
        intros H. apply A2. apply in_or_app. left; exact H.
      * constructor; [|exact N].
        intros H. destruct (A _ H) as [_ A2]. apply A2.
        apply in_or_app. right. left. reflexivity.
Qed.

Lemma replay_membership (l : list triple) (table : list triple) (n : nat)
  (t : triple) :
  In t (fst (replay insert_or_ignore l (table, n))) <-> In t table \/ In t l.
Proof.
  split.
  - destruct (replay_grows l table n) as [added [-> [A _]]]. simpl.
    intros H. apply in_app_or in H. destruct H as [H|H]; [left; exact H|].
    right. apply A; exact H.
  - intros [H|H]; [apply replay_keeps | apply replay_stores]; exact H.
Qed.

Lemma ingest_replay (tokenizer : tokenizer_t) (messages : list message)
  (table : list triple) :
  ingest tokenizer messages table
  = (fst (replay insert_or_ignore (flat_map (upserts_of tokenizer) messages)
                 (table, 0)),
     {| processedMessages := list_sum (map (processed_of tokenizer) messages);
        insertedChains :=
          snd (replay insert_or_ignore
                      (flat_map (upserts_of tokenizer) messages) (table, 0)) |}).
Proof. unfold ingest, transaction. rewrite transaction_fold. reflexivity. Qed.

(** ** Ingestion *)

(** Replaying distinct upserts that the table does not hold appends them,
    in order, and counts each. *)
Lemma replay_appends (l : list triple) :
  forall (table : list triple) (n : nat),
    NoDup l ->
    (forall t, In t l -> ~ In t table) ->
    replay insert_or_ignore l (table, n) = (table ++ l, n + length l).
Proof.
  induction l as [|[[p1 p2] s] l IH]; intros table n ND Fresh.
  - simpl. rewrite app_nil_r, Nat.add_0_r. reflexivity.
  - rewrite replay_step.
    destruct (insert_or_ignore_cases p1 p2 s table) as [[Hin _]|[_ ->]].
    + exfalso. apply (Fresh (p1, p2, s)); [left; reflexivity | exact Hin].
    + cbn [fst snd Nat.ltb Nat.leb]. inversion ND as [|x l' Hx ND']; subst.
      rewrite IH.
      * rewrite <- app_assoc. simpl. f_equal. lia.
      * exact ND'.
      * intros t Ht Hin. apply in_app_or in Hin.
        destruct Hin as [Hin|[E|[]]].
        -- apply (Fresh t); [right; exact Ht | exact Hin].
        -- apply Hx. rewrite E. exact Ht.
Qed.

(** C1 (trigram completeness).  A record whose text is non-empty and
    tokenizes to [n >= 3] words makes exactly the upserts of the
    specification: for each index [i] from [0] to [n - 3], in order, the
    triple [(words[i], words[i+1], words[i+2])] when its three words are
    non-empty strings and nothing otherwise; whatever the statement does,
    the record's effect on the store is the replay of these upserts, and
    the record counts as processed.  When all the words are non-empty there
    are exactly [n - 2] upserts.  Against the chain store, the transaction
    on the record alone is the replay of [INSERT OR IGNORE] over these
    triples and reports one processed message; afterwards the table holds
    its former rows and these triples, and nothing else; when the triples
    are distinct and new to the table, they are appended to it in order
    and each is counted as inserted; and after any batch that contains the
    record the table holds each of these triples.
    A record with fewer than three tokens, or with an empty or undefined
    text, makes no upsert, and the transaction on it alone leaves the
    table as it is and reports nothing. *)
Theorem trigram_completeness (tokenizer : tokenizer_t) (msg : message) :
  (forall (text : jsstring) (tokens : list token),
      content msg = Some text -> text <> [] ->
      tokenizer_tokenize tokenizer text = Normal tokens ->
      3 <= length tokens ->
      let words := map surface_form tokens in
      upserts_of tokenizer msg = spec_upserts words
      /\ (forall (DB : Type) (run : jsstring -> jsstring -> jsstring -> DB -> DB * nat)
                 (store : DB) (r : report),
             process_message tokenizer run msg (store, r)
             = (fst (replay run (spec_upserts words) (store, insertedChains r)),
                {| processedMessages := S (processedMessages r);
                   insertedChains :=
                     snd (replay run (spec_upserts words) (store, insertedChains r)) |}))
      /\ (forallb nonempty words = true ->
          length (upserts_of tokenizer msg) = length words - 2)
      /\ (forall table : list triple,
             ingest tokenizer [msg] table
             = (fst (replay insert_or_ignore (spec_upserts words) (table, 0)),
                {| processedMessages := 1;
                   insertedChains :=
                     snd (replay insert_or_ignore (spec_upserts words) (table, 0)) |}))
      /\ (forall (table : list triple) (t : triple),
             In t (fst (ingest tokenizer [msg] table))
             <-> In t table
                 \/ exists i, i + 2 < length words
                              /\ t = window words i /\ kept t = true)
      /\ (forall table : list triple,
             NoDup (spec_upserts words) ->
             (forall t, In t (spec_upserts words) -> ~ In t table) ->
             ingest tokenizer [msg] table
             = (table ++ spec_upserts words,
                {| processedMessages := 1;
                   insertedChains := length (spec_upserts words) |}))
      /\ (forall (before after : list message) (table : list triple) (i : nat),
             i + 2 < length words ->
             kept (window words i) = true ->
             In (window words i)
                (fst (ingest tokenizer (before ++ msg :: after) table))))
  /\ (forall (text : jsstring) (tokens : list token),
         content msg = Some text ->
         tokenizer_tokenize tokenizer text = Normal tokens ->
         length tokens < 3 ->
         upserts_of tokenizer msg = []
         /\ forall table : list triple,
              ingest tokenizer [msg] table
              = (table, {| processedMessages := 0; insertedChains := 0 |}))
  /\ (content msg = None \/ content msg = Some [] ->
      upserts_of tokenizer msg = []
      /\ forall table : list triple,
           ingest tokenizer [msg] table
           = (table, {| processedMessages := 0; insertedChains := 0 |})).
Proof.
  assert (One : forall table : list triple,
             ingest tokenizer [msg] table
             = (fst (replay insert_or_ignore (upserts_of tokenizer msg) (table, 0)),
                {| processedMessages := processed_of tokenizer msg;
                   insertedChains :=
                     snd (replay insert_or_ignore (upserts_of tokenizer msg)
                                 (table, 0)) |})).
  { intros table. rewrite ingest_replay. unfold list_sum.
    cbn [flat_map map fold_right]. rewrite app_nil_r, Nat.add_0_r.
    reflexivity. }
  assert (W : forall (words : list jsstring) (t : triple),
             In t (spec_upserts words)
             <-> exists i, i + 2 < length words
                           /\ t = window words i /\ kept t = true).
  { intros words t. unfold spec_upserts, windows.
    rewrite filter_In, in_map_iff. split.
    - intros [[i [E Hi]] K]. apply in_seq in Hi. exists i.
      repeat split; [lia | symmetry; exact E | exact K].
    - intros [i [Hi [E K]]]. split; [|exact K].
      exists i. split; [symmetry; exact E | apply in_seq; lia]. }
  split; [|split].
  - intros text tokens Hc Ht Htok Hlen words.
    destruct (upserts_of_words tokenizer msg Hc Ht Htok Hlen) as [U P].
    fold words in U.
    split; [exact U|]. split; [|split; [|split; [|split; [|split]]]].
    + intros DB run store r. rewrite process_message_replay, U, P.
      rewrite Nat.add_1_r. reflexivity.
    + intros Hall. rewrite U, (spec_upserts_all words Hall). apply windows_length.
    + intros table. rewrite One, U, P. reflexivity.
    + intros table t. rewrite One, U. cbn [fst].
      rewrite replay_membership, W. reflexivity.
    + intros table ND Fresh. rewrite One, U, P.
      rewrite (replay_appends table 0 ND Fresh). reflexivity.
    + intros before after table i Hi K. rewrite ingest_replay. cbn [fst].
      apply replay_stores. apply in_flat_map. exists msg.
      split; [apply in_or_app; right; left; reflexivity|].
      rewrite U. apply W. exists i. repeat split; assumption.
  - intros text tokens Hc Htok Hlen.
    destruct (upserts_of_short tokenizer msg Hc Htok Hlen) as [U P].
    split; [exact U|]. intros table. rewrite One, U, P. reflexivity.
  - intros Hc. destruct (upserts_of_empty tokenizer msg Hc) as [U P].
    split; [exact U|]. intros table. rewrite One, U, P. reflexivity.
Qed.

(** The record "I like cats a lot", the record "a b" and the empty record
    under the tokenizer that splits at spaces: the first one stores its
    third window ("cats", "a", "lot") in a table that held another row,
    also when it comes second in a batch; the other two store nothing. *)
Lemma trigram_completeness_witness :
  (length (upserts_of whitespace_tokenizer
             {| content := Some (lit "I like cats a lot") |}) = 5 - 2
   /\ ingest whitespace_tokenizer
             [{| content := Some (lit "I like cats a lot") |}]
             [(lit "we", lit "like", lit "birds")]
      = ([(lit "we", lit "like", lit "birds");
          (lit "I", lit "like", lit "cats");
          (lit "like", lit "cats", lit "a");
          (lit "cats", lit "a", lit "lot")],
         {| processedMessages := 1; insertedChains := 3 |})
   /\ In (lit "cats", lit "a", lit "lot")
         (fst (ingest whitespace_tokenizer
                      ([{| content := Some (lit "a b") |}]
                         ++ {| content := Some (lit "I like cats a lot") |}
                         :: [{| content := None |}])
                      [(lit "we", lit "like", lit "birds")])))
  /\ (upserts_of whitespace_tokenizer {| content := Some (lit "a b") |} = []
      /\ ingest whitespace_tokenizer [{| content := Some (lit "a b") |}]
                [(lit "we", lit "like", lit "birds")]
         = ([(lit "we", lit "like", lit "birds")],
            {| processedMessages := 0; insertedChains := 0 |}))
  /\ (upserts_of whitespace_tokenizer {| content := Some [] |} = []
      /\ ingest whitespace_tokenizer [{| content := Some [] |}]
                [(lit "we", lit "like", lit "birds")]
         = ([(lit "we", lit "like", lit "birds")],
            {| processedMessages := 0; insertedChains := 0 |})).
Proof.
  assert (Long : lit "I like cats a lot" <> []) by discriminate.
  assert (Five : 3 <= length (map (fun s => {| surface_form := s |})
                                  (split_spaces (lit "I like cats a lot") [])))
    by (simpl; lia).
  assert (Two : length (map (fun s => {| surface_form := s |})
                            (split_spaces (lit "a b") [])) < 3)
    by (simpl; lia).
  split; [|split].
  - destruct (proj1 (trigram_completeness whitespace_tokenizer
                       {| content := Some (lit "I like cats a lot") |})
                    (lit "I like cats a lot")
                    (map (fun s => {| surface_form := s |})
                         (split_spaces (lit "I like cats a lot") []))
                    eq_refl Long eq_refl Five)
      as [_ [_ [N [_ [_ [R B]]]]]].
    split; [exact (N eq_refl) | split].
    + apply (R [(lit "we", lit "like", lit "birds")]).
      * repeat constructor; simpl; intuition discriminate.
      * intros t [<-|[<-|[<-|[]]]] [E|[]]; discriminate E.
    + apply (B [{| content := Some (lit "a b") |}] [{| content := None |}]
               [(lit "we", lit "like", lit "birds")] 2).
      * simpl; lia.
      * reflexivity.
  - destruct (proj1 (proj2 (trigram_completeness whitespace_tokenizer
                              {| content := Some (lit "a b") |}))
                    (lit "a b")
                    (map (fun s => {| surface_form := s |})
                         (split_spaces (lit "a b") []))
                    eq_refl eq_refl Two) as [U I].
    split; [exact U | apply I].
  - destruct (proj2 (proj2 (trigram_completeness whitespace_tokenizer
                              {| content := Some [] |}))
                    (or_intror eq_refl)) as [U I].
    split; [exact U | apply I].
Defined.

(** C2 (idempotent ingestion).  Upserting a stored triple leaves the table
    as it is and reports no change; running a batch again on the table it
    produced leaves that table as it is and reports [insertedChains = 0]
    (and the same [processedMessages]). *)
Theorem idempotent_ingestion (tokenizer : tokenizer_t) (messages : list message)
  (table : list triple) :
  (forall (p1 p2 s : jsstring) (stored : list triple),
      In (p1, p2, s) stored -> insert_or_ignore p1 p2 s stored = (stored, 0))
  /\ ingest tokenizer messages (fst (ingest tokenizer messages table))
     = (fst (ingest tokenizer messages table),
        {| processedMessages := processedMessages (snd (ingest tokenizer messages table));
           insertedChains := 0 |}).
Proof.
  split.
  - intros p1 p2 s stored H. apply insert_present; assumption.
  - unfold ingest, transaction. rewrite !transaction_fold.
    cbn [fst snd processedMessages insertedChains].
    rewrite replay_absorbed; [reflexivity|].
    intros t Ht. apply replay_stores; assumption.
Qed.

(** The batch of the specification's scenario, run twice from the empty
    table. *)
Lemma idempotent_ingestion_witness :
  insert_or_ignore (lit "I") (lit "like") (lit "cats")
                   [(lit "I", lit "like", lit "cats")]
  = ([(lit "I", lit "like", lit "cats")], 0)
  /\ insertedChains
       (snd (ingest whitespace_tokenizer
               [{| content := Some (lit "I like cats") |};
                {| content := Some (lit "I like dogs") |}]
               (fst (ingest whitespace_tokenizer
                       [{| content := Some (lit "I like cats") |};
                        {| content := Some (lit "I like dogs") |}] []))))
     = 0.
Proof.
  split.
  - apply (proj1 (idempotent_ingestion whitespace_tokenizer [] [])).
    left; reflexivity.
  - rewrite (proj2 (idempotent_ingestion whitespace_tokenizer
                      [{| content := Some (lit "I like cats") |};
                       {| content := Some (lit "I like dogs") |}] [])).
    reflexivity.
Defined.

(** ** Queries *)

Lemma select_suffixes_In (p1 p2 s : jsstring) (table : list triple) :
  In s (select_suffixes p1 p2 table) <-> In (p1, p2, s) table.
Proof.
  unfold select_suffixes. rewrite in_map_iff. split.
  - intros [[[a b] c] [<- H]]. apply filter_In in H. destruct H as [H E].
    simpl in E. apply andb_true_iff in E. destruct E as [E1 E2].
    apply jsstring_eqb_eq in E1, E2. subst. assumption.
  - intros H. exists (p1, p2, s). split; [reflexivity|].
    apply filter_In. split; [assumption|]. simpl. rewrite !jsstring_eqb_refl. reflexivity.
Qed.

Lemma select_nodes_In (a b : jsstring) (table : list triple) (nd : node) :
  In nd (select_nodes a b table)
  <-> exists s, In (fst nd, snd nd, s) table /\ (fst nd = a \/ snd nd = b).
Proof.
  unfold select_nodes. rewrite in_map_iff. split.
  - intros [[[p1 p2] s] [<- H]]. apply filter_In in H. destruct H as [H E].
    simpl in E. apply orb_true_iff in E. exists s. simpl. split; [assumption|].
    destruct E as [E|E]; apply jsstring_eqb_eq in E; [left | right]; assumption.
  - intros [s [H E]]. destruct nd as [p1 p2]. simpl in *.
    exists (p1, p2, s). split; [reflexivity|].
    apply filter_In. split; [assumption|]. simpl. apply orb_true_iff.
    destruct E as [E|E]; [left | right]; apply jsstring_eqb_eq; assumption.
Qed.

Lemma or_else_last (s : jsstring) : or_else (Some s) [] = s.
Proof. destruct s; reflexivity. Qed.

(** ** Running the primitives *)

Lemma dbAll_all {A} (query : list triple -> list A) (w : world) :
  dbAll (prepare_all query) w
  = (Normal (if available (db w) then query (rows (db w)) else []), w).
Proof.
  unfold dbAll, try_catch, prepare_all, ret.
  destruct (available (db w)); reflexivity.
Qed.

Lemma dbGet_random_start_empty (w : world) :
  available (db w) = false \/ rows (db w) = [] ->
  dbGet prepare_get_random_start w = (Normal None, w).
Proof.
  unfold dbGet, try_catch, prepare_get_random_start, ret.
  destruct (available (db w)); intros [H|H]; try discriminate; try reflexivity.
  rewrite H; reflexivity.
Qed.

Lemma dbGet_random_start_row (w : world) :
  available (db w) = true -> rows (db w) <> [] ->
  exists p1 p2 s,
    In (p1, p2, s) (rows (db w))
    /\ dbGet prepare_get_random_start w = (Normal (Some (p1, p2)), snd (next_draw w)).
Proof.
  intros Ha Hr. unfold dbGet, try_catch, prepare_get_random_start, ret.
  rewrite Ha. destruct (rows (db w)) as [|t table] eqn:E; [congruence|].
  cbn [next_draw fst snd].
  assert (L : entropy w 0 mod length (t :: table) < length (t :: table))
    by (apply Nat.mod_upper_bound; discriminate).
  unfold index. rewrite nth_error_map.
  destruct (nth_error (t :: table) (entropy w 0 mod length (t :: table)))
    as [[[p1 p2] s]|] eqn:N.
  - exists p1, p2, s. split; [|reflexivity].
    eapply nth_error_In; eassumption.
  - apply nth_error_None in N. lia.
Qed.

Lemma random_index_run (n : nat) (w : world) :
  random_index n w
  = (Normal (if n =? 0 then 0 else entropy w 0 mod n), snd (next_draw w)).
Proof. reflexivity. Qed.

Lemma next_draw_db (w : world) : db (snd (next_draw w)) = db w.
Proof. reflexivity. Qed.

Lemma random_index_pick {A} (arr : list A) (w : world) :
  arr <> [] ->
  exists i x,
    random_index (length arr) w = (Normal i, snd (next_draw w))
    /\ index arr i = Some x /\ In x arr.
Proof.
  intros H. rewrite random_index_run.
  destruct arr as [|a arr]; [congruence|].
  cbn [length Nat.eqb].
  assert (L : entropy w 0 mod S (length arr) < length (a :: arr))
    by (apply Nat.mod_upper_bound; discriminate).
  destruct (nth_error (a :: arr) (entropy w 0 mod S (length arr))) as [x|] eqn:N.
  - exists (entropy w 0 mod S (length arr)), x. repeat split; [exact N|].
    eapply nth_error_In; eassumption.
  - apply nth_error_None in N. lia.
Qed.

(** ** The walk *)

Lemma final_pair_last (tail : list jsstring) :
  forall p1 p2 : jsstring,
    exists front : list jsstring,
      p1 :: p2 :: tail
      = front ++ [fst (final_pair p1 p2 tail); snd (final_pair p1 p2 tail)].
Proof.
  induction tail as [|s tail IH]; intros p1 p2.
  - exists []; reflexivity.
  - destruct (IH p2 s) as [front E]. exists (p1 :: front).
    simpl. rewrite <- E. reflexivity.
Qed.

Lemma walk_run (todo : nat) :
  forall (p1 p2 : jsstring) (sentence : list jsstring) (w : world),
    available (db w) = true ->
    exists (tail : list jsstring) (w' : world),
      walk todo p1 p2 sentence w = (Normal (sentence ++ tail), w')
      /\ db w' = db w
      /\ chain (rows (db w)) p1 p2 tail
      /\ length tail <= todo
      /\ (length tail = todo
          \/ select_suffixes (fst (final_pair p1 p2 tail))
                             (snd (final_pair p1 p2 tail)) (rows (db w)) = []).
Proof.
  induction todo as [|todo IH]; intros p1 p2 sentence w Ha.
  - exists [], w. simpl. rewrite app_nil_r. unfold ret.
    repeat split; [constructor | lia | left; reflexivity].
  - cbn [walk]. unfold bind at 1. rewrite dbAll_all, Ha.
    destruct (select_suffixes p1 p2 (rows (db w))) as [|s0 suffixes] eqn:E.
    + exists [], w. simpl. rewrite app_nil_r. unfold ret.
      repeat split; [constructor | lia | right; exact E].
    + cbn [length Nat.eqb]. unfold bind at 1.
      destruct (@random_index_pick _ (s0 :: suffixes) w ltac:(discriminate))
        as [i [s [R [I Hin]]]].
      cbn [length] in R. rewrite R, I.
      destruct (IH p2 s (sentence ++ [s]) (snd (next_draw w)) Ha)
        as [tail [w' [W [D [C [L F]]]]]].
      exists (s :: tail), w'. rewrite W, <- app_assoc. simpl.
      repeat split.
      * exact D.
      * constructor; [|exact C]. rewrite <- E in Hin.
        apply select_suffixes_In in Hin. exact Hin.
      * lia.
      * destruct F as [F|F]; [left; lia | right; exact F].
Qed.

(** ** Unseeded generation *)

Lemma unseeded_insufficient (maxWords : Z) (w : world) :
  available (db w) = false \/ rows (db w) = [] ->
  generateMarkovSentence_generated maxWords w
  = (Normal (Message insufficient_data), w).
Proof.
  intros H. unfold generateMarkovSentence_generated, try_catch, bind.
  rewrite (dbGet_random_start_empty w H). reflexivity.
Qed.

Lemma unseeded_walks (maxWords : Z) (w : world) :
  available (db w) = true -> rows (db w) <> [] ->
  exists (p1 p2 s : jsstring) (tail : list jsstring) (w' : world),
    In (p1, p2, s) (rows (db w))
    /\ generateMarkovSentence_generated maxWords w
       = (Normal (Words (p1 :: p2 :: tail)), w')
    /\ db w' = db w
    /\ walked (rows (db w)) (iterations maxWords) (p1 :: p2 :: tail).
Proof.
  intros Ha Hr.
  destruct (dbGet_random_start_row w Ha Hr) as [p1 [p2 [s [Hin G]]]].
  destruct (walk_run (iterations maxWords) p1 p2 [p1; p2] (snd (next_draw w)) Ha)
    as [tail [w' [W [D [C [L F]]]]]].
  exists p1, p2, s, tail, w'. split; [exact Hin|]. split; [|split].
  - unfold generateMarkovSentence_generated, try_catch, bind.
    rewrite G, W. reflexivity.
  - exact D.
  - exists p1, p2, tail. repeat split; assumption.
Qed.

Lemma unseeded_outcome (maxWords : Z) (w : world) :
  exists (g : generated) (w' : world),
    generateMarkovSentence_generated maxWords w = (Normal g, w')
    /\ db w' = db w
    /\ (g = Message insufficient_data
        \/ exists sentence, g = Words sentence
                            /\ walked (rows (db w)) (iterations maxWords) sentence).
Proof.
  destruct (available (db w)) eqn:Ha.
  - destruct (rows (db w)) as [|t table] eqn:Hr.
    + exists (Message insufficient_data), w.
      rewrite unseeded_insufficient by (right; exact Hr). auto.
    + destruct (@unseeded_walks maxWords w Ha ltac:(rewrite Hr; discriminate))
        as [p1 [p2 [s [tail [w' [_ [G [D Wk]]]]]]]].
      exists (Words (p1 :: p2 :: tail)), w'. rewrite Hr in Wk.
      split; [exact G | split; [exact D | right; eauto]].
  - exists (Message insufficient_data), w.
    rewrite unseeded_insufficient by (left; exact Ha). auto.
Qed.

(** ** The search for entry nodes *)

Lemma slice_last_two {A} (words : list A) :
  2 <= length words ->
  exists (front : list A) (a b : A),
    words = front ++ [a; b] /\ slice_last 2 words = [a; b].
Proof.
  intros H. unfold slice_last.
  exists (firstn (length words - 2) words).
  assert (L : length (skipn (length words - 2) words) = 2)
    by (rewrite length_skipn; lia).
  destruct (skipn (length words - 2) words) as [|a [|b [|c l]]] eqn:E;
    try discriminate.
  exists a, b. split; [|reflexivity].
  rewrite <- E. symmetry. apply firstn_skipn.
Qed.

Lemma search_any_word_run (words : list jsstring) (w : world) :
  exists cands : list node,
    search_any_word words [] w = (Normal cands, w)
    /\ ((cands = []
         /\ forall word, In word words ->
              available (db w) = true ->
              findNodesContaining word (rows (db w)) = [])
        \/ (available (db w) = true
            /\ cands <> []
            /\ exists before word after,
                 words = before ++ word :: after
                 /\ (forall x, In x before ->
                       findNodesContaining x (rows (db w)) = [])
                 /\ cands = findNodesContaining word (rows (db w)))).
Proof.
  assert (G : forall start, start = [] ->
    exists cands : list node,
      search_any_word words start w = (Normal cands, w)
      /\ ((cands = []
           /\ forall word, In word words ->
                available (db w) = true ->
                findNodesContaining word (rows (db w)) = [])
          \/ (available (db w) = true
              /\ cands <> []
              /\ exists before word after,
                   words = before ++ word :: after
                   /\ (forall x, In x before ->
                         findNodesContaining x (rows (db w)) = [])
                   /\ cands = findNodesContaining word (rows (db w))))).
  { induction words as [|word words IH]; intros start ->.
    - exists []. split; [reflexivity|]. left. split; [reflexivity|].
      intros ? [].
    - cbn [search_any_word]. unfold bind at 1. rewrite dbAll_all.
      destruct (available (db w)) eqn:Ha.
      + fold (findNodesContaining word (rows (db w))).
        destruct (findNodesContaining word (rows (db w))) as [|nd found] eqn:E.
        * cbn [length Nat.ltb Nat.leb].
          destruct (IH [] eq_refl) as [cands [R [[-> N]|[_ [Hne [b [x [a [W [B C]]]]]]]]]].
          -- exists []. split; [exact R|]. left. split; [reflexivity|].
             intros x [<-|Hx] _; [exact E | apply N; [exact Hx | reflexivity]].
          -- exists cands. split; [exact R|]. right.
             split; [reflexivity | split; [exact Hne|]].
             exists (word :: b), x, a. split; [rewrite W; reflexivity|].
             split; [|exact C].
             intros y [<-|Hy]; [exact E | apply B; exact Hy].
        * exists (nd :: found). split; [reflexivity|]. right.
          split; [reflexivity | split; [discriminate|]].
          exists [], word, words. split; [reflexivity|].
          split; [intros ? [] | symmetry; exact E].
      + cbn [length Nat.ltb Nat.leb].
        destruct (IH [] eq_refl) as [cands [R [[-> N]|[Hb _]]]]; [|discriminate].
        exists []. split; [exact R|]. left. split; [reflexivity|].
        intros ? _ ?; discriminate. }
  apply G; reflexivity.
Qed.

Lemma find_startCandidates_run (front : list jsstring) (prefix1 prefix2 : jsstring)
  (w : world) :
  exists cands : list node,
    find_startCandidates (front ++ [prefix1; prefix2]) w = (Normal cands, w)
    /\ (cands <> [] -> available (db w) = true)
    /\ (available (db w) = true ->
        (select_nodes prefix1 prefix2 (rows (db w)) <> [] ->
         cands = select_nodes prefix1 prefix2 (rows (db w)))
        /\ (select_nodes prefix1 prefix2 (rows (db w)) = [] ->
            search_any_word (front ++ [prefix1; prefix2]) [] w = (Normal cands, w))).
Proof.
  unfold find_startCandidates.
  destruct (slice_last_two (front ++ [prefix1; prefix2])) as [f [a [b [E S]]]].
  { rewrite length_app; simpl; lia. }
  assert (E2 : front ++ [prefix1] = f ++ [a] /\ prefix2 = b).
  { replace (front ++ [prefix1; prefix2]) with ((front ++ [prefix1]) ++ [prefix2]) in E
      by (rewrite <- app_assoc; reflexivity).
    replace (f ++ [a; b]) with ((f ++ [a]) ++ [b]) in E
      by (rewrite <- app_assoc; reflexivity).
    apply app_inj_tail in E. exact E. }
  destruct E2 as [E3 <-]. apply app_inj_tail in E3. destruct E3 as [_ <-].
  rewrite S. cbn [index nth_error]. rewrite or_else_last.
  unfold bind at 1. rewrite dbAll_all.
  destruct (available (db w)) eqn:Ha.
  - destruct (select_nodes prefix1 prefix2 (rows (db w))) as [|nd cands] eqn:Q.
    + cbn [length Nat.eqb].
      destruct (search_any_word_run (front ++ [prefix1; prefix2]) w)
        as [cands [R _]].
      exists cands. split; [exact R|]. split; [reflexivity|].
      intros _. split; [congruence | intros _; exact R].
    + exists (nd :: cands). cbn [length Nat.eqb]. split; [reflexivity|].
      split; [reflexivity|]. intros _. split; [reflexivity | discriminate].
  - cbn [length Nat.eqb].
    destruct (search_any_word_run (front ++ [prefix1; prefix2]) w)
      as [cands [R [[-> _]|[Hb _]]]]; [|congruence].
    exists []. split; [exact R|]. split; [congruence | discriminate].
Qed.

(** ** Seeded generation *)

Lemma unseeded_caught (maxWords : Z) (handler : error -> M generated) (w : world) :
  try_catch (generateMarkovSentence_generated maxWords) handler w
  = generateMarkovSentence_generated maxWords w.
Proof.
  unfold try_catch at 1.
  destruct (unseeded_outcome maxWords w) as [g [w' [-> _]]]. reflexivity.
Qed.

Section SeededFacts.

Variable tokenizer : tokenizer_t.
Variable tk : jsstring -> completion (list token).
Hypothesis ready : tokenizer = Some tk.

Variables (inputMessage : jsstring) (maxWords : Z) (tokens : list token).
Hypothesis tokenized : tk inputMessage = Normal tokens.

Lemma seeded_too_short (w : world) :
  length tokens < 2 ->
  generateResponseFromMessage_generated tokenizer inputMessage maxWords w
  = generateMarkovSentence_generated maxWords w.
Proof.
  intros H. destruct (unseeded_outcome maxWords w) as [g [w' [G _]]].
  unfold generateResponseFromMessage_generated, try_catch.
  rewrite ready. unfold bind, lift. rewrite tokenized, length_map.
  destruct (Nat.ltb_spec (length tokens) 2); [|lia].
  rewrite G. reflexivity.
Qed.

Lemma seeded_no_candidates (w w1 : world) :
  2 <= length tokens ->
  find_startCandidates (map surface_form tokens) w = (Normal [], w1) ->
  generateResponseFromMessage_generated tokenizer inputMessage maxWords w
  = generateMarkovSentence_generated maxWords w1.
Proof.
  intros H F. destruct (unseeded_outcome maxWords w1) as [g [w' [G _]]].
  unfold generateResponseFromMessage_generated, try_catch.
  rewrite ready. unfold bind, lift. rewrite tokenized, length_map.
  destruct (Nat.ltb_spec (length tokens) 2); [lia|].
  rewrite F. cbn [length Nat.eqb]. rewrite G. reflexivity.
Qed.

Lemma seeded_walk (w w1 w2 w3 : world) (cands : list node) (i : nat)
  (prefix1 prefix2 : jsstring) (sentence : list jsstring) :
  2 <= length tokens ->
  find_startCandidates (map surface_form tokens) w = (Normal cands, w1) ->
  cands <> [] ->
  random_index (length cands) w1 = (Normal i, w2) ->
  index cands i = Some (prefix1, prefix2) ->
  walk (iterations maxWords) prefix1 prefix2 [prefix1; prefix2] w2
  = (Normal sentence, w3) ->
  generateResponseFromMessage_generated tokenizer inputMessage maxWords w
  = if length (join sentence) <? 10
    then generateMarkovSentence_generated maxWords w3
    else (Normal (Words sentence), w3).
Proof.
  intros H F Hne R I W.
  destruct (unseeded_outcome maxWords w3) as [g [w' [G _]]].
  unfold generateResponseFromMessage_generated, try_catch.
  rewrite ready. unfold bind, lift. rewrite tokenized, length_map.
  destruct (Nat.ltb_spec (length tokens) 2); [lia|].
  rewrite F.
  destruct cands as [|c cands]; [congruence|].
  cbn [length Nat.eqb] in *. rewrite R, I, W.
  destruct (length (join sentence) <? 10); [rewrite G|]; reflexivity.
Qed.

End SeededFacts.

Lemma seeded_outcome (tokenizer : tokenizer_t) (inputMessage : jsstring)
  (maxWords : Z) (w : world) :
  exists (g : generated) (w' : world),
    generateResponseFromMessage_generated tokenizer inputMessage maxWords w
    = (Normal g, w')
    /\ db w' = db w
    /\ (g = Message tokenizer_not_ready
        \/ g = Message error_generating_response
        \/ g = Message insufficient_data
        \/ exists sentence, g = Words sentence
                            /\ walked (rows (db w)) (iterations maxWords) sentence).
Proof.
  assert (U : forall w1, db w1 = db w ->
    exists (g : generated) (w' : world),
      generateMarkovSentence_generated maxWords w1 = (Normal g, w')
      /\ db w' = db w
      /\ (g = Message tokenizer_not_ready
          \/ g = Message error_generating_response
          \/ g = Message insufficient_data
          \/ exists sentence, g = Words sentence
                              /\ walked (rows (db w)) (iterations maxWords) sentence)).
  { intros w1 D. destruct (unseeded_outcome maxWords w1) as [g [w' [G [D' O]]]].
    exists g, w'. rewrite D in *. split; [exact G | split; [exact D'|]].
    destruct O as [O|O]; auto. }
  destruct tokenizer as [tk|].
  - destruct (tk inputMessage) as [tokens|e] eqn:K.
    + destruct (Nat.lt_ge_cases (length tokens) 2) as [H|H].
      * rewrite (@seeded_too_short _ _ eq_refl _ maxWords _ K w H).
        apply U; reflexivity.
      * destruct (@slice_last_two _ (map surface_form tokens)
                    ltac:(rewrite length_map; exact H)) as [front [a [b [E _]]]].
        destruct (find_startCandidates_run front a b w) as [cands [F [Av _]]].
        rewrite <- E in F. destruct cands as [|c cands].
        -- rewrite (@seeded_no_candidates _ _ eq_refl _ maxWords _ K _ _ H F).
           apply U; reflexivity.
        -- specialize (Av ltac:(discriminate)).
           destruct (@random_index_pick _ (c :: cands) w ltac:(discriminate))
             as [i [[p1 p2] [R [I _]]]].
           destruct (walk_run (iterations maxWords) p1 p2 [p1; p2]
                              (snd (next_draw w)) Av)
             as [tail [w3 [W [D [C [L Fp]]]]]].
           rewrite (@seeded_walk _ _ eq_refl _ maxWords _ K _ _ _ _ _ _ _ _ _ H F
                                 ltac:(discriminate) R I W).
           destruct (length (join ([p1; p2] ++ tail)) <? 10).
           ++ apply U. exact D.
           ++ exists (Words ([p1; p2] ++ tail)), w3.
              split; [reflexivity | split; [exact D|]].
              right; right; right. exists ([p1; p2] ++ tail).
              split; [reflexivity|]. exists p1, p2, tail.
              repeat split; assumption.
    + exists (Message error_generating_response), w.
      unfold generateResponseFromMessage_generated, try_catch, bind, lift.
      rewrite K. repeat split; auto.
  - exists (Message tokenizer_not_ready), w.
    repeat split; auto.
Qed.

Lemma walked_valid (table : list triple) (todo : nat) (sentence : list jsstring) :
  walked table todo sentence -> valid_walk table sentence.
Proof. intros [p1 [p2 [tail [-> [C _]]]]]. exact C. Qed.

Lemma walked_bounded (table : list triple) (todo : nat) (sentence : list jsstring) :
  walked table todo sentence ->
  length sentence <= todo + 2
  /\ (length sentence = todo + 2 \/ dead_end table sentence).
Proof.
  intros [p1 [p2 [tail [-> [_ [L F]]]]]]. simpl. split; [lia|].
  destruct F as [F|F]; [left; lia | right].
  destruct (final_pair_last tail p1 p2) as [front E].
  exists front, (fst (final_pair p1 p2 tail)), (snd (final_pair p1 p2 tail)).
  split; assumption.
Qed.

(** ** Generation *)

(** C3 (walk validity).  Whenever either generator hands back a word
    sequence, it is a start pair followed by a chain over the store the
    call ran against: each later word [w] was appended while
    [(prefix1, prefix2, w)] was a stored triple for the current pair, and
    the pair then advanced to [(prefix2, w)]. *)
Theorem walk_validity (tokenizer : tokenizer_t) (inputMessage : jsstring)
  (maxWords : Z) (w : world) :
  (forall (sentence : list jsstring) (w' : world),
      generateMarkovSentence_generated maxWords w = (Normal (Words sentence), w') ->
      valid_walk (rows (db w)) sentence)
  /\ (forall (sentence : list jsstring) (w' : world),
         generateResponseFromMessage_generated tokenizer inputMessage maxWords w
         = (Normal (Words sentence), w') ->
         valid_walk (rows (db w)) sentence).
Proof.
  split; intros sentence w' G.
  - destruct (unseeded_outcome maxWords w) as [g [w1 [G1 [_ O]]]].
    rewrite G in G1. injection G1 as <- <-.
    destruct O as [O|[s [E Wk]]]; [discriminate|].
    injection E as ->. eapply walked_valid; eassumption.
  - destruct (seeded_outcome tokenizer inputMessage maxWords w)
      as [g [w1 [G1 [_ O]]]].
    rewrite G in G1. injection G1 as <- <-.
    destruct O as [O|[O|[O|[s [E Wk]]]]]; try discriminate.
    injection E as ->. eapply walked_valid; eassumption.
Qed.

(** Both generators on the store of "I like birds very much". *)
Lemma walk_validity_witness :
  valid_walk birds_table
    [lit "I"; lit "like"; lit "birds"; lit "very"; lit "much"]
  /\ valid_walk birds_table [lit "I"; lit "like"; lit "birds"; lit "very"].
Proof.
  split.
  - exact (proj1 (walk_validity whitespace_tokenizer (lit "I like") 5
                    (world_of birds_table)) _ _ eq_refl).
  - exact (proj2 (walk_validity whitespace_tokenizer (lit "I like") 2
                    (world_of birds_table)) _ _ eq_refl).
Defined.

(** C4 as stated fails for a negative [maxWords]: the loop makes no step
    and the two words of the start pair are still returned, which is more
    than [maxWords + 2]. *)
Lemma bounded_length_counterexample :
  fst (generateMarkovSentence_generated (-1) (world_of birds_table))
  = Normal (Words [lit "I"; lit "like"])
  /\ ~ (Z.of_nat (length [lit "I"; lit "like"]) <= -1 + 2)%Z.
Proof. split; [reflexivity | simpl; lia]. Qed.

(** C4, amended (bounded length).  A word sequence handed back by either
    generator has at most [max(maxWords, 0) + 2] words, hence at most
    [maxWords + 2] when [maxWords >= 0]; and it has exactly that many, the
    walk having made all its steps, or its last two words have no stored
    continuation. *)
Theorem bounded_length (tokenizer : tokenizer_t) (inputMessage : jsstring)
  (maxWords : Z) (w : world) :
  (forall (sentence : list jsstring) (w' : world),
      generateMarkovSentence_generated maxWords w = (Normal (Words sentence), w') ->
      (Z.of_nat (length sentence) <= Z.max maxWords 0 + 2)%Z
      /\ ((Z.of_nat (length sentence) = Z.max maxWords 0 + 2)%Z
          \/ dead_end (rows (db w)) sentence))
  /\ (forall (sentence : list jsstring) (w' : world),
         generateResponseFromMessage_generated tokenizer inputMessage maxWords w
         = (Normal (Words sentence), w') ->
         (Z.of_nat (length sentence) <= Z.max maxWords 0 + 2)%Z
         /\ ((Z.of_nat (length sentence) = Z.max maxWords 0 + 2)%Z
             \/ dead_end (rows (db w)) sentence)).
Proof.
  assert (B : forall sentence,
             walked (rows (db w)) (iterations maxWords) sentence ->
             (Z.of_nat (length sentence) <= Z.max maxWords 0 + 2)%Z
             /\ ((Z.of_nat (length sentence) = Z.max maxWords 0 + 2)%Z
                 \/ dead_end (rows (db w)) sentence)).
  { intros sentence Wk. destruct (walked_bounded Wk) as [L F].
    unfold iterations in *. split; [lia|].
    destruct F as [F|F]; [left; lia | right; exact F]. }
  split; intros sentence w' G.
  - destruct (unseeded_outcome maxWords w) as [g [w1 [G1 [_ O]]]].
    rewrite G in G1. injection G1 as <- <-.
    destruct O as [O|[s [E Wk]]]; [discriminate|].
    injection E as ->. apply B; assumption.
  - destruct (seeded_outcome tokenizer inputMessage maxWords w)
      as [g [w1 [G1 [_ O]]]].
    rewrite G in G1. injection G1 as <- <-.
    destruct O as [O|[O|[O|[s [E Wk]]]]]; try discriminate.
    injection E as ->. apply B; assumption.
Qed.

(** Two steps and then a dead end on the store of "I like birds very
    much". *)
Lemma bounded_length_witness :
  (Z.of_nat (length [lit "I"; lit "like"; lit "birds"; lit "very"])
   <= Z.max 2 0 + 2)%Z
  /\ (Z.of_nat (length [lit "I"; lit "like"; lit "birds"; lit "very"; lit "much"])
      <= Z.max 5 0 + 2)%Z.
Proof.
  split.
  - exact (proj1 (proj1 (bounded_length whitespace_tokenizer (lit "I like") 2
                           (world_of birds_table)) _ _ eq_refl)).
  - exact (proj1 (proj2 (bounded_length whitespace_tokenizer (lit "I like") 5
                           (world_of birds_table)) _ _ eq_refl)).
Defined.

(** C5 as stated fails: for the input words "a", "b" the stored pair
    [("x", "a")] contains the word "a", so [findNodesContaining("a")]
    returns it, but the search on the last two words does not. *)
Lemma seeded_candidates_counterexample :
  fst (find_startCandidates [lit "a"; lit "b"] (world_of entry_table))
  = Normal [(lit "a", lit "q")]
  /\ In (lit "x", lit "a") (findNodesContaining (lit "a") entry_table)
  /\ ~ In (lit "x", lit "a") [(lit "a", lit "q")].
Proof.
  split; [reflexivity | split].
  - right; left; reflexivity.
  - intros [H|[]]. discriminate H.
Qed.

(** C5, amended (seeded entry-node search).  With [prefix1] and [prefix2]
    the last two words of the input and a healthy store, the first search
    returns the stored pairs [(p1, p2)] with [p1 = prefix1] or
    [p2 = prefix2], each word being matched in its own position.  When
    that search finds a pair, its result is the candidate list.  Only
    when it finds none are the words of the input tried in order with
    [findNodesContaining], which returns the stored pairs of which either
    component equals the word; the first non-empty result is the
    candidate list, and the list is empty when no word finds a pair. *)
Theorem seeded_entry_candidates (front : list jsstring)
  (prefix1 prefix2 : jsstring) (w : world) :
  available (db w) = true ->
  let words := front ++ [prefix1; prefix2] in
  let table := rows (db w) in
  (forall nd : node,
      In nd (select_nodes prefix1 prefix2 table)
      <-> exists s, In (fst nd, snd nd, s) table
                    /\ (fst nd = prefix1 \/ snd nd = prefix2))
  /\ (forall (word : jsstring) (nd : node),
         In nd (findNodesContaining word table)
         <-> exists s, In (fst nd, snd nd, s) table
                       /\ (fst nd = word \/ snd nd = word))
  /\ exists cands : list node,
       find_startCandidates words w = (Normal cands, w)
       /\ (select_nodes prefix1 prefix2 table <> [] ->
           cands = select_nodes prefix1 prefix2 table)
       /\ (select_nodes prefix1 prefix2 table = [] ->
           (cands = []
            /\ forall word, In word words -> findNodesContaining word table = [])
           \/ (cands <> []
               /\ exists before word after,
                    words = before ++ word :: after
                    /\ (forall x, In x before -> findNodesContaining x table = [])
                    /\ cands = findNodesContaining word table)).
Proof.
  intros Ha words table. split; [|split].
  - intros nd. apply select_nodes_In.
  - intros word nd. apply select_nodes_In.
  - destruct (find_startCandidates_run front prefix1 prefix2 w)
      as [cands [F [_ D]]].
    destruct (D Ha) as [D1 D2]. exists cands.
    split; [exact F | split; [exact D1|]].
    intros Q. specialize (D2 Q).
    destruct (search_any_word_run words w) as [c' [R O]].
    unfold words in R. rewrite D2 in R. injection R as <-.
    destruct O as [[-> N]|[_ [Hne X]]].
    + left. split; [reflexivity|]. intros word Hw. apply N; assumption.
    + right. split; assumption.
Qed.

(** The input words "a", "b" against the rows [("a","q","r")] and
    [("x","a","y")]. *)
Lemma seeded_entry_candidates_witness :
  exists cands : list node,
    find_startCandidates ([] ++ [lit "a"; lit "b"]) (world_of entry_table)
    = (Normal cands, world_of entry_table)
    /\ (select_nodes (lit "a") (lit "b") entry_table <> [] ->
        cands = select_nodes (lit "a") (lit "b") entry_table).
Proof.
  destruct (proj2 (proj2 (@seeded_entry_candidates [] (lit "a") (lit "b")
                            (world_of entry_table) eq_refl)))
    as [cands [F [S _]]].
  exists cands. split; assumption.
Defined.

Lemma rendered_same (tokenizer : tokenizer_t) (inputMessage : jsstring)
  (maxWords : Z) (w w1 : world) :
  generateResponseFromMessage_generated tokenizer inputMessage maxWords w
  = generateMarkovSentence_generated maxWords w1 ->
  generateResponseFromMessage tokenizer inputMessage maxWords w
  = generateMarkovSentence maxWords w1.
Proof.
  intros E. unfold generateResponseFromMessage, generateMarkovSentence, bind.
  rewrite E. reflexivity.
Qed.

Lemma no_entry_node (front : list jsstring) (prefix1 prefix2 : jsstring) (w : world) :
  (forall word, In word (front ++ [prefix1; prefix2]) ->
     findNodesContaining word (rows (db w)) = []) ->
  find_startCandidates (front ++ [prefix1; prefix2]) w = (Normal [], w).
Proof.
  intros N.
  destruct (find_startCandidates_run front prefix1 prefix2 w) as [cands [F [Av D]]].
  destruct cands as [|c cands]; [exact F|]. exfalso.
  specialize (Av ltac:(discriminate)). destruct (D Av) as [D1 D2].
  assert (P1 : findNodesContaining prefix1 (rows (db w)) = [])
    by (apply N, in_or_app; right; left; reflexivity).
  assert (P2 : findNodesContaining prefix2 (rows (db w)) = [])
    by (apply N, in_or_app; right; right; left; reflexivity).
  destruct (select_nodes prefix1 prefix2 (rows (db w))) as [|nd l] eqn:Q.
  - specialize (D2 eq_refl).
    destruct (search_any_word_run (front ++ [prefix1; prefix2]) w)
      as [c' [R O]].
    rewrite D2 in R. injection R as <-.
    destruct O as [[O _]|[_ [_ [b [x [a [Wd [_ C]]]]]]]]; [discriminate|].
    rewrite N in C; [discriminate|].
    rewrite Wd. apply in_or_app; right; left; reflexivity.
  - assert (I : In nd (select_nodes prefix1 prefix2 (rows (db w))))
      by (rewrite Q; left; reflexivity).
    apply select_nodes_In in I. destruct I as [s [I [E|E]]].
    + assert (I' : In nd (findNodesContaining prefix1 (rows (db w)))).
      { apply select_nodes_In. exists s. split; [exact I | left; exact E]. }
      rewrite P1 in I'. exact I'.
    + assert (I' : In nd (findNodesContaining prefix2 (rows (db w)))).
      { apply select_nodes_In. exists s. split; [exact I | right; exact E]. }
      rewrite P2 in I'. exact I'.
Qed.

(** C6 (seeded-to-unseeded fallback).  With a ready tokenizer that
    tokenizes the input, [generateResponseFromMessage] returns what
    [generateMarkovSentence] returns (a) when there are fewer than two
    tokens, (b) when no stored pair contains any word of the input, so that
    neither the search on the last two words nor the search on each word
    finds an entry node, and (c) when a seeded walk has run and its joined
    sentence has fewer than 10 characters: the sentence is dropped and the
    unseeded generator runs from the world the walk left. *)
Theorem seeded_fallback (tokenizer : tokenizer_t)
  (tk : jsstring -> completion (list token)) (inputMessage : jsstring)
  (maxWords : Z) (tokens : list token) (w : world) :
  tokenizer = Some tk ->
  tk inputMessage = Normal tokens ->
  let words := map surface_form tokens in
  (length tokens < 2 ->
   generateResponseFromMessage tokenizer inputMessage maxWords w
   = generateMarkovSentence maxWords w)
  /\ ((forall word, In word words ->
         findNodesContaining word (rows (db w)) = []) ->
      generateResponseFromMessage tokenizer inputMessage maxWords w
      = generateMarkovSentence maxWords w)
  /\ (forall (cands : list node) (i : nat) (prefix1 prefix2 : jsstring)
             (sentence : list jsstring) (w1 w2 w3 : world),
         2 <= length tokens ->
         find_startCandidates words w = (Normal cands, w1) ->
         cands <> [] ->
         random_index (length cands) w1 = (Normal i, w2) ->
         index cands i = Some (prefix1, prefix2) ->
         walk (iterations maxWords) prefix1 prefix2 [prefix1; prefix2] w2
         = (Normal sentence, w3) ->
         length (join sentence) < 10 ->
         generateResponseFromMessage tokenizer inputMessage maxWords w
         = generateMarkovSentence maxWords w3).
Proof.
  intros T K words. split; [|split].
  - intros H. apply rendered_same.
    exact (@seeded_too_short _ _ T _ maxWords _ K w H).
  - intros N. apply rendered_same.
    destruct (Nat.lt_ge_cases (length tokens) 2) as [H|H].
    + exact (@seeded_too_short _ _ T _ maxWords _ K w H).
    + destruct (@slice_last_two _ words ltac:(unfold words; rewrite length_map; exact H))
        as [front [a [b [E _]]]].
      apply (@seeded_no_candidates _ _ T _ maxWords _ K w w H).
      fold words. rewrite E. apply no_entry_node. rewrite <- E. exact N.
  - intros cands i prefix1 prefix2 sentence w1 w2 w3 H F Hne R I W L.
    apply rendered_same.
    rewrite (@seeded_walk _ _ T _ maxWords _ K _ _ _ _ _ _ _ _ _ H F Hne R I W).
    destruct (Nat.ltb_spec (length (join sentence)) 10); [reflexivity | lia].
Qed.

(** On the store of "I like birds very much": the input "hello" has one
    token, no stored pair contains a word of "no such words", and the
    input "I like" with [maxWords = 0] walks to "Ilike", of 5 characters. *)
Lemma seeded_fallback_witness :
  generateResponseFromMessage whitespace_tokenizer (lit "hello") 5
                              (world_of birds_table)
  = generateMarkovSentence 5 (world_of birds_table)
  /\ generateResponseFromMessage whitespace_tokenizer (lit "no such words") 5
                                 (world_of birds_table)
     = generateMarkovSentence 5 (world_of birds_table)
  /\ generateResponseFromMessage whitespace_tokenizer (lit "I like") 0
                                 (world_of birds_table)
     = generateMarkovSentence 0 (snd (next_draw (world_of birds_table))).
Proof.
  split; [|split].
  - refine (proj1 (@seeded_fallback whitespace_tokenizer _ (lit "hello") 5 _
                     (world_of birds_table) eq_refl eq_refl) _).
    simpl; lia.
  - refine (proj1 (proj2 (@seeded_fallback whitespace_tokenizer _
                            (lit "no such words") 5 _
                            (world_of birds_table) eq_refl eq_refl)) _).
    intros word [<-|[<-|[<-|[]]]]; reflexivity.
  - refine (proj2 (proj2 (@seeded_fallback whitespace_tokenizer _ (lit "I like") 0 _
                            (world_of birds_table) eq_refl eq_refl))
                  [(lit "I", lit "like")] 0 (lit "I") (lit "like")
                  [lit "I"; lit "like"]
                  (world_of birds_table) (snd (next_draw (world_of birds_table)))
                  (snd (next_draw (world_of birds_table)))
                  _ eq_refl _ eq_refl eq_refl eq_refl _).
    + simpl; lia.
    + discriminate.
    + simpl; lia.
Defined.

(** C7 (empty store).  On a store without rows [generateMarkovSentence]
    completes normally with the insufficient-data message, and leaves the
    world, the store included, as it found it. *)
Theorem empty_store (maxWords : Z) (w : world) :
  rows (db w) = [] ->
  generateMarkovSentence maxWords w = (Normal insufficient_data, w).
Proof.
  intros H. unfold generateMarkovSentence, bind.
  rewrite unseeded_insufficient by (right; exact H). reflexivity.
Qed.

Lemma empty_store_witness :
  generateMarkovSentence 50 (world_of []) = (Normal insufficient_data, world_of []).
Proof. apply empty_store. reflexivity. Defined.

(** C8 (generation totality).  In every world and for every input both
    generators complete normally, never with a throw, and leave the store
    as it was.  What they hand back is a word sequence or one of the fixed
    messages: insufficient data, tokenizer not ready, error while
    generating.  A tokenizer that throws is caught and answered with the
    error message. *)
Theorem generation_total (tokenizer : tokenizer_t) (inputMessage : jsstring)
  (maxWords : Z) (w : world) :
  (exists (g : generated) (w' : world),
      generateMarkovSentence maxWords w = (Normal (render g), w')
      /\ generateMarkovSentence_generated maxWords w = (Normal g, w')
      /\ db w' = db w
      /\ (g = Message insufficient_data
          \/ g = Message error_generating_sentence
          \/ exists sentence, g = Words sentence))
  /\ (exists (g : generated) (w' : world),
         generateResponseFromMessage tokenizer inputMessage maxWords w
         = (Normal (render g), w')
         /\ generateResponseFromMessage_generated tokenizer inputMessage maxWords w
            = (Normal g, w')
         /\ db w' = db w
         /\ (g = Message insufficient_data
             \/ g = Message error_generating_sentence
             \/ g = Message tokenizer_not_ready
             \/ g = Message error_generating_response
             \/ exists sentence, g = Words sentence))
  /\ (forall (tk : jsstring -> completion (list token)) (e : error),
         tokenizer = Some tk ->
         tk inputMessage = Throw e ->
         generateResponseFromMessage tokenizer inputMessage maxWords w
         = (Normal error_generating_response, w)).
Proof.
  split; [|split].
  - destruct (unseeded_outcome maxWords w) as [g [w' [G [D O]]]].
    exists g, w'. split; [|split; [exact G | split; [exact D|]]].
    + unfold generateMarkovSentence, bind. rewrite G. reflexivity.
    + destruct O as [O|[s [O _]]]; eauto.
  - destruct (seeded_outcome tokenizer inputMessage maxWords w)
      as [g [w' [G [D O]]]].
    exists g, w'. split; [|split; [exact G | split; [exact D|]]].
    + unfold generateResponseFromMessage, bind. rewrite G. reflexivity.
    + destruct O as [O|[O|[O|[s [O _]]]]]; eauto 6.
  - intros tk e T K.
    unfold generateResponseFromMessage, generateResponseFromMessage_generated,
      try_catch, bind, lift.
    rewrite T, K. reflexivity.
Qed.

(** A tokenizer that throws on every text. *)
Lemma generation_total_witness :
  generateResponseFromMessage (Some (fun _ => Throw TokenizerError))
                              (lit "I like") 50 (world_of birds_table)
  = (Normal error_generating_response, world_of birds_table).
Proof.
  exact (proj2 (proj2 (generation_total (Some (fun _ => Throw TokenizerError))
                         (lit "I like") 50 (world_of birds_table)))
               _ TokenizerError eq_refl eq_refl).
Defined.

(** C9 fails on the code: [handleStatsCommand] counts distinct
    concatenations [prefix1 || prefix2].  The rows [("ab","c","x")] and
    [("a","bc","y")], which ingestion produces from the records "ab c x"
    and "a bc y", hold two distinct pairs and are reported as one. *)
Theorem stats_counts_concatenations :
  fst (ingest whitespace_tokenizer
         [{| content := Some (lit "ab c x") |};
          {| content := Some (lit "a bc y") |}] [])
  = abc_table
  /\ fst (handleStatsCommand (world_of abc_table))
     = Normal {| totalChains := 2; uniquePrefixes := 1 |}
  /\ length (distinct_nodes abc_table) = 2.
Proof. repeat split. Qed.



(** * Further properties of the engine *)

(** ** The table under ingestion *)

(** What the upserts of one record are, in terms of its words. *)
Lemma upserts_of_In (tokenizer : tokenizer_t) (msg : message) (t : triple) :
  In t (upserts_of tokenizer msg)
  <-> exists (text : jsstring) (tokens : list token) (i : nat),
        content msg = Some text
        /\ text <> []
        /\ tokenizer_tokenize tokenizer text = Normal tokens
        /\ i + 2 < length tokens
        /\ t = window (map surface_form tokens) i
        /\ kept t = true.
Proof.
  assert (W : forall tokens : list token,
             In t (spec_upserts (map surface_form tokens))
             <-> exists i, i + 2 < length tokens
                           /\ t = window (map surface_form tokens) i
                           /\ kept t = true).
  { intros tokens. unfold spec_upserts, windows.
    rewrite filter_In, in_map_iff, length_map. split.
    - intros [[i [E Hi]] K]. apply in_seq in Hi. exists i.
      repeat split; [lia | symmetry; exact E | exact K].
    - intros [i [Hi [E K]]]. split; [|exact K].
      exists i. split; [symmetry; exact E | apply in_seq; lia]. }
  destruct (content msg) as [text|] eqn:Hc.
  - destruct text as [|c text].
    + rewrite (proj1 (upserts_of_empty tokenizer msg (or_intror Hc))).
      split; [contradiction|].
      intros [text [tokens [i [E [Hne _]]]]]. congruence.
    + destruct (tokenizer_tokenize tokenizer (c :: text)) as [tokens|e] eqn:Htok.
      * destruct (Nat.lt_ge_cases (length tokens) 3) as [H|H].
        -- rewrite (proj1 (upserts_of_short tokenizer msg Hc Htok H)).
           split; [contradiction|].
           intros [text' [tokens' [i [E [_ [Htok' [Hi _]]]]]]].
           injection E as <-. rewrite Htok in Htok'. injection Htok' as <-. lia.
        -- rewrite (proj1 (@upserts_of_words tokenizer msg (c :: text) tokens Hc
                             ltac:(discriminate) Htok H)).
           rewrite W. split.
           ++ intros [i [Hi [E K]]]. exists (c :: text), tokens, i.
              repeat split; try assumption; discriminate.
           ++ intros [text' [tokens' [i [E [_ [Htok' [Hi [Et K]]]]]]]].
              injection E as <-. rewrite Htok in Htok'. injection Htok' as <-.
              exists i. repeat split; assumption.
      * rewrite (proj1 (upserts_of_throw tokenizer msg Hc Htok)).
        split; [contradiction|].
        intros [text' [tokens' [i [E [_ [Htok' _]]]]]].
        injection E as <-. congruence.
  - rewrite (proj1 (upserts_of_empty tokenizer msg (or_introl Hc))).
    split; [contradiction|].
    intros [text [tokens [i [E _]]]]. discriminate.
Qed.

Lemma replay_from (l : list triple) (table : list triple) (n : nat) :
  replay insert_or_ignore l (table, n)
  = (fst (replay insert_or_ignore l (table, 0)),
     n + snd (replay insert_or_ignore l (table, 0))).
Proof.
  destruct (replay_grows l table n) as [a1 [R1 [A1 _]]].
  destruct (replay_grows l table 0) as [a0 [R0 _]].
  rewrite R1, R0. simpl.
  assert (E : table ++ a1 = table ++ a0).
  { pose proof (f_equal fst R1) as F1. pose proof (f_equal fst R0) as F0.
    simpl in F1, F0. rewrite <- F1, <- F0.
    clear. revert table n. induction l as [|[[p1 p2] s] l IH]; intros table n.
    - reflexivity.
    - rewrite !replay_step. destruct (insert_or_ignore p1 p2 s table) as [t' c].
      simpl. rewrite (IH t' (if 0 <? c then S n else n)).
      rewrite (IH t' (if 0 <? c then 1 else 0)). reflexivity. }
  apply app_inv_head in E. subst. reflexivity.
Qed.

(** X1: membership.  After a batch the table holds exactly its former rows
    and, for every record with a non-empty text that the tokenizer splits
    into words, every window of three consecutive non-empty words. *)
Theorem ingest_rows (tokenizer : tokenizer_t) (messages : list message)
  (table : list triple) (t : triple) :
  In t (fst (ingest tokenizer messages table))
  <-> In t table
      \/ exists (msg : message) (text : jsstring) (tokens : list token) (i : nat),
           In msg messages
           /\ content msg = Some text
           /\ text <> []
           /\ tokenizer_tokenize tokenizer text = Normal tokens
           /\ i + 2 < length tokens
           /\ t = window (map surface_form tokens) i
           /\ kept t = true.
Proof.
  rewrite ingest_replay. cbn [fst]. rewrite replay_membership, in_flat_map.
  split; (intros [H|H]; [left; exact H | right]).
  - destruct H as [msg [Hm Hu]]. apply upserts_of_In in Hu.
    destruct Hu as [text [tokens [i Hu]]]. exists msg, text, tokens, i.
    split; [exact Hm | exact Hu].
  - destruct H as [msg [text [tokens [i [Hm Hu]]]]]. exists msg.
    split; [exact Hm|]. apply upserts_of_In. exists text, tokens, i. exact Hu.
Qed.

(** X2: uniqueness.  A table without duplicate rows stays without duplicate
    rows under any batch: the [UNIQUE] constraint is never violated. *)
Theorem ingest_keeps_unique (tokenizer : tokenizer_t) (messages : list message)
  (table : list triple) :
  NoDup table -> NoDup (fst (ingest tokenizer messages table)).
Proof.
  intros ND. rewrite ingest_replay. cbn [fst].
  destruct (replay_grows (flat_map (upserts_of tokenizer) messages) table 0)
    as [added [-> [A N]]].
  simpl. apply NoDup_app; [exact ND | exact N |].
  intros t Ht Ha. destruct (A t Ha) as [_ A2]. exact (A2 Ht).
Qed.

Lemma ingest_keeps_unique_witness :
  NoDup (fst (ingest whitespace_tokenizer
                [{| content := Some (lit "I like cats") |};
                 {| content := Some (lit "I like cats") |}] birds_table)).
Proof.
  apply ingest_keeps_unique.
  repeat constructor; simpl; intuition discriminate.
Defined.

Lemma processed_of_bound (tokenizer : tokenizer_t) (msg : message) :
  processed_of tokenizer msg <= 1.
Proof.
  destruct (content msg) as [text|] eqn:Hc.
  - destruct text as [|c text].
    + rewrite (proj2 (upserts_of_empty tokenizer msg (or_intror Hc))). lia.
    + destruct (tokenizer_tokenize tokenizer (c :: text)) as [tokens|e] eqn:Htok.
      * destruct (Nat.lt_ge_cases (length tokens) 3) as [H|H].
        -- rewrite (proj2 (upserts_of_short tokenizer msg Hc Htok H)). lia.
        -- rewrite (proj2 (@upserts_of_words tokenizer msg (c :: text) tokens Hc
                             ltac:(discriminate) Htok H)). lia.
      * rewrite (proj2 (upserts_of_throw tokenizer msg Hc Htok)). lia.
  - rewrite (proj2 (upserts_of_empty tokenizer msg (or_introl Hc))). lia.
Qed.

Lemma processed_sum_bound (tokenizer : tokenizer_t) (messages : list message) :
  list_sum (map (processed_of tokenizer) messages) <= length messages.
Proof.
  induction messages as [|msg messages IH]; [simpl; lia|].
  pose proof (processed_of_bound tokenizer msg).
  change (processed_of tokenizer msg
          + list_sum (map (processed_of tokenizer) messages)
          <= S (length messages)).
  lia.
Qed.

(** X3: the report is the growth.  A batch never removes or reorders rows:
    the new table is the old one followed by the added rows, none of which
    was stored before; [insertedChains] is the number of added rows and
    [processedMessages] is at most the number of records. *)
Theorem ingest_reports_growth (tokenizer : tokenizer_t)
  (messages : list message) (table : list triple) :
  exists added : list triple,
    fst (ingest tokenizer messages table) = table ++ added
    /\ insertedChains (snd (ingest tokenizer messages table)) = length added
    /\ (forall t, In t added -> ~ In t table)
    /\ processedMessages (snd (ingest tokenizer messages table)) <= length messages.
Proof.
  rewrite ingest_replay. cbn [fst snd insertedChains processedMessages].
  destruct (replay_grows (flat_map (upserts_of tokenizer) messages) table 0)
    as [added [-> [A _]]].
  exists added. simpl. repeat split.
  - intros t Ht. apply A; exact Ht.
  - apply processed_sum_bound.
Qed.

(** X4: batches compose.  Ingesting two batches one after the other is
    ingesting their concatenation: the same table, and the two reports
    added up. *)
Theorem ingest_batches_compose (tokenizer : tokenizer_t)
  (first second : list message) (table : list triple) :
  let r1 := ingest tokenizer first table in
  let r2 := ingest tokenizer second (fst r1) in
  ingest tokenizer (first ++ second) table
  = (fst r2,
     {| processedMessages :=
          processedMessages (snd r1) + processedMessages (snd r2);
        insertedChains := insertedChains (snd r1) + insertedChains (snd r2) |}).
Proof.
  intros r1 r2. unfold r2, r1. rewrite !ingest_replay.
  cbn [fst snd processedMessages insertedChains].
  rewrite flat_map_app, map_app, list_sum_app, replay_app.
  destruct (replay insert_or_ignore (flat_map (upserts_of tokenizer) first)
                   (table, 0)) as [t1 i1] eqn:R1.
  cbn [fst snd]. rewrite (replay_from _ t1 i1). reflexivity.
Qed.

(** X5: no empty word is stored.  If the three words of every row are
    non-empty strings, the same holds after any batch. *)
Theorem ingest_stores_nonempty_words (tokenizer : tokenizer_t)
  (messages : list message) (table : list triple) :
  (forall t, In t table -> kept t = true) ->
  forall t, In t (fst (ingest tokenizer messages table)) -> kept t = true.
Proof.
  intros H t Ht. rewrite ingest_replay in Ht. cbn [fst] in Ht.
  apply replay_membership in Ht. destruct Ht as [Ht|Ht]; [apply H; exact Ht|].
  apply in_flat_map in Ht. destruct Ht as [msg [_ Hu]].
  apply upserts_of_In in Hu.
  destruct Hu as [text [tokens [i [_ [_ [_ [_ [_ K]]]]]]]]. exact K.
Qed.

Lemma ingest_stores_nonempty_words_witness :
  kept (lit "a", lit "b", lit "c") = true.
Proof.
  apply (@ingest_stores_nonempty_words whitespace_tokenizer
           [{| content := Some (lit "a b c") |}] birds_table).
  - intros t [<-|[<-|[<-|[]]]]; reflexivity.
  - right; right; right; left; reflexivity.
Defined.

(** X6: a record that is skipped leaves no trace.  A record whose text is
    undefined or empty, whose tokenization throws, or that has fewer than
    three tokens can be dropped from the batch: the table and the report
    are the same. *)
Theorem ingest_skips_record (tokenizer : tokenizer_t)
  (before after : list message) (msg : message) (table : list triple) :
  (content msg = None
   \/ content msg = Some []
   \/ (exists text e, content msg = Some text
                      /\ tokenizer_tokenize tokenizer text = Throw e)
   \/ (exists text tokens, content msg = Some text
                           /\ tokenizer_tokenize tokenizer text = Normal tokens
                           /\ length tokens < 3)) ->
  ingest tokenizer (before ++ msg :: after) table
  = ingest tokenizer (before ++ after) table.
Proof.
  intros H.
  assert (E : upserts_of tokenizer msg = [] /\ processed_of tokenizer msg = 0).
  { destruct H as [H|[H|[[text [e [Hc Ht]]]|[text [tokens [Hc [Ht Hl]]]]]]].
    - apply upserts_of_empty; left; exact H.
    - apply upserts_of_empty; right; exact H.
    - eapply upserts_of_throw; eassumption.
    - eapply upserts_of_short; eassumption. }
  destruct E as [U P]. rewrite !ingest_replay.
  rewrite !flat_map_app, !map_app, !list_sum_app. cbn [flat_map map list_sum].
  rewrite U, P. reflexivity.
Qed.

(** A tokenizer that throws on the text "boom" and splits the others at
    spaces. *)
Lemma ingest_skips_record_witness :
  let tk := Some (fun text =>
                    if Js.eqb text (lit "boom") then Throw TokenizerError
                    else Normal (map (fun s => {| surface_form := s |})
                                     (split_spaces text []))) in
  ingest tk ([{| content := Some (lit "I like cats") |}]
             ++ {| content := Some (lit "boom") |}
             :: [{| content := Some (lit "I like dogs") |}]) []
  = ingest tk ([{| content := Some (lit "I like cats") |}]
               ++ [{| content := Some (lit "I like dogs") |}]) [].
Proof.
  intros tk. apply ingest_skips_record.
  right; right; left. exists (lit "boom"), TokenizerError.
  split; reflexivity.
Defined.

Lemma list_sum_permutation (l l' : list nat) :
  Permutation l l' -> list_sum l = list_sum l'.
Proof.
  induction 1 as [|x l l' _ IH|x y l|l l' l'' _ IH1 _ IH2]; simpl; lia.
Qed.

(** X7: the order of the records does not matter.  Two batches that are
    permutations of each other leave tables with the same rows and give
    the same report. *)
Theorem ingest_order_irrelevant (tokenizer : tokenizer_t)
  (messages messages' : list message) (table : list triple) :
  Permutation messages messages' ->
  (forall t, In t (fst (ingest tokenizer messages table))
             <-> In t (fst (ingest tokenizer messages' table)))
  /\ snd (ingest tokenizer messages table) = snd (ingest tokenizer messages' table).
Proof.
  intros P.
  assert (PU : Permutation (flat_map (upserts_of tokenizer) messages)
                           (flat_map (upserts_of tokenizer) messages'))
    by (apply Permutation_flat_map; exact P).
  assert (M : forall t, In t (fst (ingest tokenizer messages table))
                        <-> In t (fst (ingest tokenizer messages' table))).
  { intros t. rewrite !ingest_replay. cbn [fst]. rewrite !replay_membership.
    split; (intros [H|H]; [left; exact H | right]).
    - eapply Permutation_in; eassumption.
    - eapply Permutation_in; [apply Permutation_sym|]; eassumption. }
  split; [exact M|].
  rewrite !ingest_replay in *. cbn [fst snd] in *.
  destruct (replay_grows (flat_map (upserts_of tokenizer) messages) table 0)
    as [a [R [A N]]].
  destruct (replay_grows (flat_map (upserts_of tokenizer) messages') table 0)
    as [a' [R' [A' N']]].
  rewrite R, R' in *. cbn [fst snd] in *.
  f_equal.
  - apply list_sum_permutation, Permutation_map. exact P.
  - f_equal. apply Permutation_length. apply NoDup_Permutation; try assumption.
    intros t. split; intros Ht.
    + destruct (A t Ht) as [_ Hn].
      assert (I : In t (table ++ a')) by (apply M, in_or_app; right; exact Ht).
      apply in_app_or in I. destruct I; [contradiction | assumption].
    + destruct (A' t Ht) as [_ Hn].
      assert (I : In t (table ++ a)) by (apply M, in_or_app; right; exact Ht).
      apply in_app_or in I. destruct I; [contradiction | assumption].
Qed.

Lemma ingest_order_irrelevant_witness :
  snd (ingest whitespace_tokenizer
         [{| content := Some (lit "I like cats") |};
          {| content := Some (lit "you like cats a lot") |}] birds_table)
  = snd (ingest whitespace_tokenizer
           [{| content := Some (lit "you like cats a lot") |};
            {| content := Some (lit "I like cats") |}] birds_table).
Proof.
  apply ingest_order_irrelevant. apply perm_swap.
Defined.

(** X8: what is ingested is found.  After a batch, for every window
    [(p1, p2, s)] of three non-empty words of one of its records, [s] is
    among the continuations of [(p1, p2)] and the pair [(p1, p2)] is found
    by [findNodesContaining] under [p1] and under [p2]. *)
Theorem ingested_window_is_found (tokenizer : tokenizer_t)
  (messages : list message) (table : list triple) (msg : message)
  (text : jsstring) (tokens : list token) (i : nat) (p1 p2 s : jsstring) :
  In msg messages ->
  content msg = Some text ->
  text <> [] ->
  tokenizer_tokenize tokenizer text = Normal tokens ->
  i + 2 < length tokens ->
  window (map surface_form tokens) i = (p1, p2, s) ->
  kept (p1, p2, s) = true ->
  let stored := fst (ingest tokenizer messages table) in
  In s (select_suffixes p1 p2 stored)
  /\ In (p1, p2) (findNodesContaining p1 stored)
  /\ In (p1, p2) (findNodesContaining p2 stored).
Proof.
  intros Hm Hc Hne Htok Hi W K stored.
  assert (I : In (p1, p2, s) stored).
  { unfold stored. rewrite ingest_replay. cbn [fst].
    apply replay_stores. apply in_flat_map. exists msg. split; [exact Hm|].
    apply upserts_of_In. exists text, tokens, i. rewrite W.
    repeat split; assumption. }
  split; [apply select_suffixes_In; exact I|].
  split; apply select_nodes_In; exists s; simpl; auto.
Qed.

Lemma ingested_window_is_found_witness :
  In (lit "cats")
     (select_suffixes (lit "I") (lit "like")
        (fst (ingest whitespace_tokenizer
                [{| content := Some (lit "I like cats") |}] birds_table))).
Proof.
  refine (proj1 (@ingested_window_is_found whitespace_tokenizer
                   [{| content := Some (lit "I like cats") |}] birds_table
                   {| content := Some (lit "I like cats") |}
                   (lit "I like cats")
                   (map (fun s => {| surface_form := s |})
                        (split_spaces (lit "I like cats") []))
                   0 (lit "I") (lit "like") (lit "cats")
                   _ eq_refl _ eq_refl _ eq_refl eq_refl)).
  - left; reflexivity.
  - discriminate.
  - simpl; lia.
Defined.

(** ** The generators, further *)

Lemma chain_vocabulary (table : list triple) (p1 p2 : jsstring)
  (tail : list jsstring) :
  chain table p1 p2 tail ->
  forall x, In x tail -> in_vocabulary table x.
Proof.
  induction 1 as [|p1 p2 w rest Hin _ IH]; intros x Hx; [contradiction|].
  destruct Hx as [<-|Hx]; [|apply IH; exact Hx].
  exists p1, p2, w. auto.
Qed.

Lemma chain_final_continues (table : list triple) (p1 p2 : jsstring)
  (tail : list jsstring) :
  no_dead_end table ->
  chain table p1 p2 tail ->
  (exists s, In (p1, p2, s) table) ->
  exists s', In (fst (final_pair p1 p2 tail), snd (final_pair p1 p2 tail), s')
                table.
Proof.
  intros ND. induction 1 as [|p1 p2 w rest Hin _ IH]; intros H0; simpl.
  - exact H0.
  - apply IH. eapply ND; eassumption.
Qed.

Lemma unseeded_words (maxWords : Z) (w w' : world) (sentence : list jsstring) :
  generateMarkovSentence_generated maxWords w = (Normal (Words sentence), w') ->
  available (db w) = true
  /\ exists p1 p2 s tail,
       sentence = p1 :: p2 :: tail
       /\ In (p1, p2, s) (rows (db w))
       /\ walked (rows (db w)) (iterations maxWords) sentence.
Proof.
  intros G.
  destruct (available (db w)) eqn:Ha.
  - destruct (rows (db w)) as [|t table] eqn:Hr.
    + rewrite unseeded_insufficient in G by (right; exact Hr). discriminate.
    + destruct (@unseeded_walks maxWords w Ha ltac:(rewrite Hr; discriminate))
        as [p1 [p2 [s [tail [w1 [Hin [G1 [_ Wk]]]]]]]].
      rewrite G in G1. injection G1 as -> <-.
      split; [reflexivity|]. exists p1, p2, s, tail.
      rewrite Hr in *. repeat split; assumption.
  - rewrite unseeded_insufficient in G by (left; exact Ha). discriminate.
Qed.

Lemma candidates_share_word (front : list jsstring) (prefix1 prefix2 : jsstring)
  (w w1 : world) (cands : list node) :
  find_startCandidates (front ++ [prefix1; prefix2]) w = (Normal cands, w1) ->
  w1 = w
  /\ forall nd, In nd cands ->
       available (db w) = true
       /\ (exists s, In (fst nd, snd nd, s) (rows (db w)))
       /\ (In (fst nd) (front ++ [prefix1; prefix2])
           \/ In (snd nd) (front ++ [prefix1; prefix2])).
Proof.
  intros F.
  destruct (find_startCandidates_run front prefix1 prefix2 w) as [c [F' [Av D]]].
  rewrite F in F'. injection F' as <- ->. split; [reflexivity|].
  intros nd Hnd.
  assert (Hne : cands <> []) by (intros ->; contradiction).
  specialize (Av Hne). split; [exact Av|].
  destruct (D Av) as [D1 D2].
  destruct (select_nodes prefix1 prefix2 (rows (db w))) as [|x l] eqn:Q.
  - specialize (D2 eq_refl).
    destruct (search_any_word_run (front ++ [prefix1; prefix2]) w)
      as [c' [R O]].
    rewrite D2 in R. injection R as <-.
    destruct O as [[O _]|[_ [_ [b [word [a [Wd [_ C]]]]]]]]; [contradiction|].
    rewrite C in Hnd. apply select_nodes_In in Hnd.
    destruct Hnd as [s [I E]]. split; [exists s; exact I|].
    assert (Hw : In word (front ++ [prefix1; prefix2]))
      by (rewrite Wd; apply in_or_app; right; left; reflexivity).
    destruct E as [->| ->]; [left | right]; exact Hw.
  - rewrite (D1 ltac:(discriminate)) in Hnd. rewrite <- Q in Hnd.
    apply select_nodes_In in Hnd.
    destruct Hnd as [s [I E]]. split; [exists s; exact I|].
    destruct E as [->| ->]; [left | right]; apply in_or_app; right; simpl; auto.
Qed.

(** What a seeded call with a ready tokenizer returns: the unseeded
    generator's result, or its own walk. *)
Lemma seeded_analysis (tokenizer : tokenizer_t)
  (tk : jsstring -> completion (list token)) (inputMessage : jsstring)
  (maxWords : Z) (tokens : list token) (w : world) :
  tokenizer = Some tk ->
  tk inputMessage = Normal tokens ->
  (exists w1 : world,
      db w1 = db w
      /\ generateResponseFromMessage_generated tokenizer inputMessage maxWords w
         = generateMarkovSentence_generated maxWords w1)
  \/ (exists (p1 p2 : jsstring) (tail : list jsstring) (w' : world),
         generateResponseFromMessage_generated tokenizer inputMessage maxWords w
         = (Normal (Words (p1 :: p2 :: tail)), w')
         /\ available (db w) = true
         /\ (exists s, In (p1, p2, s) (rows (db w)))
         /\ (In p1 (map surface_form tokens) \/ In p2 (map surface_form tokens))
         /\ walked (rows (db w)) (iterations maxWords) (p1 :: p2 :: tail)
         /\ 10 <= length (join (p1 :: p2 :: tail))).
Proof.
  intros T K.
  destruct (Nat.lt_ge_cases (length tokens) 2) as [H|H].
  - left. exists w. split; [reflexivity|].
    exact (@seeded_too_short _ _ T _ maxWords _ K w H).
  - destruct (@slice_last_two _ (map surface_form tokens)
                ltac:(rewrite length_map; exact H)) as [front [a [b [E _]]]].
    destruct (find_startCandidates_run front a b w) as [cands [F _]].
    destruct (candidates_share_word front a b w F) as [_ Sh].
    rewrite <- E in F, Sh. destruct cands as [|c cands].
    + left. exists w. split; [reflexivity|].
      exact (@seeded_no_candidates _ _ T _ maxWords _ K _ _ H F).
    + destruct (@random_index_pick _ (c :: cands) w ltac:(discriminate))
        as [i [[p1 p2] [R [I Hin]]]].
      destruct (Sh _ Hin) as [Av [St Wd]].
      destruct (walk_run (iterations maxWords) p1 p2 [p1; p2]
                         (snd (next_draw w)) Av)
        as [tail [w3 [W [D [C [L Fp]]]]]].
      pose proof (@seeded_walk _ _ T _ maxWords _ K _ _ _ _ _ _ _ _ _ H F
                    ltac:(discriminate) R I W) as G.
      destruct (Nat.ltb_spec (length (join ([p1; p2] ++ tail))) 10) as [Sh10|Sh10].
      * left. exists w3. split; [exact D | exact G].
      * right. exists p1, p2, tail, w3. split; [exact G|].
        split; [exact Av|]. split; [exact St|]. split; [exact Wd|].
        split; [|exact Sh10]. exists p1, p2, tail. repeat split; assumption.
Qed.

(** X9: only stored words are generated.  Every word of a sequence handed
    back by either generator is a word of a stored row. *)
Theorem generated_words_are_stored (tokenizer : tokenizer_t)
  (inputMessage : jsstring) (maxWords : Z) (w : world) :
  (forall (sentence : list jsstring) (w' : world),
      generateMarkovSentence_generated maxWords w = (Normal (Words sentence), w') ->
      forall x, In x sentence -> in_vocabulary (rows (db w)) x)
  /\ (forall (sentence : list jsstring) (w' : world),
         generateResponseFromMessage_generated tokenizer inputMessage maxWords w
         = (Normal (Words sentence), w') ->
         forall x, In x sentence -> in_vocabulary (rows (db w)) x).
Proof.
  assert (U : forall w0 sentence w',
             generateMarkovSentence_generated maxWords w0
             = (Normal (Words sentence), w') ->
             forall x, In x sentence -> in_vocabulary (rows (db w0)) x).
  { intros w0 sentence w' G x Hx.
    destruct (unseeded_words maxWords w0 G)
      as [_ [p1 [p2 [s [tail [-> [Hin Wk]]]]]]].
    destruct Wk as [q1 [q2 [t [E [C _]]]]]. injection E as <- <- <-.
    destruct Hx as [Hx|[Hx|Hx]].
    - exists p1, p2, s. auto.
    - exists p1, p2, s. auto.
    - eapply chain_vocabulary; eassumption. }
  split; [apply U|].
  intros sentence w' G x Hx.
  destruct tokenizer as [tk|]; [|discriminate G].
  destruct (tk inputMessage) as [tokens|e] eqn:K.
  - destruct (@seeded_analysis (Some tk) tk inputMessage maxWords tokens w
                eq_refl K)
      as [[w1 [D E]]|[p1 [p2 [tail [w3 [E [_ [[s St] [_ [Wk _]]]]]]]]]].
    + rewrite E in G. rewrite <- D. eapply U; eassumption.
    + rewrite G in E. injection E as -> <-.
      destruct Wk as [q1 [q2 [t [E [C _]]]]]. injection E as <- <- <-.
      destruct Hx as [Hx|[Hx|Hx]].
      * exists p1, p2, s. auto.
      * exists p1, p2, s. auto.
      * eapply chain_vocabulary; eassumption.
  - unfold generateResponseFromMessage_generated, try_catch, bind, lift in G.
    rewrite K in G. discriminate G.
Qed.

Lemma generated_words_are_stored_witness :
  in_vocabulary birds_table (lit "very").
Proof.
  apply (proj1 (generated_words_are_stored whitespace_tokenizer (lit "I like") 5
                  (world_of birds_table))
               [lit "I"; lit "like"; lit "birds"; lit "very"; lit "much"]
               _ eq_refl).
  right; right; right; left; reflexivity.
Defined.

(** X10: where a seeded reply comes from.  With a ready tokenizer that
    tokenizes the input, the seeded generator returns either what the
    unseeded generator returns on the same store, or a walk of its own
    that starts at a stored pair one word of which is a word of the input
    and whose joined text has at least 10 characters. *)
Theorem seeded_reply_provenance (tokenizer : tokenizer_t)
  (tk : jsstring -> completion (list token)) (inputMessage : jsstring)
  (maxWords : Z) (tokens : list token) (w : world) :
  tokenizer = Some tk ->
  tk inputMessage = Normal tokens ->
  (exists w1 : world,
      db w1 = db w
      /\ generateResponseFromMessage tokenizer inputMessage maxWords w
         = generateMarkovSentence maxWords w1)
  \/ (exists (p1 p2 : jsstring) (tail : list jsstring) (w' : world),
         generateResponseFromMessage tokenizer inputMessage maxWords w
         = (Normal (join (p1 :: p2 :: tail)), w')
         /\ generateResponseFromMessage_generated tokenizer inputMessage maxWords w
            = (Normal (Words (p1 :: p2 :: tail)), w')
         /\ (exists s, In (p1, p2, s) (rows (db w)))
         /\ (In p1 (map surface_form tokens) \/ In p2 (map surface_form tokens))
         /\ 10 <= length (join (p1 :: p2 :: tail))).
Proof.
  intros T K.
  destruct (seeded_analysis inputMessage maxWords w T K)
    as [[w1 [D E]]|[p1 [p2 [tail [w3 [E [_ [St [Wd [_ L]]]]]]]]]].
  - left. exists w1. split; [exact D | apply rendered_same; exact E].
  - right. exists p1, p2, tail, w3. split; [|repeat split; assumption].
    unfold generateResponseFromMessage, bind. rewrite E. reflexivity.
Qed.

Lemma seeded_reply_provenance_witness :
  (exists w1 : world,
      db w1 = db (world_of birds_table)
      /\ generateResponseFromMessage whitespace_tokenizer (lit "they like") 5
                                     (world_of birds_table)
         = generateMarkovSentence 5 w1)
  \/ (exists (p1 p2 : jsstring) (tail : list jsstring) (w' : world),
         generateResponseFromMessage whitespace_tokenizer (lit "they like") 5
                                     (world_of birds_table)
         = (Normal (join (p1 :: p2 :: tail)), w')
         /\ generateResponseFromMessage_generated whitespace_tokenizer
              (lit "they like") 5 (world_of birds_table)
            = (Normal (Words (p1 :: p2 :: tail)), w')
         /\ (exists s, In (p1, p2, s) (rows (db (world_of birds_table))))
         /\ (In p1 (map surface_form
                        (map (fun s => {| surface_form := s |})
                             (split_spaces (lit "they like") [])))
             \/ In p2 (map surface_form
                           (map (fun s => {| surface_form := s |})
                                (split_spaces (lit "they like") []))))
         /\ 10 <= length (join (p1 :: p2 :: tail))).
Proof.
  exact (@seeded_reply_provenance whitespace_tokenizer _ (lit "they like") 5 _
           (world_of birds_table) eq_refl eq_refl).
Defined.

Lemma dbGet_count (query : list triple -> nat) (w : world) :
  dbGet (prepare_get_count query) w
  = (Normal (if available (db w) then Some (query (rows (db w))) else None), w).
Proof.
  unfold dbGet, try_catch, prepare_get_count, ret.
  destruct (available (db w)); reflexivity.
Qed.

Lemma seeded_under_fault (tokenizer : tokenizer_t)
  (tk : jsstring -> completion (list token)) (inputMessage : jsstring)
  (maxWords : Z) (tokens : list token) (w : world) :
  tokenizer = Some tk ->
  tk inputMessage = Normal tokens ->
  available (db w) = false ->
  generateResponseFromMessage_generated tokenizer inputMessage maxWords w
  = generateMarkovSentence_generated maxWords w.
Proof.
  intros T K Ha.
  destruct (Nat.lt_ge_cases (length tokens) 2) as [H|H].
  - exact (@seeded_too_short _ _ T _ maxWords _ K w H).
  - destruct (@slice_last_two _ (map surface_form tokens)
                ltac:(rewrite length_map; exact H)) as [front [a [b [E _]]]].
    destruct (find_startCandidates_run front a b w) as [cands [F [Av _]]].
    rewrite <- E in F. destruct cands as [|c cands].
    + exact (@seeded_no_candidates _ _ T _ maxWords _ K _ _ H F).
    + specialize (Av ltac:(discriminate)). congruence.
Qed.

(** X11: a storage fault degrades to "insufficient data".  When the driver
    throws, both generators (the seeded one with a ready tokenizer that
    tokenizes the input) answer with the insufficient-data message, not
    with an error message or a throw, and the statistics show two zeros;
    the world is left as it was. *)
Theorem storage_fault_degrades (tokenizer : tokenizer_t)
  (tk : jsstring -> completion (list token)) (inputMessage : jsstring)
  (maxWords : Z) (tokens : list token) (w : world) :
  available (db w) = false ->
  generateMarkovSentence maxWords w = (Normal insufficient_data, w)
  /\ (tokenizer = Some tk ->
      tk inputMessage = Normal tokens ->
      generateResponseFromMessage tokenizer inputMessage maxWords w
      = (Normal insufficient_data, w))
  /\ handleStatsCommand w
     = (Normal {| totalChains := 0; uniquePrefixes := 0 |}, w).
Proof.
  intros Ha.
  assert (U : generateMarkovSentence maxWords w = (Normal insufficient_data, w)).
  { unfold generateMarkovSentence, bind.
    rewrite unseeded_insufficient by (left; exact Ha). reflexivity. }
  split; [exact U | split].
  - intros T K. rewrite <- U. apply rendered_same.
    eapply seeded_under_fault; eassumption.
  - unfold handleStatsCommand, bind. rewrite dbGet_count, Ha.
    rewrite dbGet_count, Ha. reflexivity.
Qed.

Lemma storage_fault_degrades_witness :
  generateResponseFromMessage whitespace_tokenizer (lit "I like") 50
                              (faulted_world_of birds_table)
  = (Normal insufficient_data, faulted_world_of birds_table).
Proof.
  exact (proj1 (proj2 (@storage_fault_degrades whitespace_tokenizer _
                         (lit "I like") 50 _ (faulted_world_of birds_table)
                         eq_refl))
               eq_refl eq_refl).
Defined.

(** X12: no step, start pair only.  On a healthy store with at least one
    row, a [maxWords] of zero or less makes the unseeded generator return
    the two words of one stored row's pair, joined, and nothing more. *)
Theorem no_step_returns_start_pair (maxWords : Z) (w : world) :
  available (db w) = true ->
  rows (db w) <> [] ->
  (maxWords <= 0)%Z ->
  exists (p1 p2 s : jsstring) (w' : world),
    In (p1, p2, s) (rows (db w))
    /\ generateMarkovSentence_generated maxWords w
       = (Normal (Words [p1; p2]), w')
    /\ generateMarkovSentence maxWords w = (Normal (p1 ++ p2), w').
Proof.
  intros Ha Hr Hm.
  destruct (unseeded_walks maxWords w Ha Hr)
    as [p1 [p2 [s [tail [w' [Hin [G [_ Wk]]]]]]]].
  destruct Wk as [q1 [q2 [t [E [_ [L _]]]]]]. injection E as <- <- <-.
  assert (T : tail = []).
  { unfold iterations in L. destruct tail; [reflexivity|simpl in L; lia]. }
  subst tail. exists p1, p2, s, w'. split; [exact Hin | split; [exact G|]].
  unfold generateMarkovSentence, bind. rewrite G.
  simpl. rewrite app_nil_r. reflexivity.
Qed.

Lemma no_step_returns_start_pair_witness :
  exists (p1 p2 s : jsstring) (w' : world),
    In (p1, p2, s) (rows (db (world_of birds_table)))
    /\ generateMarkovSentence_generated 0 (world_of birds_table)
       = (Normal (Words [p1; p2]), w')
    /\ generateMarkovSentence 0 (world_of birds_table) = (Normal (p1 ++ p2), w').
Proof.
  apply no_step_returns_start_pair.
  - reflexivity.
  - discriminate.
  - lia.
Defined.

(** X13: without dead ends the walk takes every step.  On a healthy store
    with at least one row in which every stored row leads to a pair that
    has a continuation, the unseeded generator returns exactly
    [maxWords + 2] words, for [maxWords >= 0]. *)
Theorem full_length_without_dead_end (maxWords : Z) (w : world) :
  available (db w) = true ->
  rows (db w) <> [] ->
  no_dead_end (rows (db w)) ->
  (0 <= maxWords)%Z ->
  exists (sentence : list jsstring) (w' : world),
    generateMarkovSentence_generated maxWords w = (Normal (Words sentence), w')
    /\ Z.of_nat (length sentence) = (maxWords + 2)%Z.
Proof.
  intros Ha Hr ND Hm.
  destruct (unseeded_walks maxWords w Ha Hr)
    as [p1 [p2 [s [tail [w' [Hin [G [_ Wk]]]]]]]].
  exists (p1 :: p2 :: tail), w'. split; [exact G|].
  destruct Wk as [q1 [q2 [t [E [C [L F]]]]]]. injection E as <- <- <-.
  destruct F as [F|F].
  - unfold iterations in F. simpl. lia.
  - exfalso.
    destruct (chain_final_continues ND C (ex_intro _ s Hin)) as [s' Hs].
    apply select_suffixes_In in Hs. rewrite F in Hs. exact Hs.
Qed.

Lemma full_length_without_dead_end_witness :
  exists (sentence : list jsstring) (w' : world),
    generateMarkovSentence_generated 7 (world_of cycle_table)
    = (Normal (Words sentence), w')
    /\ Z.of_nat (length sentence) = (7 + 2)%Z.
Proof.
  apply full_length_without_dead_end.
  - reflexivity.
  - discriminate.
  - intros p1 p2 s [E|[E|[E|[]]]]; injection E as <- <- <-.
    + exists (lit "a"). right; left; reflexivity.
    + exists (lit "b"). right; right; left; reflexivity.
    + exists (lit "c"). left; reflexivity.
  - lia.
Defined.

(** X14: ingestion feeds generation.  Once a batch holds a record with a
    non-empty text of at least three tokens, all non-empty, the unseeded
    generator on the resulting healthy store returns, for [maxWords >= 1],
    a walk of at least three words instead of the insufficient-data
    message. *)
Theorem ingest_then_generate (tokenizer : tokenizer_t)
  (messages : list message) (table : list triple) (msg : message)
  (text : jsstring) (tokens : list token) (draws : nat -> nat) (maxWords : Z) :
  In msg messages ->
  content msg = Some text ->
  text <> [] ->
  tokenizer_tokenize tokenizer text = Normal tokens ->
  3 <= length tokens ->
  forallb nonempty (map surface_form tokens) = true ->
  (1 <= maxWords)%Z ->
  exists (sentence : list jsstring) (w' : world),
    generateMarkovSentence_generated maxWords
      {| db := {| rows := fst (ingest tokenizer messages table);
                  available := true |};
         entropy := draws |}
    = (Normal (Words sentence), w')
    /\ 3 <= length sentence
    /\ valid_walk (fst (ingest tokenizer messages table)) sentence.
Proof.
  intros Hm Hc Hne Htok Hl Hall Hmax.
  set (stored := fst (ingest tokenizer messages table)).
  set (w := {| db := {| rows := stored; available := true |}; entropy := draws |}).
  assert (I : In (window (map surface_form tokens) 0) stored).
  { unfold stored. rewrite ingest_replay. cbn [fst].
    apply replay_stores. apply in_flat_map. exists msg. split; [exact Hm|].
    apply upserts_of_In. exists text, tokens, 0.
    split; [exact Hc | split; [exact Hne | split; [exact Htok|]]].
    split; [lia | split; [reflexivity|]].
    rewrite forallb_forall in Hall. unfold window, kept.
    rewrite !Hall; [reflexivity | | |]; apply nth_In; rewrite length_map; lia. }
  assert (Hr : rows (db w) <> []) by (simpl; intros E; rewrite E in I; exact I).
  destruct (@unseeded_walks maxWords w eq_refl Hr)
    as [p1 [p2 [s [tail [w' [Hin [G [_ Wk]]]]]]]].
  exists (p1 :: p2 :: tail), w'. split; [exact G|].
  split; [|exact (walked_valid Wk)].
  destruct Wk as [q1 [q2 [t [E [_ [_ F]]]]]]. injection E as <- <- <-.
  destruct tail as [|x tail]; [|simpl; lia]. exfalso.
  destruct F as [F|F].
  - unfold iterations in F. simpl in F. lia.
  - simpl in F. apply (select_suffixes_In p1 p2 s) in Hin.
    simpl in Hin. rewrite F in Hin. exact Hin.
Qed.

Lemma ingest_then_generate_witness :
  exists (sentence : list jsstring) (w' : world),
    generateMarkovSentence_generated 3
      {| db := {| rows := fst (ingest whitespace_tokenizer
                                 [{| content := Some (lit "we like rain") |}] []);
                  available := true |};
         entropy := fun n => n |}
    = (Normal (Words sentence), w')
    /\ 3 <= length sentence
    /\ valid_walk (fst (ingest whitespace_tokenizer
                          [{| content := Some (lit "we like rain") |}] []))
                  sentence.
Proof.
  refine (@ingest_then_generate whitespace_tokenizer
            [{| content := Some (lit "we like rain") |}] []
            {| content := Some (lit "we like rain") |} (lit "we like rain")
            (map (fun s => {| surface_form := s |})
                 (split_spaces (lit "we like rain") []))
            (fun n => n) 3 _ eq_refl _ eq_refl _ eq_refl _).
  - left; reflexivity.
  - discriminate.
  - simpl; lia.
  - lia.
Defined.

(** ** Statistics *)

Lemma nodup_map_length {A B : Type}
  (decA : forall a b : A, {a = b} + {a <> b})
  (decB : forall a b : B, {a = b} + {a <> b}) (f : A -> B) (l : list A) :
  length (nodup decB (map f l)) <= length (nodup decA l).
Proof.
  rewrite <- (length_map f (nodup decA l)).
  apply NoDup_incl_length; [apply NoDup_nodup|].
  intros y Hy. apply nodup_In in Hy. apply in_map_iff in Hy.
  destruct Hy as [x [<- Hx]]. apply in_map. apply nodup_In. exact Hx.
Qed.

Lemma nodup_length {A : Type} (dec : forall a b : A, {a = b} + {a <> b})
  (l : list A) :
  length (nodup dec l) <= length l.
Proof.
  apply NoDup_incl_length; [apply NoDup_nodup|].
  intros x Hx. apply nodup_In in Hx. exact Hx.
Qed.

(** X15: what the statistics can show.  On a healthy store [totalChains] is
    the number of rows, and [uniquePrefixes] is at least 1 on a non-empty
    table, at most the number of distinct pairs, which is at most
    [totalChains]; it is 0 exactly on the empty table. *)
Theorem stats_bounds (w : world) :
  available (db w) = true ->
  exists st : stats,
    handleStatsCommand w = (Normal st, w)
    /\ totalChains st = length (rows (db w))
    /\ uniquePrefixes st <= length (distinct_nodes (rows (db w)))
    /\ length (distinct_nodes (rows (db w))) <= totalChains st
    /\ (uniquePrefixes st = 0 <-> rows (db w) = []).
Proof.
  intros Ha.
  exists {| totalChains := count_rows (rows (db w));
            uniquePrefixes := count_distinct_concat (rows (db w)) |}.
  split.
  { unfold handleStatsCommand, bind. rewrite dbGet_count, Ha.
    rewrite dbGet_count, Ha. reflexivity. }
  cbn [totalChains uniquePrefixes]. unfold count_rows, count_distinct_concat.
  split; [reflexivity | split; [|split]].
  - unfold distinct_nodes.
    rewrite <- (map_map node_of (fun nd => fst nd ++ snd nd)).
    apply nodup_map_length.
  - unfold distinct_nodes.
    rewrite <- (length_map node_of (rows (db w))). apply nodup_length.
  - split.
    + destruct (rows (db w)) as [|t table]; [reflexivity|]. intros E.
      apply length_zero_iff_nil in E.
      assert (I : In (fst (node_of t) ++ snd (node_of t))
                     (nodup Js.eq_dec
                        (map (fun t => fst (node_of t) ++ snd (node_of t))
                             (t :: table))))
        by (apply nodup_In; left; reflexivity).
      rewrite E in I. contradiction.
    + intros ->. reflexivity.
Qed.

Lemma stats_bounds_witness :
  exists st : stats,
    handleStatsCommand (world_of abc_table) = (Normal st, world_of abc_table)
    /\ totalChains st = length (rows (db (world_of abc_table)))
    /\ uniquePrefixes st <= length (distinct_nodes (rows (db (world_of abc_table))))
    /\ length (distinct_nodes (rows (db (world_of abc_table)))) <= totalChains st
    /\ (uniquePrefixes st = 0 <-> rows (db (world_of abc_table)) = []).
Proof. apply stats_bounds. reflexivity. Defined.

(** ** The map of muted members *)

Lemma jsstring_eqb_neq (a b : jsstring) : Js.eqb a b = false <-> a <> b.
Proof.
  split.
  - intros E H. apply jsstring_eqb_eq in H. congruence.
  - intros H. destruct (Js.eqb a b) eqn:E; [|reflexivity].
    apply jsstring_eqb_eq in E. contradiction.
Qed.

Lemma Map_get_set_same (key : jsstring) (value : Z) (m : mute_map) :
  Map_get key (Map_set key value m) = Some value.
Proof.
  induction m as [|[k v] m IH]; simpl.
  - rewrite jsstring_eqb_refl. reflexivity.
  - destruct (Js.eqb k key) eqn:E; simpl; rewrite E; [reflexivity | exact IH].
Qed.

Lemma Map_get_set_other (key other : jsstring) (value : Z) (m : mute_map) :
  other <> key -> Map_get other (Map_set key value m) = Map_get other m.
Proof.
  intros H. induction m as [|[k v] m IH]; simpl.
  - rewrite (proj2 (jsstring_eqb_neq key other)) by congruence. reflexivity.
  - destruct (Js.eqb k key) eqn:E; simpl.
    + apply jsstring_eqb_eq in E. subst k.
      rewrite (proj2 (jsstring_eqb_neq key other)) by congruence. reflexivity.
    + rewrite IH. reflexivity.
Qed.

Lemma Map_get_delete_same (key : jsstring) (m : mute_map) :
  Map_get key (Map_delete key m) = None.
Proof.
  induction m as [|[k v] m IH]; simpl; [reflexivity|].
  destruct (Js.eqb k key) eqn:E; simpl; [exact IH|].
  rewrite E. exact IH.
Qed.

Lemma Map_get_delete_other (key other : jsstring) (m : mute_map) :
  other <> key -> Map_get other (Map_delete key m) = Map_get other m.
Proof.
  intros H. induction m as [|[k v] m IH]; simpl; [reflexivity|].
  destruct (Js.eqb k key) eqn:E; simpl.
  - apply jsstring_eqb_eq in E. subst k.
    rewrite (proj2 (jsstring_eqb_neq key other)) by congruence. exact IH.
  - rewrite IH. reflexivity.
Qed.

Lemma Map_get_delete_some (key other : jsstring) (m : mute_map) (v : Z) :
  Map_get other (Map_delete key m) = Some v -> Map_get other m = Some v.
Proof.
  intros H. destruct (Js.eq_dec other key) as [->|N].
  - rewrite Map_get_delete_same in H. discriminate.
  - rewrite Map_get_delete_other in H by exact N. exact H.
Qed.

Lemma Map_get_In (key : jsstring) (m : mute_map) (v : Z) :
  Map_get key m = Some v -> In (key, v) m.
Proof.
  induction m as [|[k x] m IH]; simpl; [discriminate|].
  destruct (Js.eqb k key) eqn:E.
  - intros H. injection H as ->. apply jsstring_eqb_eq in E. subst. left; reflexivity.
  - intros H. right. apply IH. exact H.
Qed.

Lemma Map_set_keys (key : jsstring) (value : Z) (m : mute_map) (k : jsstring) :
  In k (map fst (Map_set key value m)) <-> k = key \/ In k (map fst m).
Proof.
  induction m as [|[k0 v0] m IH]; simpl.
  - intuition.
  - destruct (Js.eqb k0 key) eqn:E; simpl.
    + apply jsstring_eqb_eq in E. subst k0. intuition.
    + rewrite IH. intuition.
Qed.

Lemma Map_set_unique (key : jsstring) (value : Z) (m : mute_map) :
  NoDup (map fst m) -> NoDup (map fst (Map_set key value m)).
Proof.
  induction m as [|[k0 v0] m IH]; simpl; intros ND.
  - repeat constructor. intros [].
  - inversion ND as [|x l Hn ND']; subst.
    destruct (Js.eqb k0 key) eqn:E; simpl.
    + constructor; assumption.
    + constructor; [|apply IH; exact ND'].
      rewrite Map_set_keys. intros [->|H]; [|contradiction].
      rewrite jsstring_eqb_refl in E. discriminate.
Qed.

Lemma Map_delete_unique (key : jsstring) (m : mute_map) :
  NoDup (map fst m) -> NoDup (map fst (Map_delete key m)).
Proof.
  induction m as [|[k0 v0] m IH]; simpl; intros ND; [constructor|].
  inversion ND as [|x l Hn ND']; subst.
  destruct (Js.eqb k0 key); simpl; [apply IH; exact ND'|].
  constructor; [|apply IH; exact ND'].
  intros H. apply Hn. apply in_map_iff in H. destruct H as [[k v] [<- H]].
  apply filter_In in H. apply in_map_iff. exists (k, v). split; [reflexivity|].
  apply H.
Qed.

(** X16: an update concerns one member.  The listener leaves the entry of
    every other user as it is, does nothing at all for an update without a
    member, and keeps the keys of the map distinct. *)
Theorem voiceStateUpdate_one_member (INACTIVE_CHANNEL_ID : jsstring) (now : Z)
  (oldState newState : VoiceState) (m : mute_map) :
  (forall other : jsstring,
      member newState <> Some other ->
      Map_get other (voiceStateUpdate INACTIVE_CHANNEL_ID now oldState newState m)
      = Map_get other m)
  /\ (truthy (member newState) = false ->
      voiceStateUpdate INACTIVE_CHANNEL_ID now oldState newState m = m)
  /\ (NoDup (map fst m) ->
      NoDup (map fst (voiceStateUpdate INACTIVE_CHANNEL_ID now oldState newState m))).
Proof.
  split; [|split].
  - intros other H. unfold voiceStateUpdate.
    destruct (member newState) as [[|c u]|] eqn:Hm; try reflexivity.
    assert (N : other <> c :: u) by congruence.
    cbn [truthy or_else].
    repeat match goal with
           | |- context [if ?b then _ else _] => destruct b
           end;
      rewrite ?Map_get_delete_other, ?Map_get_set_other by exact N; reflexivity.
  - intros H. unfold voiceStateUpdate. rewrite H. reflexivity.
  - intros ND. unfold voiceStateUpdate.
    repeat match goal with
           | |- context [if ?b then _ else _] => destruct b
           end;
      repeat first [apply Map_delete_unique | apply Map_set_unique]; exact ND.
Qed.

Lemma voiceStateUpdate_one_member_witness :
  Map_get (lit "v")
    (voiceStateUpdate (lit "afk") 7 (in_lobby false) (in_lobby true)
                      [(lit "v", 3%Z)])
  = Map_get (lit "v") [(lit "v", 3%Z)].
Proof.
  apply (proj1 (voiceStateUpdate_one_member (lit "afk") 7 (in_lobby false)
                  (in_lobby true) [(lit "v", 3%Z)])).
  discriminate.
Defined.

(** X17: when the timer starts and when it is kept.  For a member in a
    channel other than the inactive one: an update from unmuted to muted
    records the clock reading for the member, and an update that does not
    change whether the member is muted (a move between channels, say)
    leaves the whole map, the member's reading included, as it was. *)
Theorem mute_timer_starts_and_stays (INACTIVE_CHANNEL_ID userId : jsstring)
  (now : Z) (oldState newState : VoiceState) (m : mute_map) :
  member newState = Some userId ->
  userId <> [] ->
  truthy (channelId newState) = true ->
  is_channel (channelId newState) INACTIVE_CHANNEL_ID = false ->
  (selfMute oldState || serverMute oldState = false ->
   selfMute newState || serverMute newState = true ->
   Map_get userId (voiceStateUpdate INACTIVE_CHANNEL_ID now oldState newState m)
   = Some now)
  /\ (selfMute oldState || serverMute oldState
      = selfMute newState || serverMute newState ->
      voiceStateUpdate INACTIVE_CHANNEL_ID now oldState newState m = m).
Proof.
  intros Hm Hu Hc Hi. unfold voiceStateUpdate. rewrite Hm, Hc, Hi.
  destruct userId as [|c u]; [congruence|]. cbn [truthy or_else].
  split.
  - intros W I. rewrite W, I. simpl. apply Map_get_set_same.
  - intros E. rewrite E.
    destruct (selfMute newState || serverMute newState); reflexivity.
Qed.

Lemma mute_timer_starts_and_stays_witness :
  Map_get (lit "u")
    (voiceStateUpdate (lit "afk") 7 (in_lobby false) (in_lobby true) [])
  = Some 7%Z
  /\ voiceStateUpdate (lit "afk") 9 (in_lobby true) (in_lobby true)
                      [(lit "u", 7%Z)]
     = [(lit "u", 7%Z)].
Proof.
  split.
  - apply (proj1 (@mute_timer_starts_and_stays (lit "afk") (lit "u") 7
                    (in_lobby false) (in_lobby true) []
                    eq_refl ltac:(discriminate) eq_refl eq_refl));
      reflexivity.
  - apply (proj2 (@mute_timer_starts_and_stays (lit "afk") (lit "u") 9
                    (in_lobby true) (in_lobby true) [(lit "u", 7%Z)]
                    eq_refl ltac:(discriminate) eq_refl eq_refl)).
    reflexivity.
Defined.

Lemma is_channel_truthy (channel : option jsstring) (INACTIVE_CHANNEL_ID : jsstring) :
  INACTIVE_CHANNEL_ID <> [] ->
  is_channel channel INACTIVE_CHANNEL_ID = true ->
  truthy channel = true.
Proof.
  intros N H. destruct channel as [[|c s]|]; simpl in *; try discriminate.
  - destruct INACTIVE_CHANNEL_ID; [congruence | discriminate].
  - reflexivity.
Qed.

(** X18: when a member is forgotten.  The inactive channel's id is a
    non-empty string (the process exits at start otherwise).  After an
    update the member has no entry if the member is now in the inactive
    channel, or has left voice from a channel, or, being in a channel,
    went from muted to unmuted. *)
Theorem member_forgotten (INACTIVE_CHANNEL_ID userId : jsstring)
  (now : Z) (oldState newState : VoiceState) (m : mute_map) :
  INACTIVE_CHANNEL_ID <> [] ->
  member newState = Some userId ->
  userId <> [] ->
  is_channel (channelId newState) INACTIVE_CHANNEL_ID = true
  \/ (truthy (channelId oldState) = true /\ truthy (channelId newState) = false)
  \/ (truthy (channelId newState) = true
      /\ selfMute oldState || serverMute oldState = true
      /\ selfMute newState || serverMute newState = false) ->
  Map_get userId (voiceStateUpdate INACTIVE_CHANNEL_ID now oldState newState m)
  = None.
Proof.
  intros Hi Hm Hu H. unfold voiceStateUpdate. rewrite Hm.
  destruct userId as [|c u]; [congruence|]. cbn [truthy or_else].
  destruct H as [H|[[H1 H2]|[H1 [H2 H3]]]].
  - rewrite (is_channel_truthy _ Hi H), H. apply Map_get_delete_same.
  - rewrite H2, H1. simpl. apply Map_get_delete_same.
  - rewrite H1, H2, H3. simpl.
    destruct (is_channel (channelId newState) INACTIVE_CHANNEL_ID);
      [apply Map_get_delete_same | apply Map_get_delete_same].
Qed.

Lemma member_forgotten_witness :
  Map_get (lit "u")
    (voiceStateUpdate (lit "afk") 9 (in_lobby true) (in_lobby false)
                      [(lit "u", 7%Z)])
  = None.
Proof.
  apply member_forgotten.
  - discriminate.
  - reflexivity.
  - discriminate.
  - right; right. repeat split.
Defined.

Lemma voiceStateUpdate_invariant (INACTIVE_CHANNEL_ID userId : jsstring)
  (now : Z) (oldState newState : VoiceState) (m : mute_map) (times : list Z) :
  member newState = Some userId ->
  userId <> [] ->
  (forall t, Map_get userId m = Some t ->
             muted_in_channel INACTIVE_CHANNEL_ID oldState /\ In t times) ->
  forall t,
    Map_get userId (voiceStateUpdate INACTIVE_CHANNEL_ID now oldState newState m)
    = Some t ->
    muted_in_channel INACTIVE_CHANNEL_ID newState /\ In t (times ++ [now]).
Proof.
  intros Hm Hu Inv t. unfold voiceStateUpdate. rewrite Hm.
  destruct userId as [|c u]; [congruence|]. cbn [truthy or_else].
  unfold muted_in_channel in *.
  destruct (truthy (channelId newState)) eqn:T.
  - destruct (is_channel (channelId newState) INACTIVE_CHANNEL_ID) eqn:I.
    + rewrite Map_get_delete_same. discriminate.
    + destruct (selfMute oldState || serverMute oldState) eqn:W;
        destruct (selfMute newState || serverMute newState) eqn:N; simpl.
      * intros H. destruct (Inv t H) as [_ Ht].
        repeat split; try reflexivity. apply in_or_app; left; exact Ht.
      * rewrite Map_get_delete_same. discriminate.
      * rewrite Map_get_set_same. intros H. injection H as <-.
        repeat split; try reflexivity. apply in_or_app; right; left; reflexivity.
      * intros H. destruct (Inv t H) as [[_ [_ M]] _]. discriminate M.
  - destruct (truthy (channelId oldState)) eqn:O; simpl.
    + rewrite Map_get_delete_same. discriminate.
    + intros H. destruct (Inv t H) as [[M _] _]. discriminate M.
Qed.

(** X19: who is tracked is muted.  For the events of one member, each
    starting from the state the previous one ended in, and a map that did
    not track the member before: whenever the member has an entry
    afterwards, the member's last state is muted in a channel other than
    the inactive one, and the entry is the clock reading of one of the
    events. *)
Theorem tracked_member_is_muted (INACTIVE_CHANNEL_ID userId : jsstring)
  (state : VoiceState) (events : list (Z * VoiceState * VoiceState))
  (m : mute_map) (t : Z) :
  userId <> [] ->
  chained userId state events ->
  Map_get userId m = None ->
  Map_get userId (voiceStateUpdates INACTIVE_CHANNEL_ID events m) = Some t ->
  muted_in_channel INACTIVE_CHANNEL_ID (last_state state events)
  /\ In t (map (fun ev => fst (fst ev)) events).
Proof.
  intros Hu C H0.
  assert (G : forall events state m times,
             chained userId state events ->
             (forall t, Map_get userId m = Some t ->
                        muted_in_channel INACTIVE_CHANNEL_ID state /\ In t times) ->
             forall t,
               Map_get userId (voiceStateUpdates INACTIVE_CHANNEL_ID events m)
               = Some t ->
               muted_in_channel INACTIVE_CHANNEL_ID (last_state state events)
               /\ In t (times ++ map (fun ev => fst (fst ev)) events)).
  { clear C H0. intros evs.
    induction evs as [|[[now o] n] evs IH]; intros st m0 times C Inv t0.
    - simpl. rewrite app_nil_r. apply Inv.
    - destruct C as [-> [Hm C]]. unfold voiceStateUpdates. cbn [fold_left fst snd].
      intros H. cbn [last_state map fst].
      change (times ++ now :: map (fun ev => fst (fst ev)) evs)
        with (times ++ [now] ++ map (fun ev => fst (fst ev)) evs).
      rewrite app_assoc.
      apply (IH n (voiceStateUpdate INACTIVE_CHANNEL_ID now st n m0)
                (times ++ [now]) C); [|exact H].
      apply voiceStateUpdate_invariant; assumption. }
  intros H. apply (G events state m [] C); [|exact H].
  intros t0 H1. rewrite H0 in H1. discriminate.
Qed.

(** The member "u" joins unmuted, mutes at 5, moves at 8. *)
Lemma tracked_member_is_muted_witness :
  muted_in_channel (lit "afk")
    (last_state (in_lobby false)
       [(5%Z, in_lobby false, in_lobby true); (8%Z, in_lobby true, in_lobby true)])
  /\ In 5%Z (map (fun ev => fst (fst ev))
               [(5%Z, in_lobby false, in_lobby true);
                (8%Z, in_lobby true, in_lobby true)]).
Proof.
  apply (@tracked_member_is_muted (lit "afk") (lit "u") (in_lobby false)
           [(5%Z, in_lobby false, in_lobby true); (8%Z, in_lobby true, in_lobby true)]
           [] 5).
  - discriminate.
  - simpl. repeat split.
  - reflexivity.
  - reflexivity.
Defined.

(** ** The periodic check *)

Lemma sweep_guild_cases (INACTIVE_CHANNEL_ID userId : jsstring) (t : Z)
  (st : sweep_state) (guild : Guild) :
  (exists voiceState,
      sits_muted INACTIVE_CHANNEL_ID guild userId voiceState
      /\ (((mute_limit <= clock st 0 - t)%Z
           /\ channels_has guild INACTIVE_CHANNEL_ID = true
           /\ member voiceState <> None
           /\ sweep_guild INACTIVE_CHANNEL_ID userId t st guild
              = {| tracked := Map_delete userId (tracked st);
                   moved := moved st ++ [(guild_id guild, userId)];
                   clock := fun n => clock st (S n) |})
          \/ (((clock st 0 - t < mute_limit)%Z
               \/ channels_has guild INACTIVE_CHANNEL_ID = false
               \/ member voiceState = None)
              /\ sweep_guild INACTIVE_CHANNEL_ID userId t st guild
                 = {| tracked := tracked st; moved := moved st;
                      clock := fun n => clock st (S n) |})))
  \/ ((forall voiceState,
          ~ sits_muted INACTIVE_CHANNEL_ID guild userId voiceState)
      /\ sweep_guild INACTIVE_CHANNEL_ID userId t st guild
         = {| tracked := Map_delete userId (tracked st);
              moved := moved st; clock := clock st |}).
Proof.
  unfold sweep_guild, sits_muted.
  destruct (voiceStates_get guild userId) as [vs|] eqn:V.
  - destruct (truthy (channelId vs)) eqn:T; simpl.
    + destruct (is_channel (channelId vs) INACTIVE_CHANNEL_ID) eqn:I; simpl.
      * right. split; [|reflexivity].
        intros v [E [_ [I' _]]]. injection E as <-. congruence.
      * destruct (selfMute vs || serverMute vs) eqn:Mu.
        -- left. exists vs. split; [repeat split; assumption|].
           destruct (Z.leb_spec mute_limit (clock st 0 - t)) as [L|L].
           ++ destruct (channels_has guild INACTIVE_CHANNEL_ID) eqn:Ch; simpl.
              ** destruct (member vs) eqn:Me.
                 --- left. repeat split; try assumption. discriminate.
                 --- right. split; [right; right; reflexivity | reflexivity].
              ** right. split; [right; left; reflexivity | reflexivity].
           ++ right. split; [left; exact L | reflexivity].
        -- right. split; [|reflexivity].
           intros v [E [_ [_ M]]]. injection E as <-. congruence.
    + right. split; [|reflexivity].
      intros v [E [T' _]]. injection E as <-. congruence.
  - right. split; [|reflexivity]. intros v [E _]. discriminate.
Qed.

Section Sweep.

Variable INACTIVE_CHANNEL_ID : jsstring.
Variable guilds : list Guild.
Variable m : mute_map.
Variable readings : nat -> Z.

Lemma sweep_guild_keeps (userId : jsstring) (t : Z) (st : sweep_state)
  (guild : Guild) :
  In (userId, t) m ->
  In guild guilds ->
  sweep_invariant INACTIVE_CHANNEL_ID guilds m readings st ->
  sweep_invariant INACTIVE_CHANNEL_ID guilds m readings
                  (sweep_guild INACTIVE_CHANNEL_ID userId t st guild).
Proof.
  intros Hin Hg [[k Ck] [Tr Mv]].
  assert (Del : forall u x, Map_get u (Map_delete userId (tracked st)) = Some x ->
                            Map_get u m = Some x).
  { intros u x H. apply Tr. eapply Map_get_delete_some; exact H. }
  assert (Sh : exists k', forall n, clock st (S n) = readings (k' + n)).
  { exists (S k). intros n. rewrite Ck. f_equal. lia. }
  destruct (sweep_guild_cases INACTIVE_CHANNEL_ID userId t st guild)
    as [[vs [Sm [[L [Ch [Me ->]]]|[_ ->]]]]|[_ ->]]; cbn.
  - split; [exact Sh | split; [exact Del|]].
    intros move H. apply in_app_or in H. destruct H as [H|[<-|[]]].
    + apply Mv; exact H.
    + exists guild, vs, t, k. cbn [fst snd]. rewrite Ck in L.
      rewrite Nat.add_0_r in L. repeat split; try assumption; apply Sm.
  - split; [exact Sh | split; [exact Tr | exact Mv]].
  - split; [exists k; exact Ck | split; [exact Del | exact Mv]].
Qed.

Lemma sweep_guilds_keep (userId : jsstring) (t : Z) (gs : list Guild) :
  In (userId, t) m ->
  incl gs guilds ->
  forall st,
    sweep_invariant INACTIVE_CHANNEL_ID guilds m readings st ->
    sweep_invariant INACTIVE_CHANNEL_ID guilds m readings
      (fold_left (sweep_guild INACTIVE_CHANNEL_ID userId t) gs st).
Proof.
  intros Hin. induction gs as [|g gs IH]; intros Hi st Inv; [exact Inv|].
  simpl. apply IH.
  - intros x Hx. apply Hi. right; exact Hx.
  - apply sweep_guild_keeps; try assumption. apply Hi. left; reflexivity.
Qed.

Lemma sweep_entries_keep (entries : mute_map) :
  incl entries m ->
  forall st,
    sweep_invariant INACTIVE_CHANNEL_ID guilds m readings st ->
    sweep_invariant INACTIVE_CHANNEL_ID guilds m readings
      (sweep_entries INACTIVE_CHANNEL_ID guilds entries st).
Proof.
  induction entries as [|[u t] entries IH]; intros Hi st Inv; [exact Inv|].
  simpl. apply IH.
  - intros x Hx. apply Hi. right; exact Hx.
  - apply sweep_guilds_keep; try assumption.
    + apply Hi. left; reflexivity.
    + apply incl_refl.
Qed.

Lemma sweep_keeps :
  sweep_invariant INACTIVE_CHANNEL_ID guilds m readings
                  (sweep INACTIVE_CHANNEL_ID guilds m readings).
Proof.
  unfold sweep. apply sweep_entries_keep; [apply incl_refl|].
  split; [exists 0; intros n; reflexivity | split].
  - intros u t H. exact H.
  - intros move [].
Qed.

Lemma sweep_guild_forgets (userId u : jsstring) (t x : Z) (st : sweep_state)
  (guild : Guild) :
  Map_get u (tracked (sweep_guild INACTIVE_CHANNEL_ID userId t st guild)) = Some x ->
  Map_get u (tracked st) = Some x.
Proof.
  destruct (sweep_guild_cases INACTIVE_CHANNEL_ID userId t st guild)
    as [[vs [_ [[_ [_ [_ ->]]]|[_ ->]]]]|[_ ->]]; cbn; intros H;
    first [exact H | eapply Map_get_delete_some; exact H].
Qed.

Lemma sweep_guilds_forget (userId u : jsstring) (t x : Z) (gs : list Guild) :
  forall st,
    Map_get u (tracked (fold_left (sweep_guild INACTIVE_CHANNEL_ID userId t) gs st))
    = Some x ->
    Map_get u (tracked st) = Some x.
Proof.
  induction gs as [|g gs IH]; intros st H; [exact H|].
  simpl in H. apply IH in H. eapply sweep_guild_forgets; exact H.
Qed.

Lemma sweep_entries_forget (u : jsstring) (x : Z) (entries : mute_map) :
  forall st,
    Map_get u (tracked (sweep_entries INACTIVE_CHANNEL_ID guilds entries st))
    = Some x ->
    Map_get u (tracked st) = Some x.
Proof.
  induction entries as [|[u0 t0] entries IH]; intros st H; [exact H|].
  simpl in H. apply IH in H. eapply sweep_guilds_forget; exact H.
Qed.

Lemma sweep_guilds_survivor (userId : jsstring) (t x : Z) (gs : list Guild) :
  forall st,
    Map_get userId
            (tracked (fold_left (sweep_guild INACTIVE_CHANNEL_ID userId t) gs st))
    = Some x ->
    forall g, In g gs ->
              exists vs, sits_muted INACTIVE_CHANNEL_ID g userId vs.
Proof.
  induction gs as [|g0 gs IH]; intros st H g Hg; [contradiction|].
  simpl in H. destruct Hg as [->|Hg]; [|eapply IH; eassumption].
  apply sweep_guilds_forget in H.
  destruct (sweep_guild_cases INACTIVE_CHANNEL_ID userId t st g)
    as [[vs [Sm _]]|[_ E]].
  - exists vs; exact Sm.
  - rewrite E in H. cbn in H. rewrite Map_get_delete_same in H. discriminate.
Qed.

Lemma sweep_entries_survivor (entries : mute_map) :
  forall st,
    (forall u x, Map_get u (tracked st) = Some x ->
                 (forall g, In g guilds ->
                            exists vs, sits_muted INACTIVE_CHANNEL_ID g u vs)
                 \/ In u (map fst entries)) ->
    forall u x,
      Map_get u (tracked (sweep_entries INACTIVE_CHANNEL_ID guilds entries st))
      = Some x ->
      forall g, In g guilds ->
                exists vs, sits_muted INACTIVE_CHANNEL_ID g u vs.
Proof.
  induction entries as [|[u0 t0] entries IH]; intros st R u x H.
  - destruct (R u x H) as [G|[]]. exact G.
  - simpl in H. refine (IH _ _ u x H). clear u x H.
    intros u x H.
    destruct (Js.eq_dec u u0) as [->|N].
    + left. eapply sweep_guilds_survivor; exact H.
    + apply sweep_guilds_forget in H. destruct (R u x H) as [G|[E|I]].
      * left; exact G.
      * simpl in E. congruence.
      * right; exact I.
Qed.

Lemma sweep_guild_moved_grows (userId : jsstring) (t : Z) (st : sweep_state)
  (guild : Guild) (move : jsstring * jsstring) :
  In move (moved st) ->
  In move (moved (sweep_guild INACTIVE_CHANNEL_ID userId t st guild)).
Proof.
  intros H.
  destruct (sweep_guild_cases INACTIVE_CHANNEL_ID userId t st guild)
    as [[vs [_ [[_ [_ [_ ->]]]|[_ ->]]]]|[_ ->]]; cbn;
    first [exact H | apply in_or_app; left; exact H].
Qed.

Lemma sweep_guild_none_stays (userId u : jsstring) (t : Z) (st : sweep_state)
  (guild : Guild) :
  Map_get u (tracked st) = None ->
  Map_get u (tracked (sweep_guild INACTIVE_CHANNEL_ID userId t st guild)) = None.
Proof.
  intros H.
  destruct (Map_get u (tracked (sweep_guild INACTIVE_CHANNEL_ID userId t st guild)))
    as [x|] eqn:E; [|reflexivity].
  apply sweep_guild_forgets in E. congruence.
Qed.

Lemma sweep_guild_overdue (userId : jsstring) (t t0 : Z) (st : sweep_state)
  (guild : Guild) :
  (forall n, (mute_limit <= clock st n - t0)%Z) ->
  forall n,
    (mute_limit
     <= clock (sweep_guild INACTIVE_CHANNEL_ID userId t st guild) n - t0)%Z.
Proof.
  intros O n.
  destruct (sweep_guild_cases INACTIVE_CHANNEL_ID userId t st guild)
    as [[vs [_ [[_ [_ [_ ->]]]|[_ ->]]]]|[_ ->]]; cbn; apply O.
Qed.

Lemma sweep_guilds_rest (userId u : jsstring) (t t0 : Z) (gs : list Guild)
  (move : jsstring * jsstring) :
  forall st,
    (forall n, (mute_limit <= clock st n - t0)%Z) ->
    (In move (moved st) ->
     In move (moved (fold_left (sweep_guild INACTIVE_CHANNEL_ID userId t) gs st)))
    /\ (Map_get u (tracked st) = None ->
        Map_get u (tracked (fold_left (sweep_guild INACTIVE_CHANNEL_ID userId t)
                                      gs st)) = None)
    /\ (forall n,
           (mute_limit
            <= clock (fold_left (sweep_guild INACTIVE_CHANNEL_ID userId t) gs st) n
               - t0)%Z).
Proof.
  induction gs as [|g gs IH]; intros st O; [auto|].
  simpl.
  destruct (IH (sweep_guild INACTIVE_CHANNEL_ID userId t st g)
               (@sweep_guild_overdue userId t t0 st g O)) as [I1 [I2 I3]].
  split; [|split].
  - intros H. apply I1, sweep_guild_moved_grows, H.
  - intros H. apply I2, sweep_guild_none_stays, H.
  - exact I3.
Qed.

Lemma sweep_guilds_move (userId : jsstring) (t : Z) (gs : list Guild)
  (guild : Guild) (voiceState : VoiceState) :
  In guild gs ->
  sits_muted INACTIVE_CHANNEL_ID guild userId voiceState ->
  member voiceState <> None ->
  channels_has guild INACTIVE_CHANNEL_ID = true ->
  forall st,
    (forall n, (mute_limit <= clock st n - t)%Z) ->
    In (guild_id guild, userId)
       (moved (fold_left (sweep_guild INACTIVE_CHANNEL_ID userId t) gs st))
    /\ Map_get userId
         (tracked (fold_left (sweep_guild INACTIVE_CHANNEL_ID userId t) gs st))
       = None.
Proof.
  intros Hg Sm Me Ch. induction gs as [|g gs IH]; intros st O; [contradiction|].
  simpl. destruct Hg as [->|Hg].
  - destruct (@sweep_guilds_rest userId userId t t gs (guild_id guild, userId)
                (sweep_guild INACTIVE_CHANNEL_ID userId t st guild)
                (@sweep_guild_overdue userId t t st guild O)) as [I1 [I2 _]].
    destruct (sweep_guild_cases INACTIVE_CHANNEL_ID userId t st guild)
      as [[vs [Sm' [[_ [_ [_ E]]]|[[L|[C|N]] _]]]]|[No _]].
    + rewrite E in *. cbn in *. split.
      * apply I1. apply in_or_app. right. left. reflexivity.
      * apply I2. apply Map_get_delete_same.
    + specialize (O 0). lia.
    + congruence.
    + destruct Sm as [V _], Sm' as [V' _]. congruence.
    + exfalso. exact (No _ Sm).
  - apply (IH Hg). apply sweep_guild_overdue. exact O.
Qed.

Lemma sweep_entries_rest (u : jsstring) (t0 : Z) (entries : mute_map)
  (move : jsstring * jsstring) :
  forall st,
    (forall n, (mute_limit <= clock st n - t0)%Z) ->
    (In move (moved st) ->
     In move (moved (sweep_entries INACTIVE_CHANNEL_ID guilds entries st)))
    /\ (Map_get u (tracked st) = None ->
        Map_get u (tracked (sweep_entries INACTIVE_CHANNEL_ID guilds entries st))
        = None)
    /\ (forall n,
           (mute_limit
            <= clock (sweep_entries INACTIVE_CHANNEL_ID guilds entries st) n
               - t0)%Z).
Proof.
  induction entries as [|[u1 t1] entries IH]; intros st O; [auto|].
  simpl.
  destruct (@sweep_guilds_rest u1 u t1 t0 guilds move st O) as [G1 [G2 G3]].
  destruct (IH _ G3) as [I1 [I2 I3]].
  split; [|split]; auto.
Qed.

Lemma sweep_entries_move (userId : jsstring) (t : Z) (entries : mute_map)
  (guild : Guild) (voiceState : VoiceState) :
  In (userId, t) entries ->
  In guild guilds ->
  sits_muted INACTIVE_CHANNEL_ID guild userId voiceState ->
  member voiceState <> None ->
  channels_has guild INACTIVE_CHANNEL_ID = true ->
  forall st,
    (forall n, (mute_limit <= clock st n - t)%Z) ->
    In (guild_id guild, userId)
       (moved (sweep_entries INACTIVE_CHANNEL_ID guilds entries st))
    /\ Map_get userId
         (tracked (sweep_entries INACTIVE_CHANNEL_ID guilds entries st))
       = None.
Proof.
  intros He Hg Sm Me Ch.
  induction entries as [|[u1 t1] entries IH]; intros st O; [contradiction|].
  simpl. destruct He as [E|He].
  - injection E as -> ->.
    destruct (@sweep_guilds_move userId t guilds guild voiceState Hg Sm Me Ch st O)
      as [M N].
    destruct (@sweep_guilds_rest userId userId t t guilds (guild_id guild, userId)
                st O) as [_ [_ O']].
    destruct (@sweep_entries_rest userId t entries (guild_id guild, userId) _ O')
      as [I1 [I2 _]].
    split; [apply I1; exact M | apply I2; exact N].
  - apply (IH He).
    destruct (@sweep_guilds_rest u1 userId t1 t guilds (guild_id guild, userId)
                st O) as [_ [_ O']].
    exact O'.
Qed.

End Sweep.

(** X20: no unjustified move.  Every [setChannel] call of a periodic check
    moves a member who had an entry when the check began and who sits
    muted, in the guild concerned, in a channel other than the inactive
    one; the guild has the inactive channel, and a clock reading of the
    check is at least 30 minutes after the member's entry. *)
Theorem sweep_moves_are_justified (INACTIVE_CHANNEL_ID : jsstring)
  (guilds : list Guild) (m : mute_map) (readings : nat -> Z)
  (move : jsstring * jsstring) :
  In move (moved (sweep INACTIVE_CHANNEL_ID guilds m readings)) ->
  move_justified INACTIVE_CHANNEL_ID guilds m readings move.
Proof.
  intros H.
  destruct (sweep_keeps INACTIVE_CHANNEL_ID guilds m readings) as [_ [_ Mv]].
  apply Mv. exact H.
Qed.

Lemma sweep_moves_are_justified_witness :
  move_justified (lit "afk") [guild_g] [(lit "u", 0%Z)] (fun _ => 1800000%Z)
                 (lit "g", lit "u").
Proof.
  apply sweep_moves_are_justified. left; reflexivity.
Defined.

(** X21: who stays tracked.  A periodic check adds no entry and changes no
    reading; a member who still has an entry after it sits muted, in a
    channel other than the inactive one, in every guild of the cache. *)
Theorem sweep_survivors_sit_muted (INACTIVE_CHANNEL_ID : jsstring)
  (guilds : list Guild) (m : mute_map) (readings : nat -> Z)
  (userId : jsstring) (t : Z) :
  Map_get userId (tracked (sweep INACTIVE_CHANNEL_ID guilds m readings)) = Some t ->
  Map_get userId m = Some t
  /\ forall guild, In guild guilds ->
                   exists voiceState,
                     sits_muted INACTIVE_CHANNEL_ID guild userId voiceState.
Proof.
  intros H. split.
  - unfold sweep in H. apply sweep_entries_forget in H. exact H.
  - unfold sweep in H. revert H. apply sweep_entries_survivor.
    intros u x Hu. right. cbn in Hu. apply Map_get_In in Hu.
    apply in_map_iff. exists (u, x). split; [reflexivity | exact Hu].
Qed.

Lemma sweep_survivors_sit_muted_witness :
  Map_get (lit "u") [(lit "u", 0%Z)] = Some 0%Z
  /\ forall guild, In guild [guild_g] ->
                   exists voiceState,
                     sits_muted (lit "afk") guild (lit "u") voiceState.
Proof.
  apply (@sweep_survivors_sit_muted (lit "afk") [guild_g] [(lit "u", 0%Z)]
           (fun _ => 60000%Z) (lit "u") 0).
  reflexivity.
Defined.

(** X22: an overdue member is moved.  A member with an entry who sits muted
    in a guild that has the inactive channel, whose voice state has a
    member, and whose entry is at least 30 minutes behind every clock
    reading, is moved in that guild by the check and has no entry
    afterwards. *)
Theorem sweep_moves_overdue_member (INACTIVE_CHANNEL_ID : jsstring)
  (guilds : list Guild) (m : mute_map) (readings : nat -> Z)
  (userId : jsstring) (t : Z) (guild : Guild) (voiceState : VoiceState) :
  In (userId, t) m ->
  In guild guilds ->
  sits_muted INACTIVE_CHANNEL_ID guild userId voiceState ->
  member voiceState <> None ->
  channels_has guild INACTIVE_CHANNEL_ID = true ->
  (forall n, (mute_limit <= readings n - t)%Z) ->
  In (guild_id guild, userId)
     (moved (sweep INACTIVE_CHANNEL_ID guilds m readings))
  /\ Map_get userId (tracked (sweep INACTIVE_CHANNEL_ID guilds m readings)) = None.
Proof.
  intros Hin Hg Sm Me Ch O. unfold sweep.
  eapply sweep_entries_move; eassumption.
Qed.

Lemma sweep_moves_overdue_member_witness :
  In (guild_id guild_g, lit "u")
     (moved (sweep (lit "afk") [guild_g] [(lit "u", 0%Z)] (fun _ => 1800000%Z)))
  /\ Map_get (lit "u")
       (tracked (sweep (lit "afk") [guild_g] [(lit "u", 0%Z)]
                       (fun _ => 1800000%Z)))
     = None.
Proof.
  apply (@sweep_moves_overdue_member (lit "afk") [guild_g] [(lit "u", 0%Z)]
           (fun _ => 1800000%Z) (lit "u") 0 guild_g (in_lobby true)).
  - left; reflexivity.
  - left; reflexivity.
  - repeat split.
  - discriminate.
  - reflexivity.
  - intros n. unfold mute_limit. lia.
Defined.

(** ** Automatic responses *)

(** For a message that passes the first tests, the listener is its
    automatic-response part. *)
Lemma messageCreate_eligible (mode : AutoResponseMode) (message : incoming) :
  author_bot message = false ->
  channel_isTextBased message = true ->
  message_content message <> lit "!crawling" ->
  message_content message <> lit "!generate" ->
  message_content message <> lit "!stats" ->
  messageCreate mode message
  = if negb (match mode with disabled => true | _ => false end)
       && (5 <? length (message_content message))
    then
      bind (if mentions_client message then ret true
            else match mode with random => coin | _ => ret false end)
           (fun shouldRespond =>
              if shouldRespond then
                try_catch
                  (bind (match channel_sendTyping message with
                         | Some typing => lift typing
                         | None => ret tt
                         end)
                        (fun _ => bind Math_random
                                       (fun _ => ret (Scheduled (mentions_client message)))))
                  (fun _ => ret NoReaction)
              else ret NoReaction)
    else ret NoReaction.
Proof.
  intros B T C G S. unfold messageCreate. rewrite B, T. cbn [orb negb].
  rewrite (proj2 (jsstring_eqb_neq _ _) C), (proj2 (jsstring_eqb_neq _ _) G),
    (proj2 (jsstring_eqb_neq _ _) S).
  reflexivity.
Qed.

(** X23: when nothing is generated.  No response is scheduled, and no random
    number is drawn, for a message of a bot, a message outside a text
    channel, one of the old commands [!crawling], [!generate], [!stats],
    a message of at most 5 characters, any message in the disabled mode,
    and an unmentioning message in the mention-only mode. *)
Theorem no_automatic_response (mode : AutoResponseMode) (message : incoming)
  (w : world) :
  author_bot message = true
  \/ channel_isTextBased message = false
  \/ In (message_content message) [lit "!crawling"; lit "!generate"; lit "!stats"]
  \/ length (message_content message) <= 5
  \/ mode = disabled
  \/ (mode = mention_only /\ mentions_client message = false) ->
  snd (messageCreate mode message w) = w
  /\ forall isMentioned,
       fst (messageCreate mode message w) <> Normal (Scheduled isMentioned).
Proof.
  intros H. unfold messageCreate.
  destruct (author_bot message) eqn:B; [split; [reflexivity | discriminate]|].
  destruct (channel_isTextBased message) eqn:T;
    [|split; [reflexivity | discriminate]].
  cbn [orb negb].
  destruct (Js.eqb (message_content message) (lit "!crawling")) eqn:C;
    [split; [reflexivity | discriminate]|].
  destruct (Js.eqb (message_content message) (lit "!generate")) eqn:G;
    [split; [reflexivity | discriminate]|].
  destruct (Js.eqb (message_content message) (lit "!stats")) eqn:S;
    [split; [reflexivity | discriminate]|].
  destruct H as [H|[H|[H|[H|[H|[H1 H2]]]]]]; try discriminate.
  - exfalso. destruct H as [H|[H|[H|[]]]]; symmetry in H;
      apply jsstring_eqb_eq in H; congruence.
  - destruct (Nat.ltb_spec 5 (length (message_content message))); [lia|].
    rewrite andb_false_r. split; [reflexivity | discriminate].
  - subst mode. split; [reflexivity | discriminate].
  - subst mode. rewrite H2. cbn [negb andb].
    destruct (5 <? length (message_content message));
      split; try reflexivity; discriminate.
Qed.

Lemma no_automatic_response_witness :
  snd (messageCreate random (chat (lit "hello") true) (world_of birds_table))
  = world_of birds_table
  /\ forall isMentioned,
       fst (messageCreate random (chat (lit "hello") true) (world_of birds_table))
       <> Normal (Scheduled isMentioned).
Proof.
  apply no_automatic_response.
  right; right; right; left. simpl; lia.
Defined.

Lemma seeded_string_total (tokenizer : tokenizer_t) (inputMessage : jsstring)
  (maxWords : Z) (w : world) :
  exists (response : jsstring) (w' : world),
    generateResponseFromMessage tokenizer inputMessage maxWords w
    = (Normal response, w')
    /\ db w' = db w.
Proof.
  destruct (seeded_outcome tokenizer inputMessage maxWords w)
    as [g [w' [G [D _]]]].
  exists (render g), w'. split; [|exact D].
  unfold generateResponseFromMessage, bind. rewrite G. reflexivity.
Qed.

Lemma unseeded_string_total (maxWords : Z) (w : world) :
  exists (sentence : jsstring) (w' : world),
    generateMarkovSentence maxWords w = (Normal sentence, w')
    /\ db w' = db w.
Proof.
  destruct (unseeded_outcome maxWords w) as [g [w' [G [D _]]]].
  exists (render g), w'. split; [|exact D].
  unfold generateMarkovSentence, bind. rewrite G. reflexivity.
Qed.

(** X24: a mention is answered.  Unless the mode is disabled, a message of
    more than 5 characters that mentions the client, is not from a bot, is
    in a text channel where typing does not fail and is none of the old
    commands gets a response scheduled, at the cost of one random draw,
    the delay.  The callback then generates a response, which is what
    [generateResponseFromMessage] returns for the content with
    [maxWords = 50] and leaves the store as it is, and passes it to
    [message.reply]: when Discord accepts the reply the callback completes
    with it, and when Discord rejects it the callback rejects with the
    same error, nothing catching it. *)
Theorem mention_is_answered (tokenizer : tokenizer_t) (mode : AutoResponseMode)
  (message : incoming) (out : outgoing) (w later : world) :
  mode <> disabled ->
  author_bot message = false ->
  channel_isTextBased message = true ->
  ~ In (message_content message) [lit "!crawling"; lit "!generate"; lit "!stats"] ->
  5 < length (message_content message) ->
  mentions_client message = true ->
  channel_sendTyping message = None
  \/ channel_sendTyping message = Some (Normal tt) ->
  messageCreate mode message w = (Normal (Scheduled true), snd (next_draw w))
  /\ exists (response : jsstring) (w' : world),
       generateResponseFromMessage tokenizer (message_content message) 50 later
       = (Normal response, w')
       /\ db w' = db later
       /\ response_callback tokenizer message out true later
          = (match message_reply out response with
             | Normal _ => Normal (Some (Reply response))
             | Throw e => Throw e
             end, w').
Proof.
  intros Hm B T L Len Me Ty. split.
  - rewrite messageCreate_eligible; try assumption;
      try (intros E; apply L; rewrite E; simpl; tauto).
    destruct (Nat.ltb_spec 5 (length (message_content message))); [|lia].
    rewrite Me. destruct mode; try congruence;
      destruct Ty as [-> | ->]; reflexivity.
  - destruct (seeded_string_total tokenizer (message_content message) 50 later)
      as [response [w' [G D]]].
    exists response, w'. split; [exact G | split; [exact D|]].
    unfold response_callback, bind at 1. rewrite G.
    unfold bind, lift, ret.
    destruct (message_reply out response); reflexivity.
Qed.

(** A mention in the mention-only mode, when Discord rejects every reply:
    the response is scheduled all the same, and the callback rejects. *)
Lemma mention_is_answered_witness :
  messageCreate mention_only (chat (lit "I like what") true) (world_of birds_table)
  = (Normal (Scheduled true), snd (next_draw (world_of birds_table)))
  /\ exists (response : jsstring) (w' : world),
       generateResponseFromMessage whitespace_tokenizer (lit "I like what") 50
                                   (world_of birds_table)
       = (Normal response, w')
       /\ db w' = db (world_of birds_table)
       /\ response_callback whitespace_tokenizer (chat (lit "I like what") true)
                            rejecting_replies true (world_of birds_table)
          = (Throw DiscordAPIError, w').
Proof.
  refine (@mention_is_answered whitespace_tokenizer mention_only
            (chat (lit "I like what") true) rejecting_replies
            (world_of birds_table) (world_of birds_table)
            _ eq_refl eq_refl _ _ eq_refl _).
  - discriminate.
  - simpl. intros [H|[H|[H|[]]]]; discriminate H.
  - simpl; lia.
  - right; reflexivity.
Defined.

(** X25: the random mode tosses a coin.  In the random mode an eligible
    message that does not mention the client, in a channel where typing
    does not fail, gets a response scheduled exactly when the first draw
    falls in the lower half ([Math.random() < 0.5]); two draws are then
    taken, the coin and the delay.  Otherwise nothing happens after the
    one draw. *)
Theorem random_mode_tosses_a_coin (message : incoming) (w : world) :
  author_bot message = false ->
  channel_isTextBased message = true ->
  ~ In (message_content message) [lit "!crawling"; lit "!generate"; lit "!stats"] ->
  5 < length (message_content message) ->
  mentions_client message = false ->
  channel_sendTyping message = None
  \/ channel_sendTyping message = Some (Normal tt) ->
  messageCreate random message w
  = if entropy w 0 mod 2 =? 0
    then (Normal (Scheduled false), snd (next_draw (snd (next_draw w))))
    else (Normal NoReaction, snd (next_draw w)).
Proof.
  intros B T L Len Me Ty.
  rewrite messageCreate_eligible; try assumption;
    try (intros E; apply L; rewrite E; simpl; tauto).
  destruct (Nat.ltb_spec 5 (length (message_content message))); [|lia].
  rewrite Me. cbn [negb andb]. unfold bind at 1, coin, bind at 1.
  rewrite random_index_run. cbn [Nat.eqb]. unfold ret at 1.
  destruct (entropy w 0 mod 2 =? 0); [|reflexivity].
  destruct Ty as [-> | ->]; reflexivity.
Qed.

Lemma random_mode_tosses_a_coin_witness :
  messageCreate random (chat (lit "I like what") false) (world_of birds_table)
  = if entropy (world_of birds_table) 0 mod 2 =? 0
    then (Normal (Scheduled false),
          snd (next_draw (snd (next_draw (world_of birds_table)))))
    else (Normal NoReaction, snd (next_draw (world_of birds_table))).
Proof.
  apply random_mode_tosses_a_coin; try reflexivity.
  - simpl. intros [H|[H|[H|[]]]]; discriminate H.
  - simpl; lia.
  - right; reflexivity.
Defined.

(** ** The command [/generate] *)

(** X26: [/generate] shows a sentence unless Discord refuses it.  Whatever
    the options, the store and the tokenizer, a generator returns a
    sentence and leaves the store as it is: without an [input], or with
    the empty one, the generator is [generateMarkovSentence]; otherwise it
    is [generateResponseFromMessage] on the input; [maxWords] is the
    option [length], or 50 without it.  When Discord rejects [deferReply]
    the handler rejects with that error before anything is generated.
    Otherwise the handler passes the prefix followed by the sentence,
    which is never the failure text, to [editReply] and completes when
    Discord accepts it; only when Discord rejects it does the handler pass
    the failure text to a second [editReply], and it rejects when that one
    is rejected too. *)
Theorem generate_command_replies (tokenizer : tokenizer_t)
  (interaction : Interaction jsstring)
  (length_option : option Z) (input_option : option jsstring) (w : world) :
  let maxWords := match length_option with Some n => n | None => 50%Z end in
  exists (sentence : jsstring) (w' : world),
    db w' = db w
    /\ generated_prefix ++ sentence <> generate_failed
    /\ (truthy input_option = false ->
        generateMarkovSentence maxWords w = (Normal sentence, w'))
    /\ (forall input, input_option = Some input -> input <> [] ->
        generateResponseFromMessage tokenizer input maxWords w
        = (Normal sentence, w'))
    /\ handleGenerateCommand tokenizer interaction length_option input_option w
       = match interaction_deferReply interaction with
         | Throw e => (Throw e, w)
         | Normal _ =>
             match interaction_editReply interaction (generated_prefix ++ sentence) with
             | Normal _ => (Normal (generated_prefix ++ sentence), w')
             | Throw _ =>
                 match interaction_editReply interaction generate_failed with
                 | Normal _ => (Normal generate_failed, w')
                 | Throw e => (Throw e, w')
                 end
             end
         end.
Proof.
  intros maxWords. unfold handleGenerateCommand. fold maxWords.
  destruct (truthy input_option) eqn:Tr.
  - destruct (seeded_string_total tokenizer (or_else input_option []) maxWords w)
      as [sentence [w' [G D]]].
    exists sentence, w'.
    split; [exact D | split; [discriminate | split; [discriminate | split]]].
    + intros input -> Hne. destruct input; [congruence | exact G].
    + unfold bind at 1, lift at 1.
      destruct (interaction_deferReply interaction); [|reflexivity].
      unfold try_catch, bind at 1. rewrite G. unfold bind, lift, ret.
      destruct (interaction_editReply interaction (generated_prefix ++ sentence));
        [reflexivity|].
      destruct (interaction_editReply interaction generate_failed); reflexivity.
  - destruct (unseeded_string_total maxWords w) as [sentence [w' [G D]]].
    exists sentence, w'.
    split; [exact D | split; [discriminate | split; [intros _; exact G | split]]].
    + intros input -> Hne. destruct input; [congruence | discriminate Tr].
    + unfold bind at 1, lift at 1.
      destruct (interaction_deferReply interaction); [|reflexivity].
      unfold try_catch, bind at 1. rewrite G. unfold bind, lift, ret.
      destruct (interaction_editReply interaction (generated_prefix ++ sentence));
        [reflexivity|].
      destruct (interaction_editReply interaction generate_failed); reflexivity.
Qed.

(** Discord rejects the sentence: the handler ends with the failure text. *)
Lemma generate_command_replies_witness :
  fst (handleGenerateCommand whitespace_tokenizer rejecting_sentences
         (Some 5%Z) (Some (lit "I like what")) (world_of birds_table))
  = Normal generate_failed.
Proof.
  destruct (generate_command_replies whitespace_tokenizer rejecting_sentences
              (Some 5%Z) (Some (lit "I like what")) (world_of birds_table))
    as [sentence [w' [_ [Ne [_ [_ H]]]]]].
  rewrite H. cbn [rejecting_sentences interaction_deferReply interaction_editReply].
  rewrite (proj2 (jsstring_eqb_neq (generated_prefix ++ sentence) generate_failed) Ne).
  rewrite jsstring_eqb_refl. reflexivity.
Defined.

(** ** Fetching the messages to crawl *)

Lemma push_while_room_firstn (messageCount : Z) (messageArray : list DiscordMessage) :
  forall allMessages,
    push_while_room messageCount messageArray allMessages
    = allMessages
      ++ firstn (Z.to_nat (messageCount - Z.of_nat (length allMessages)))
                messageArray.
Proof.
  induction messageArray as [|msg rest IH]; intros allMessages; simpl.
  - rewrite firstn_nil, app_nil_r. reflexivity.
  - destruct (Z.ltb_spec (Z.of_nat (length allMessages)) messageCount) as [L|L].
    + rewrite IH, length_app. simpl.
      replace (Z.to_nat (messageCount - Z.of_nat (length allMessages)))
        with (S (Z.to_nat (messageCount - Z.of_nat (length allMessages + 1))))
        by lia.
      simpl. rewrite <- app_assoc. reflexivity.
    + replace (Z.to_nat (messageCount - Z.of_nat (length allMessages))) with 0
        by lia.
      simpl. rewrite app_nil_r. reflexivity.
Qed.

Lemma In_firstn {A : Type} (n : nat) (l : list A) (x : A) :
  In x (firstn n l) -> In x l.
Proof.
  intros H. rewrite <- (firstn_skipn n l). apply in_or_app. left; exact H.
Qed.

Section CrawlFacts.

Variable fetch : nat -> option jsstring -> completion (list DiscordMessage).
Variable messageCount : Z.

Lemma fetch_loop_full (fuel : nat) (lastId : option jsstring)
  (allMessages : list DiscordMessage) :
  (messageCount <= Z.of_nat (length allMessages))%Z ->
  fetch_loop fetch fuel messageCount lastId allMessages = Normal allMessages.
Proof.
  intros H. destruct fuel; simpl; [reflexivity|].
  destruct (Z.ltb_spec (Z.of_nat (length allMessages)) messageCount); [lia|].
  reflexivity.
Qed.

Lemma fetch_loop_step (fuel : nat) (lastId : option jsstring)
  (allMessages : list DiscordMessage) :
  fetch_loop fetch (S fuel) messageCount lastId allMessages
  = if (Z.of_nat (length allMessages) <? messageCount)%Z then
      match fetch fetchLimit (if truthy lastId then lastId else None) with
      | Throw e => Throw e
      | Normal messages =>
          if length messages =? 0 then Normal allMessages
          else
            match index messages (length messages - 1) with
            | None => Throw TypeError
            | Some lastMessage =>
                if length messages <? fetchLimit
                then Normal (push_while_room messageCount messages allMessages)
                else fetch_loop fetch fuel messageCount
                                (Some (message_id lastMessage))
                                (push_while_room messageCount messages allMessages)
            end
      end
    else Normal allMessages.
Proof. reflexivity. Qed.

Lemma fetch_loop_more_fuel (fuel : nat) :
  forall (lastId : option jsstring) (allMessages : list DiscordMessage),
    Z.to_nat (messageCount - Z.of_nat (length allMessages)) <= fuel ->
    fetch_loop fetch (S fuel) messageCount lastId allMessages
    = fetch_loop fetch fuel messageCount lastId allMessages.
Proof.
  induction fuel as [|fuel IH]; intros lastId allMessages H.
  - rewrite !fetch_loop_full by lia. reflexivity.
  - rewrite (fetch_loop_step (S fuel)), (fetch_loop_step fuel).
    destruct (Z.ltb_spec (Z.of_nat (length allMessages)) messageCount) as [L|L];
      [|reflexivity].
    destruct (fetch fetchLimit (if truthy lastId then lastId else None))
      as [messages|e]; [|reflexivity].
    destruct (Nat.eqb_spec (length messages) 0) as [Z0|Z0]; [reflexivity|].
    destruct (index messages (length messages - 1)) as [lastMessage|];
      [|reflexivity].
    destruct (length messages <? fetchLimit); [reflexivity|].
    apply IH.
    rewrite push_while_room_firstn, length_app, length_firstn.
    destruct messages; [simpl in Z0; congruence|]. simpl length. lia.
Qed.

Lemma fetch_loop_enough_fuel (extra fuel : nat) (lastId : option jsstring)
  (allMessages : list DiscordMessage) :
  Z.to_nat (messageCount - Z.of_nat (length allMessages)) <= fuel ->
  fetch_loop fetch (extra + fuel) messageCount lastId allMessages
  = fetch_loop fetch fuel messageCount lastId allMessages.
Proof.
  intros H. induction extra as [|extra IH]; [reflexivity|].
  simpl plus. rewrite fetch_loop_more_fuel by lia. exact IH.
Qed.

Lemma fetch_loop_collects (fuel : nat) :
  forall (lastId : option jsstring) (allMessages result : list DiscordMessage),
    fetch_loop fetch fuel messageCount lastId allMessages = Normal result ->
    exists added,
      result = allMessages ++ added
      /\ (length added
          <= Z.to_nat (messageCount - Z.of_nat (length allMessages)))
      /\ forall msg, In msg added ->
           exists before page,
             fetch fetchLimit before = Normal page /\ In msg page.
Proof.
  induction fuel as [|fuel IH]; intros lastId allMessages result H.
  - injection H as <-. exists []. rewrite app_nil_r.
    split; [reflexivity | split; [simpl; lia | intros ? []]].
  - rewrite fetch_loop_step in H.
    destruct (Z.ltb_spec (Z.of_nat (length allMessages)) messageCount) as [L|L].
    2:{ injection H as <-. exists []. rewrite app_nil_r.
        split; [reflexivity | split; [simpl; lia | intros ? []]]. }
    destruct (fetch fetchLimit (if truthy lastId then lastId else None))
      as [messages|e] eqn:F; [|discriminate].
    destruct (Nat.eqb_spec (length messages) 0) as [Z0|Z0].
    { injection H as <-. exists []. rewrite app_nil_r.
      split; [reflexivity | split; [simpl; lia | intros ? []]]. }
    destruct (index messages (length messages - 1)) as [lastMessage|];
      [|discriminate].
    rewrite push_while_room_firstn in H.
    set (room := Z.to_nat (messageCount - Z.of_nat (length allMessages))) in *.
    assert (P : forall msg, In msg (firstn room messages) ->
                  exists before page,
                    fetch fetchLimit before = Normal page /\ In msg page).
    { intros msg Hm. exists (if truthy lastId then lastId else None), messages.
      split; [exact F | eapply In_firstn; exact Hm]. }
    destruct (length messages <? fetchLimit).
    + injection H as <-. exists (firstn room messages).
      split; [reflexivity | split; [|exact P]].
      rewrite length_firstn. lia.
    + apply IH in H. destruct H as [added [-> [La Pa]]].
      exists (firstn room messages ++ added). rewrite app_assoc.
      split; [reflexivity | split].
      * rewrite length_app in *. rewrite length_firstn in *. lia.
      * intros msg Hm. apply in_app_or in Hm.
        destruct Hm as [Hm|Hm]; [apply P | apply Pa]; exact Hm.
Qed.

End CrawlFacts.


(** X27: fetching stops by itself and within the count.  The loop needs no
    more than [messageCount] iterations: with more fuel the result is the
    same.  When it completes, it has collected at most [messageCount]
    messages (none for a count of zero or less), each taken from a page
    that [fetch] returned. *)
Theorem fetch_messages_bounded
  (fetch : nat -> option jsstring -> completion (list DiscordMessage))
  (messageCount : Z) :
  (forall extra : nat,
      fetch_loop fetch (extra + Z.to_nat messageCount) messageCount None []
      = fetch_messages fetch messageCount)
  /\ forall allMessages,
       fetch_messages fetch messageCount = Normal allMessages ->
       length allMessages <= Z.to_nat messageCount
       /\ forall msg, In msg allMessages ->
            exists before page,
              fetch fetchLimit before = Normal page /\ In msg page.
Proof.
  split.
  - intros extra. unfold fetch_messages.
    apply fetch_loop_enough_fuel. simpl. lia.
  - intros allMessages H. unfold fetch_messages in H.
    apply fetch_loop_collects in H. destruct H as [added [-> [L P]]].
    simpl in *. split; [lia | exact P].
Qed.

Lemma fetch_messages_bounded_witness :
  length [{| message_id := lit "m1";
             message_of := {| content := Some (lit "I like cats") |} |};
          {| message_id := lit "m2";
             message_of := {| content := Some (lit "you like dogs") |} |}]
  <= Z.to_nat 2.
Proof.
  apply (proj2 (fetch_messages_bounded (paging example_history) 2)).
  reflexivity.
Defined.



Section Paging.

Variable history : list DiscordMessage.
Hypothesis ids_distinct : NoDup (map message_id history).
Hypothesis ids_nonempty : forall msg, In msg history -> message_id msg <> [].

Variable fetch : nat -> option jsstring -> completion (list DiscordMessage).
Hypothesis fetch_pages :
  forall before, fetch fetchLimit before = paging history fetchLimit before.

Variable messageCount : Z.


End Paging.



(** ** The command [/crawling] *)

Section CrawlHandlerFacts.

Variable fetch : nat -> option jsstring -> completion (list DiscordMessage).
Variable interaction : Interaction crawl_text.

(** The loop of the handler leaves the database alone, shows progress
    only, and fetches what [fetch_loop] fetches. *)
Lemma crawl_loop_sound (fuel : nat) :
  forall (messageCount : Z) (lastId : option jsstring)
         (allMessages : list DiscordMessage) (s : crawl_state),
    crawl_db (snd (crawl_loop fetch interaction fuel messageCount lastId
                              allMessages s)) = crawl_db s
    /\ (exists shown,
           replies (snd (crawl_loop fetch interaction fuel messageCount lastId
                                    allMessages s)) = replies s ++ shown
           /\ forall t, In t shown -> exists n, t = text_progress n messageCount)
    /\ (forall result,
           fst (crawl_loop fetch interaction fuel messageCount lastId
                           allMessages s) = Normal result ->
           fetch_loop fetch fuel messageCount lastId allMessages = Normal result).
Proof.
  induction fuel as [|fuel IH]; intros messageCount lastId allMessages s.
  - cbn [crawl_loop fetch_loop]. unfold crawl_ret. cbn [fst snd].
    split; [reflexivity | split; [|intros result E; exact E]].
    exists []. rewrite app_nil_r. split; [reflexivity | intros t []].
  - cbn [crawl_loop fetch_loop].
    destruct (Z.of_nat (length allMessages) <? messageCount)%Z.
    2:{ unfold crawl_ret. cbn [fst snd].
        split; [reflexivity | split; [|intros result E; exact E]].
        exists []. rewrite app_nil_r. split; [reflexivity | intros t []]. }
    destruct (fetch fetchLimit (if truthy lastId then lastId else None))
      as [messages|e].
    2:{ unfold crawl_throw. cbn [fst snd].
        split; [reflexivity | split; [|intros result E; discriminate E]].
        exists []. rewrite app_nil_r. split; [reflexivity | intros t []]. }
    destruct (length messages =? 0).
    { unfold crawl_ret. cbn [fst snd].
      split; [reflexivity | split; [|intros result E; exact E]].
      exists []. rewrite app_nil_r. split; [reflexivity | intros t []]. }
    destruct (index messages (length messages - 1)) as [lastMessage|].
    2:{ unfold crawl_throw. cbn [fst snd].
        split; [reflexivity | split; [|intros result E; discriminate E]].
        exists []. rewrite app_nil_r. split; [reflexivity | intros t []]. }
    unfold crawl_bind.
    destruct (length (push_while_room messageCount messages allMessages)
                mod 1000 =? 0).
    + unfold editReply.
      destruct (interaction_editReply interaction
                  (text_progress
                     (length (push_while_room messageCount messages allMessages))
                     messageCount)) as [u|e].
      * destruct (length messages <? fetchLimit).
        -- unfold crawl_ret. cbn [fst snd crawl_db replies].
           split; [reflexivity | split; [|intros result E; exact E]].
           eexists. split; [reflexivity|].
           intros t [<-|[]]. eexists; reflexivity.
        -- destruct (IH messageCount (Some (message_id lastMessage))
                        (push_while_room messageCount messages allMessages)
                        {| crawl_db := crawl_db s;
                           replies := replies s
                                      ++ [text_progress
                                            (length (push_while_room messageCount
                                                       messages allMessages))
                                            messageCount] |})
             as [D [[shown [R P]] F]].
           cbn [crawl_db replies] in D, R.
           split; [exact D | split; [|exact F]].
           eexists. rewrite R, <- app_assoc. split; [reflexivity|].
           intros t [<-|H]; [eexists; reflexivity | apply P; exact H].
      * cbn [fst snd crawl_db replies].
        split; [reflexivity | split; [|intros result E; discriminate E]].
        eexists. split; [reflexivity|].
        intros t [<-|[]]. eexists; reflexivity.
    + unfold crawl_ret.
      destruct (length messages <? fetchLimit).
      * unfold crawl_ret. cbn [fst snd].
        split; [reflexivity | split; [|intros result E; exact E]].
        exists []. rewrite app_nil_r. split; [reflexivity | intros t []].
      * apply IH.
Qed.

Lemma crawl_loop_full (fuel : nat) (messageCount : Z)
  (lastId : option jsstring) (allMessages : list DiscordMessage)
  (s : crawl_state) :
  (messageCount <= Z.of_nat (length allMessages))%Z ->
  crawl_loop fetch interaction fuel messageCount lastId allMessages s
  = (Normal allMessages, s).
Proof.
  intros H. destruct fuel; cbn [crawl_loop]; [reflexivity|].
  destruct (Z.ltb_spec (Z.of_nat (length allMessages)) messageCount); [lia|].
  reflexivity.
Qed.

Lemma crawl_loop_step (fuel : nat) (messageCount : Z)
  (lastId : option jsstring) (allMessages : list DiscordMessage) :
  crawl_loop fetch interaction (S fuel) messageCount lastId allMessages
  = if (Z.of_nat (length allMessages) <? messageCount)%Z then
      match fetch fetchLimit (if truthy lastId then lastId else None) with
      | Throw e => crawl_throw e
      | Normal messages =>
          if length messages =? 0 then crawl_ret allMessages
          else
            match index messages (length messages - 1) with
            | None => crawl_throw TypeError
            | Some lastMessage =>
                _ <~ (if length (push_while_room messageCount messages allMessages)
                         mod 1000 =? 0
                      then editReply interaction
                             (text_progress
                                (length (push_while_room messageCount messages
                                                         allMessages))
                                messageCount)
                      else crawl_ret tt) ;;
                if length messages <? fetchLimit
                then crawl_ret (push_while_room messageCount messages allMessages)
                else crawl_loop fetch interaction fuel messageCount
                                (Some (message_id lastMessage))
                                (push_while_room messageCount messages allMessages)
            end
      end
    else crawl_ret allMessages.
Proof. reflexivity. Qed.

(** The loop ends by its own tests: once the iterations allowed are as
    many as the messages still asked for, allowing more changes nothing. *)
Lemma crawl_loop_more_fuel (messageCount : Z) (fuel : nat) :
  forall (lastId : option jsstring) (allMessages : list DiscordMessage)
         (s : crawl_state),
    Z.to_nat (messageCount - Z.of_nat (length allMessages)) <= fuel ->
    crawl_loop fetch interaction (S fuel) messageCount lastId allMessages s
    = crawl_loop fetch interaction fuel messageCount lastId allMessages s.
Proof.
  induction fuel as [|fuel IH]; intros lastId allMessages s H.
  - rewrite !crawl_loop_full by lia. reflexivity.
  - rewrite (crawl_loop_step (S fuel)), (crawl_loop_step fuel).
    destruct (Z.ltb_spec (Z.of_nat (length allMessages)) messageCount) as [L|L];
      [|reflexivity].
    destruct (fetch fetchLimit (if truthy lastId then lastId else None))
      as [messages|e]; [|reflexivity].
    destruct (Nat.eqb_spec (length messages) 0) as [Z0|Z0]; [reflexivity|].
    destruct (index messages (length messages - 1)) as [lastMessage|];
      [|reflexivity].
    unfold crawl_bind.
    destruct ((if length (push_while_room messageCount messages allMessages)
                  mod 1000 =? 0
               then editReply interaction
                      (text_progress
                         (length (push_while_room messageCount messages
                                                  allMessages))
                         messageCount)
               else crawl_ret tt) s) as [[u|e] s1]; [|reflexivity].
    destruct (length messages <? fetchLimit); [reflexivity|].
    apply IH.
    rewrite push_while_room_firstn, length_app, length_firstn.
    destruct messages; [simpl in Z0; congruence|]. simpl length. lia.
Qed.

Lemma crawl_loop_enough_fuel (messageCount : Z) (extra : nat)
  (s : crawl_state) :
  crawl_loop fetch interaction (extra + Z.to_nat messageCount) messageCount None [] s
  = crawl_loop fetch interaction (Z.to_nat messageCount) messageCount None [] s.
Proof.
  induction extra as [|extra IH]; [reflexivity|].
  simpl plus. rewrite crawl_loop_more_fuel by (simpl length; lia). exact IH.
Qed.

(** What the [try] block and its [catch] do: either the transaction has
    not run, the database is as before and the failure is the last text;
    or the transaction has run on the messages [fetch_messages] gives,
    the completion is the next text, and the failure follows exactly when
    Discord rejects the completion. *)
Lemma crawl_and_store_cases (tokenizer : tokenizer_t) (messageCount : Z)
  (s : crawl_state) :
  let outcome := crawl_and_store fetch interaction tokenizer messageCount s in
  (crawl_db (snd outcome) = crawl_db s
   /\ fst outcome = interaction_editReply interaction text_failed
   /\ exists shown,
        replies (snd outcome) = replies s ++ shown ++ [text_failed]
        /\ forall t, In t shown ->
                     (exists n, t = text_progress n messageCount)
                     \/ exists n, t = text_fetched n)
  \/ (exists (allMessages : list DiscordMessage) (result : report)
             (shown : list crawl_text),
         fetch_messages fetch messageCount = Normal allMessages
         /\ available (crawl_db s) = true
         /\ interaction_editReply interaction (text_fetched (length allMessages))
            = Normal tt
         /\ ingest tokenizer (map message_of allMessages) (rows (crawl_db s))
            = (rows (crawl_db (snd outcome)), result)
         /\ available (crawl_db (snd outcome)) = true
         /\ (forall t, In t shown -> exists n, t = text_progress n messageCount)
         /\ ((interaction_editReply interaction (text_done result) = Normal tt
              /\ fst outcome = Normal tt
              /\ replies (snd outcome)
                 = replies s ++ shown
                     ++ [text_fetched (length allMessages); text_done result])
             \/ (exists e,
                    interaction_editReply interaction (text_done result) = Throw e
                    /\ fst outcome = interaction_editReply interaction text_failed
                    /\ replies (snd outcome)
                       = replies s ++ shown
                           ++ [text_fetched (length allMessages);
                               text_done result; text_failed]))).
Proof.
  intros outcome.
  assert (O : outcome = crawl_and_store fetch interaction tokenizer messageCount s)
    by reflexivity.
  clearbody outcome. unfold crawl_and_store, crawl_try in O.
  unfold crawl_bind at 1 in O.
  destruct (crawl_loop_sound (Z.to_nat messageCount) messageCount None [] s)
    as [D [[shown [R P]] F]].
  destruct (crawl_loop fetch interaction (Z.to_nat messageCount) messageCount
                       None [] s) as [[allMessages|e] s1] eqn:L;
    cbn [fst snd] in D, R, F.
  2:{ left. unfold editReply in O. subst outcome. cbn [fst snd crawl_db replies].
      split; [exact D | split; [reflexivity|]].
      exists shown. rewrite R, <- app_assoc. split; [reflexivity|].
      intros t H. left. apply P; exact H. }
  specialize (F allMessages eq_refl).
  unfold crawl_bind at 1, editReply at 1 in O.
  destruct (interaction_editReply interaction (text_fetched (length allMessages)))
    as [[]|e] eqn:E1.
  2:{ left. unfold editReply in O. subst outcome. cbn [fst snd crawl_db replies].
      split; [exact D | split; [reflexivity|]].
      exists (shown ++ [text_fetched (length allMessages)]).
      rewrite R, <- !app_assoc. split; [reflexivity|].
      intros t H. apply in_app_or in H. destruct H as [H|[<-|[]]].
      - left. apply P; exact H.
      - right. eexists; reflexivity. }
  unfold crawl_bind at 1, run_transaction in O. cbn [crawl_db replies] in O.
  destruct (available (crawl_db s1)) eqn:A.
  2:{ left. unfold editReply in O. subst outcome. cbn [fst snd crawl_db replies].
      split; [exact D | split; [reflexivity|]].
      exists (shown ++ [text_fetched (length allMessages)]).
      rewrite R, <- !app_assoc. split; [reflexivity|].
      intros t H. apply in_app_or in H. destruct H as [H|[<-|[]]].
      - left. apply P; exact H.
      - right. eexists; reflexivity. }
  right. rewrite D in A. rewrite D in O.
  destruct (ingest tokenizer (map message_of allMessages) (rows (crawl_db s)))
    as [table result] eqn:I.
  exists allMessages, result, shown. unfold editReply in O.
  cbn [fst snd crawl_db replies] in O.
  destruct (interaction_editReply interaction (text_done result)) as [[]|e] eqn:E2;
    subst outcome; cbn [fst snd crawl_db replies rows available].
  - repeat (split; [first [exact F | exact A | exact E1 | exact I | reflexivity | exact P]|]).
    left. rewrite R, <- !app_assoc. repeat split.
  - repeat (split; [first [exact F | exact A | exact E1 | exact I | reflexivity | exact P]|]).
    right. exists e. rewrite R, <- !app_assoc. repeat split.
Qed.

End CrawlHandlerFacts.

(** Membership in a list of texts that ends with known ones. *)
Ltac texts H :=
  repeat (apply in_app_or in H; destruct H as [H|H]);
  repeat (destruct H as [H|H]; [try discriminate H|]);
  try contradiction.

(** X29: only the administrator crawls.  When [ADMIN_USER_ID] is set to a
    non-empty id, a user with another id is refused and the store is not
    touched, whatever the other inputs: the refusal is the only text the
    handler passes to Discord, and the handler completes or rejects as
    that reply does.  The administrator, and everybody when the variable
    is not set or empty, is never refused. *)
Theorem crawl_refuses_other_users (ADMIN_USER_ID : option jsstring)
  (userId : jsstring) (tokenizer : tokenizer_t) (count_option : option Z)
  (channel : completion (option (nat -> option jsstring
                                 -> completion (list DiscordMessage))))
  (interaction : Interaction crawl_text) (d : database) :
  (truthy ADMIN_USER_ID = true ->
   ADMIN_USER_ID <> Some userId ->
   handleCrawlingCommand ADMIN_USER_ID userId tokenizer count_option channel
                         interaction (fresh d)
   = (interaction_reply interaction text_admin_only,
      {| crawl_db := d; replies := [text_admin_only] |}))
  /\ (truthy ADMIN_USER_ID = false \/ ADMIN_USER_ID = Some userId ->
      ~ In text_admin_only
           (replies (snd (handleCrawlingCommand ADMIN_USER_ID userId tokenizer
                            count_option channel interaction (fresh d))))).
Proof.
  split.
  - intros T N. unfold handleCrawlingCommand. rewrite T.
    destruct ADMIN_USER_ID as [[|c s]|]; try discriminate. cbn [or_else].
    rewrite (proj2 (jsstring_eqb_neq userId (c :: s))) by congruence.
    reflexivity.
  - intros H. unfold handleCrawlingCommand.
    assert (G : truthy ADMIN_USER_ID
                && negb (Js.eqb userId (or_else ADMIN_USER_ID [])) = false).
    { destruct H as [-> | ->]; [reflexivity|].
      destruct userId; [reflexivity|]. cbn [truthy or_else].
      rewrite jsstring_eqb_refl. reflexivity. }
    rewrite G. destruct tokenizer as [tk|].
    2:{ cbn. intros [E|[]]; discriminate E. }
    destruct channel as [[fetch|]|e].
    3:{ cbn. intros []. }
    2:{ cbn. intros [E|[]]; discriminate E. }
    set (messageCount := match count_option with Some n => n | None => 2000%Z end).
    unfold crawl_bind, reply, fresh. cbn [crawl_db replies app].
    destruct (interaction_reply interaction (text_started messageCount)).
    2:{ cbn. intros [E|[]]; discriminate E. }
    destruct (crawl_and_store_cases fetch interaction (Some tk) messageCount
                {| crawl_db := d; replies := [text_started messageCount] |})
      as [[_ [_ [shown [R P]]]]
         | [allMessages [result [shown [_ [_ [_ [_ [_ [P Last]]]]]]]]]].
    + rewrite R. cbn [replies]. intros In1. texts In1.
      destruct (P _ In1) as [[n E] | [n E]]; discriminate E.
    + destruct Last as [[_ [_ R]] | [e [_ [_ R]]]];
        rewrite R; cbn [replies]; intros In1; texts In1;
          destruct (P _ In1) as [n E]; discriminate E.
Qed.

(** A guest asks for a crawl although the administrator is "admin": the
    only text is the refusal, and the store stays empty. *)
Lemma crawl_refuses_other_users_witness :
  handleCrawlingCommand (Some (lit "admin")) (lit "guest") whitespace_tokenizer
    (Some 100%Z) (Normal (Some (paging example_history)))
    (obliging crawl_text) (fresh {| rows := []; available := true |})
  = (Normal tt,
     {| crawl_db := {| rows := []; available := true |};
        replies := [text_admin_only] |}).
Proof.
  apply (proj1 (crawl_refuses_other_users (Some (lit "admin")) (lit "guest")
                  whitespace_tokenizer (Some 100%Z)
                  (Normal (Some (paging example_history)))
                  (obliging crawl_text) {| rows := []; available := true |})).
  - reflexivity.
  - discriminate.
Defined.


